(** * Qualitative-coding pipeline: segmenter, response extractor,
      resilient batch filter, id reconciliation and coverage validator.

    A shallow embedding of the Python modules
    [Module1_open_coding.py], [Module2_filtering.py] and
    [Module4_selective_coding.py], followed by the properties the
    specification states about them.

    Conventions.
    - A Python [str] is a list of Unicode code points ([pystr]).
    - A Python [int] is a [Z].
    - A value obtained from [json.loads] is a [pyval].
    - A [dict] whose iteration order is irrelevant is a [gmap]; a JSON
      object is an association list read with [dict_get].
    - A call that can raise returns a sum [exn + A]. *)

From Stdlib Require Import ZArith NArith List Lia String Ascii DecimalString.
From Stdlib Require Import Floats.SpecFloat.
From stdpp Require Import gmap list sorting.

Local Open Scope Z_scope.

(** ** Python strings *)

Module Py.

(** A [str] is a sequence of code points. *)
Abbreviation pystr := (list N) (only parsing).

(** Decoding of UTF-8, used only to write string constants of the
    source as Rocq string literals. *)
Fixpoint utf8_decode (bs : list N) : pystr :=
  match bs with
  | [] => []
  | b0 :: r0 =>
    if (b0 <? 128)%N then b0 :: utf8_decode r0
    else
      match r0 with
      | [] => []
      | b1 :: r1 =>
        if (b0 <? 224)%N then
          N.lor (N.shiftl (N.land b0 31) 6) (N.land b1 63) :: utf8_decode r1
        else
          match r1 with
          | [] => []
          | b2 :: r2 =>
            if (b0 <? 240)%N then
              N.lor (N.shiftl (N.land b0 15) 12)
                (N.lor (N.shiftl (N.land b1 63) 6) (N.land b2 63))
              :: utf8_decode r2
            else
              match r2 with
              | [] => []
              | b3 :: r3 =>
                N.lor (N.shiftl (N.land b0 7) 18)
                  (N.lor (N.shiftl (N.land b1 63) 12)
                     (N.lor (N.shiftl (N.land b2 63) 6) (N.land b3 63)))
                :: utf8_decode r3
              end
          end
      end
  end.

Definition U (s : string) : pystr :=
  utf8_decode (map N_of_ascii (list_ascii_of_string s)).

(** The line feed, which a Rocq literal cannot escape. *)
Definition nl : pystr := [10%N].

(** [str.isspace] on one character; the same set is matched by [\s] in
    a [str] pattern of [re]. *)
Definition isspace (c : N) : bool :=
  ((9 <=? c) && (c <=? 13) || (28 <=? c) && (c <=? 32)
   || (c =? 133) || (c =? 160) || (c =? 5760)
   || (8192 <=? c) && (c <=? 8202)
   || (c =? 8232) || (c =? 8233) || (c =? 8239) || (c =? 8287)
   || (c =? 12288))%N.

(** Line boundaries of [str.splitlines]. *)
Definition is_linebreak (c : N) : bool :=
  ((10 <=? c) && (c <=? 13) || (28 <=? c) && (c <=? 30)
   || (c =? 133) || (c =? 8232) || (c =? 8233))%N.

Fixpoint lstrip (s : pystr) : pystr :=
  match s with
  | [] => []
  | c :: r => if isspace c then lstrip r else s
  end.

Definition rstrip (s : pystr) : pystr := rev (lstrip (rev s)).

(** [s.strip()] *)
Definition strip (s : pystr) : pystr := rstrip (lstrip s).

(** [s.splitlines()]; [cur] holds the current line, reversed. *)
Fixpoint splitlines_from (cur : pystr) (s : pystr) : list pystr :=
  match s with
  | [] => match cur with [] => [] | _ => [rev cur] end
  | c :: r =>
    if (c =? 13)%N then
      match r with
      | c' :: r' =>
        if (c' =? 10)%N then rev cur :: splitlines_from [] r'
        else rev cur :: splitlines_from [] r
      | [] => rev cur :: splitlines_from [] r
      end
    else if is_linebreak c then rev cur :: splitlines_from [] r
    else splitlines_from (c :: cur) r
  end.

Definition splitlines (s : pystr) : list pystr := splitlines_from [] s.

(** [s.startswith(p)] *)
Fixpoint startswith (p s : pystr) : bool :=
  match p, s with
  | [], _ => true
  | a :: p', b :: s' => (a =? b)%N && startswith p' s'
  | _ :: _, [] => false
  end.

(** [sep.join(parts)] *)
Fixpoint join (sep : pystr) (parts : list pystr) : pystr :=
  match parts with
  | [] => []
  | [p] => p
  | p :: ps => p ++ sep ++ join sep ps
  end.

(** [c in s] for a one-character [c]. *)
Definition contains_char (c : N) (s : pystr) : bool :=
  existsb (N.eqb c) s.

(** [s.find(c)] for a one-character [c]: index of the first occurrence,
    [-1] when there is none. *)
Fixpoint find_char (c : N) (s : pystr) : Z :=
  match s with
  | [] => -1
  | x :: r =>
    if (x =? c)%N then 0
    else let i := find_char c r in if i <? 0 then -1 else i + 1
  end.

(** [s.rfind(c)]: index of the last occurrence, [-1] when none. *)
Definition rfind_char (c : N) (s : pystr) : Z :=
  let i := find_char c (rev s) in
  if i <? 0 then -1 else Z.of_nat (length s) - 1 - i.

(** [l[a:b]] with Python's treatment of negative and oversized bounds. *)
Definition slice_bound (len i : Z) : Z :=
  if i <? 0 then Z.max 0 (i + len) else Z.min i len.

Definition slice {A} (l : list A) (a b : Z) : list A :=
  let len := Z.of_nat (length l) in
  let a' := slice_bound len a in
  let b' := slice_bound len b in
  take (Z.to_nat (b' - a')) (drop (Z.to_nat a') l).

(** [p in s] for strings: [p] occurs as a substring of [s]. *)
Fixpoint substring_in (p s : pystr) : bool :=
  startswith p s ||
  match s with
  | [] => false
  | _ :: r => substring_in p r
  end.

(** [l[i]]: a negative index counts from the end; [None] stands for
    [IndexError]. *)
Definition index {A} (l : list A) (i : Z) : option A :=
  let len := Z.of_nat (length l) in
  if i <? 0 then (if i + len <? 0 then None else l !! Z.to_nat (i + len))
  else l !! Z.to_nat i.

(** [range(a, b)] *)
Definition range (a b : Z) : list Z := seqZ a (b - a).

(** ** Values produced by [json.loads] *)

#[warnings="-register-all"]
Inductive pyval :=
| PNone
| PBool (b : bool)
| PInt (z : Z)
| PFloat (f : spec_float)
| PStr (s : pystr)
| PList (l : list pyval)
| PDict (d : list (pystr * pyval)).

(** Exceptions, as far as the modelled code tells them apart. *)
Inductive exn :=
| CallError (tag : pystr)   (* raised inside the HTTP round trip *)
| TypeError
| AttributeError
| IndexError
| ValueError (msg : pystr).

(** Built-ins of the interpreter that the model does not implement:
    they depend on the Unicode database and on the float formatting of
    the running interpreter.  Every theorem holds for all of them. *)
Class PyBuiltins := {
  (** [int(s)] on a [str]; [None] when it raises [ValueError] *)
  int_of_str : pystr -> option Z;
  (** [repr(v)], which [str(v)] returns on floats, lists and dicts *)
  repr : pyval -> pystr;
  (** [repr(e)] on a caught exception *)
  repr_exn : exn -> pystr
}.

(** [d.get(k)] on a JSON object: the first binding of [k]. *)
Fixpoint dict_get (d : list (pystr * pyval)) (k : pystr) : option pyval :=
  match d with
  | [] => None
  | (k', v) :: r => if decide (k' = k) then Some v else dict_get r k
  end.

(** The distinct elements of a list in order of first occurrence: the
    key order of a dictionary filled from the list. *)
Fixpoint first_occurrences (l : list pystr) : list pystr :=
  match l with
  | [] => []
  | k :: r => k :: filter (fun k' => k' <> k) (first_occurrences r)
  end.

(** The keys of a JSON object, as iterating over it yields them. *)
Definition dict_keys (d : list (pystr * pyval)) : list pystr :=
  first_occurrences (map fst d).

(** [k == v] for a string [k]: only an equal string is equal to it. *)
Definition eq_str (k : pystr) (v : pyval) : bool :=
  match v with
  | PStr s => bool_decide (s = k)
  | _ => false
  end.

(** [bool(v)] *)
Definition py_bool (v : pyval) : bool :=
  match v with
  | PNone => false
  | PBool b => b
  | PInt z => negb (z =? 0)
  | PFloat (S754_zero _) => false
  | PFloat _ => true
  | PStr [] => false
  | PStr _ => true
  | PList [] => false
  | PList _ => true
  | PDict [] => false
  | PDict _ => true
  end.

(** Decimal numeral of an [int], as [str] prints it. *)
Definition str_of_Z (z : Z) : pystr :=
  U (DecimalString.NilZero.string_of_int (Z.to_int z)).

Section Builtins.
Context `{PyBuiltins}.

(** [int(v)]; [None] when it raises. A float is truncated towards
    zero, [nan] and the infinities are refused. *)
Definition py_int (v : pyval) : option Z :=
  match v with
  | PBool b => Some (if b then 1 else 0)
  | PInt z => Some z
  | PFloat (S754_zero _) => Some 0
  | PFloat (S754_finite s m e) =>
    Some ((if s then -1 else 1) * Z.shiftl (Z.pos m) e)
  | PFloat _ => None
  | PStr s => int_of_str s
  | PNone | PList _ | PDict _ => None
  end.

(** [str(v)] *)
Definition py_str (v : pyval) : pystr :=
  match v with
  | PNone => U "None"
  | PBool true => U "True"
  | PBool false => U "False"
  | PInt z => str_of_Z z
  | PStr s => s
  | PFloat _ | PList _ | PDict _ => repr v
  end.

(** [iter(v)] as a [for] loop consumes it; [None] stands for the
    [TypeError] raised on a value that is not iterable. *)
Definition py_iter (v : pyval) : option (list pyval) :=
  match v with
  | PList l => Some l
  | PStr s => Some (map (fun c => PStr [c]) s)
  | PDict d => Some (map PStr (dict_keys d))
  | PNone | PBool _ | PInt _ | PFloat _ => None
  end.

End Builtins.

End Py.
Export Py.

(** ** Module1_open_coding.py: the text segmenter *)

Module Module1.

Record QABlock := mkQA { question : pystr; answer : pystr }.

(** The fullwidth colon U+FF1A. *)
Definition fullwidth_colon : N := 65306%N.

(** [line.startswith(("Q:", "Q："))] for the marker letter [m]. *)
Definition has_marker (m : N) (line : pystr) : bool :=
  startswith [m; 58%N] line || startswith [m; fullwidth_colon] line.

(** [re.sub(r"^Q[:：]\s*", "", line)] for the marker letter [m]: the
    pattern is anchored, so it removes at most the leading marker, its
    colon and the white space after it. *)
Definition sub_marker (m : N) (line : pystr) : pystr :=
  match line with
  | c1 :: c2 :: r =>
    if ((c1 =? m) && ((c2 =? 58) || (c2 =? fullwidth_colon)))%N
    then lstrip r else line
  | _ => line
  end.

Definition letter_Q : N := 81%N.
Definition letter_A : N := 65%N.

(** The three locals of [parse_qa_blocks]. *)
Record seg_state := mkSeg {
  blocks : list QABlock;
  current_q : option pystr;
  current_a_lines : list pystr
}.

Definition seg_init : seg_state := mkSeg [] None [].

Definition mk_block (q : pystr) (a_lines : list pystr) : QABlock :=
  mkQA (strip q) (strip (join nl a_lines)).

(** The flush guarded by [current_q is not None and current_a_lines]. *)
Definition pending_block (st : seg_state) : option QABlock :=
  match current_q st, current_a_lines st with
  | Some q, _ :: _ => Some (mk_block q (current_a_lines st))
  | _, _ => None
  end.

(** One iteration of the loop over [text.splitlines()]. *)
Definition seg_step (st : seg_state) (raw_line : pystr) : seg_state :=
  let line := strip raw_line in
  match line with
  | [] => st
  | _ :: _ =>
    if has_marker letter_Q line then
      match pending_block st with
      | Some b => mkSeg (blocks st ++ [b]) (Some (sub_marker letter_Q line)) []
      | None =>
        mkSeg (blocks st) (Some (sub_marker letter_Q line)) (current_a_lines st)
      end
    else if has_marker letter_A line then
      match sub_marker letter_A line with
      | [] => st
      | a_body =>
        mkSeg (blocks st) (current_q st) (current_a_lines st ++ [a_body])
      end
    else
      match current_a_lines st, current_q st with
      | _ :: _, _ =>
        mkSeg (blocks st) (current_q st) (current_a_lines st ++ [line])
      | [], Some q => mkSeg (blocks st) (Some (q ++ [32%N] ++ line)) []
      | [], None => st
      end
  end.

Definition seg_finish (st : seg_state) : list QABlock :=
  match pending_block st with
  | Some b => blocks st ++ [b]
  | None => blocks st
  end.

Definition parse_qa_blocks (text : pystr) : list QABlock :=
  seg_finish (fold_left seg_step (splitlines text) seg_init).

(** *** The structured-response extractor *)

Definition fence : pystr := [96; 96; 96]%N.

(** [re.sub(r"^```json\s*", "", s, flags=re.IGNORECASE)]; with
    [IGNORECASE] the letter [s] of a [str] pattern also matches U+017F. *)
Definition sub_json_fence (s : pystr) : pystr :=
  match s with
  | 96%N :: 96%N :: 96%N :: j :: s' :: o :: n :: r =>
    if (((j =? 106) || (j =? 74))
        && ((s' =? 115) || (s' =? 83) || (s' =? 383))
        && ((o =? 111) || (o =? 79))
        && ((n =? 110) || (n =? 78)))%N
    then lstrip r else s
  | _ => s
  end.

(** [re.sub(r"^```\s*", "", s)] *)
Definition sub_open_fence (s : pystr) : pystr :=
  if startswith fence s then lstrip (drop 3 s) else s.

(** [re.sub(r"\s*```$", "", s)]: [$] matches at the end and before a
    final line feed; the match starts at the white space run that
    precedes the closing fence. *)
Definition sub_close_fence (s : pystr) : pystr :=
  let r := rev s in
  if startswith fence r then rev (lstrip (drop 3 r))
  else
    match r with
    | 10%N :: r' =>
      if startswith fence r' then rev (10%N :: lstrip (drop 3 r')) else s
    | _ => s
    end.

Definition strip_fences (t : pystr) : pystr :=
  sub_close_fence (sub_open_fence (sub_json_fence (strip t))).

Definition brace_open : N := 123%N.
Definition brace_close : N := 125%N.

(** [s[s.find("{"): s.rfind("}") + 1]] *)
Definition brace_snippet (s : pystr) : pystr :=
  slice s (find_char brace_open s) (rfind_char brace_close s + 1).

Section Extractor.
(** [json.loads]; [None] when it raises. *)
Variable json_loads : pystr -> option pyval.

(** The result is a Python value: [PNone] is Python's [None]. *)
Definition safe_parse_json (text : pyval) : pyval :=
  match text with
  | PStr t =>
    let s := strip_fences t in
    match json_loads s with
    | Some v => v
    | None =>
      if contains_char brace_open s && contains_char brace_close s then
        match json_loads (brace_snippet s) with
        | Some v => v
        | None => PNone
        end
      else PNone
    end
  | _ => PNone
  end.

End Extractor.

End Module1.


(** ** Module2_filtering.py: normalizer and resilient batch filter *)

Module Module2.

(** One entry of the normalizer's output,
    [{"id": .., "retain": .., "exclude_reason": ..}]. *)
Record verdict := mkVerdict {
  vid : Z;
  retain : bool;
  exclude_reason : pystr
}.

(** One entry of the request, [{"id": i + 1, "text": sub[i]}]. *)
Record batch_item := mkItem { item_id : Z; item_text : pystr }.

Definition key_filtering : pystr := U "filtering".
Definition key_id : pystr := U "id".
Definition key_retain : pystr := U "retain".
Definition key_exclude_reason : pystr := U "exclude_reason".

(** Reason of an id the model did not return. *)
Definition missing_reason : pystr := U "模型未返回该条结果，需人工检查".

Definition default_verdict (bid : Z) : verdict :=
  mkVerdict bid false missing_reason.

(** [out.sort(key=lambda x: x["id"])], a stable sort: an element is
    placed before the first one whose key is not smaller, so entries
    with equal keys keep their order. *)
Fixpoint insert_by_id (v : verdict) (l : list verdict) : list verdict :=
  match l with
  | [] => [v]
  | w :: r => if vid w <? vid v then w :: insert_by_id v r else v :: l
  end.

Definition sort_by_id (l : list verdict) : list verdict :=
  foldr insert_by_id [] l.

Section Normalizer.
Context `{PyBuiltins}.

(** [int(item.get("id"))] inside the [try]: [None] when [item] has no
    [get] (it is not an object) or [int] raises. *)
Definition entry_id (item : pyval) : option Z :=
  match item with
  | PDict d =>
    match dict_get d key_id with
    | Some v => py_int v
    | None => py_int PNone
    end
  | _ => None
  end.

(** [item.get(k, dflt)] on an entry already known to be an object. *)
Definition entry_get (item : pyval) (k : pystr) (dflt : pyval) : pyval :=
  match item with
  | PDict d => match dict_get d k with Some v => v | None => dflt end
  | _ => dflt
  end.

(** The verdict appended for an accepted entry. *)
Definition entry_verdict (bid : Z) (item : pyval) : verdict :=
  let retain := py_bool (entry_get item key_retain PNone) in
  let reason := strip (py_str (entry_get item key_exclude_reason (PStr []))) in
  mkVerdict bid retain (if retain then [] else reason).

(** Body of [for item in data["filtering"]] on the locals
    [(seen, out)]. *)
Definition scan_step (batch_size : Z) (acc : gset Z * list verdict)
    (item : pyval) : gset Z * list verdict :=
  let '(seen, out) := acc in
  match entry_id item with
  | None => acc
  | Some bid =>
    if (bid <? 1) || (batch_size <? bid) || bool_decide (bid ∈ seen)
    then acc
    else ({[bid]} ∪ seen, out ++ [entry_verdict bid item])
  end.

(** Body of [for bid in range(1, batch_size + 1)]. *)
Definition fill_step (seen : gset Z) (out : list verdict) (bid : Z)
    : list verdict :=
  if bool_decide (bid ∈ seen) then out else out ++ [default_verdict bid].

Definition normalize_entries (batch_size : Z) (items : list pyval)
    : list verdict :=
  let '(seen, out) := fold_left (scan_step batch_size) items (∅, []) in
  sort_by_id (fold_left (fill_step seen) (range 1 (batch_size + 1)) out).

(** [_normalize_filtering_result(data, batch_size)].  The guard
    [not data or "filtering" not in data or not isinstance(...)] is
    evaluated on whatever value the extractor produced: [in] raises on a
    number, and subscripting a list or a string with a key raises. *)
Definition _normalize_filtering_result (data : pyval) (batch_size : Z)
    : exn + list verdict :=
  if negb (py_bool data) then inr []
  else
    match data with
    | PDict d =>
      match dict_get d key_filtering with
      | None => inr []
      | Some (PList items) => inr (normalize_entries batch_size items)
      | Some _ => inr []
      end
    | PList l =>
      if existsb (eq_str key_filtering) l
      then inl TypeError else inr []
    | PStr s => if substring_in key_filtering s then inl TypeError else inr []
    | PNone | PBool _ | PInt _ | PFloat _ => inl TypeError
    end.

End Normalizer.

(** *** The batch filter *)

Definition single_failure_prefix : pystr := U "API失败/解析失败（单条）：".

Definition no_filtering : exn := ValueError (U "解析失败/无 filtering").

Section Classifier.
Context `{PyBuiltins}.

(** State of the classification oracle (the remote model). *)
Context {St : Type}.

(** [_call_filter_batch]: the HTTP round trip, the access to
    [choices[0].message.content] and [safe_parse_json(raw_text) or {}];
    it raises or returns the parsed data. *)
Variable call : St -> list batch_item -> St * (exn + pyval).

Variable unique_codes : list pystr.
Variable max_retries_each_batch : Z.

(** The mutable state reachable from [process_range]: the oracle, the
    two result dictionaries, and a counter of oracle calls kept for the
    resource bound. *)
Record pstate := mkState {
  oracle : St;
  calls : nat;
  id2retain : gmap Z bool;
  id2reason : gmap Z pystr
}.

Definition set_verdict (gid : Z) (r : bool) (reason : pystr) (s : pstate)
    : pstate :=
  mkState (oracle s) (calls s)
    (<[gid := r]> (id2retain s)) (<[gid := reason]> (id2reason s)).

(** [for item in filtering: ...]: the writes made before an
    [IndexError] stay. *)
Fixpoint record_verdicts (global_ids : list Z) (filtering : list verdict)
    (s : pstate) : pstate * option exn :=
  match filtering with
  | [] => (s, None)
  | item :: rest =>
    match index global_ids (vid item - 1) with
    | Some gid =>
      record_verdicts global_ids rest
        (set_verdict gid (retain item) (strip (exclude_reason item)) s)
    | None => (s, Some IndexError)
    end
  end.

(** Outcome of the retry loop: it returned from [process_range], or it
    ran out of attempts with [last_err]. *)
Inductive attempts_result :=
| Done (s : pstate)
| Exhausted (s : pstate) (last_err : option exn).

(** Body of the [try] of one attempt. *)
Definition attempt (batch_items : list batch_item) (global_ids : list Z)
    (n : Z) (s : pstate) : pstate * option exn :=
  let '(o, r) := call (oracle s) batch_items in
  let s1 := mkState o (S (calls s)) (id2retain s) (id2reason s) in
  match r with
  | inl e => (s1, Some e)
  | inr data =>
    match _normalize_filtering_result data n with
    | inl e => (s1, Some e)
    | inr [] => (s1, Some no_filtering)
    | inr filtering => record_verdicts global_ids filtering s1
    end
  end.

(** [for attempt in range(1, max_retries_each_batch + 1)], [k]
    iterations left. *)
Fixpoint attempts (k : nat) (batch_items : list batch_item)
    (global_ids : list Z) (n : Z) (last_err : option exn) (s : pstate)
    : attempts_result :=
  match k with
  | O => Exhausted s last_err
  | S k' =>
    match attempt batch_items global_ids n s with
    | (s', None) => Done s'
    | (s', Some e) => attempts k' batch_items global_ids n (Some e) s'
    end
  end.

Definition repr_last_err (last_err : option exn) : pystr :=
  match last_err with
  | None => U "None"
  | Some e => repr_exn e
  end.

Definition make_batch_items (sub : list pystr) : list batch_item :=
  imap (fun i text => mkItem (Z.of_nat i + 1) text) sub.

(** [process_range(start_idx, end_idx)] with a bound on the depth of
    the recursion: [None] when [fuel] is used up. *)
Fixpoint process_range_fuel (fuel : nat) (start_idx end_idx : Z)
    (s : pstate) : option (exn + pstate) :=
  match fuel with
  | O => None
  | S fuel' =>
    let sub := slice unique_codes start_idx end_idx in
    let global_ids := range (start_idx + 1) (end_idx + 1) in
    let n := Z.of_nat (length sub) in
    if n =? 0 then Some (inr s)
    else
      let batch_items := make_batch_items sub in
      match attempts (Z.to_nat max_retries_each_batch) batch_items
              global_ids n None s with
      | Done s' => Some (inr s')
      | Exhausted s' last_err =>
        if n =? 1 then
          match index global_ids 0 with
          | Some gid =>
            Some (inr (set_verdict gid false
                         (single_failure_prefix ++ repr_last_err last_err) s'))
          | None => Some (inl IndexError)
          end
        else
          let mid := start_idx + n / 2 in
          match process_range_fuel fuel' start_idx mid s' with
          | Some (inr s'') => process_range_fuel fuel' mid end_idx s''
          | other => other
          end
      end
  end.

(** A range of [n] codes is bisected at most [n] levels deep. *)
Definition process_range (start_idx end_idx : Z) (s : pstate)
    : option (exn + pstate) :=
  process_range_fuel (S (length unique_codes)) start_idx end_idx s.

(** [range(0, total, step)]; [step = 0] raises [ValueError]. *)
Definition range_step (total step : Z) : exn + list Z :=
  if step =? 0 then inl (ValueError (U "range() arg 3 must not be zero"))
  else if step <? 0 then inr []
  else inr (map (fun k => Z.of_nat k * step)
              (seq 0 (Z.to_nat ((total + step - 1) / step)))).

(** The loop over the top-level batches. *)
Fixpoint process_batches (starts : list Z) (batch_size total : Z)
    (s : pstate) : option (exn + pstate) :=
  match starts with
  | [] => Some (inr s)
  | s0 :: rest =>
    match process_range s0 (Z.min (s0 + batch_size) total) s with
    | Some (inr s') => process_batches rest batch_size total s'
    | other => other
    end
  end.

(** [{i + 1: code for i, code in enumerate(unique_codes)}], as the list
    of its items in insertion order and as a dictionary. *)
Definition id2code_items : list (Z * pystr) :=
  imap (fun i code => (Z.of_nat i + 1, code)) unique_codes.

Definition id2code : gmap Z pystr :=
  fold_left (fun m kv => <[kv.1 := kv.2]> m) id2code_items ∅.

(** [filter_unique_codes_with_batching]: the three dictionaries it
    returns, with the final state of the oracle and of the counter. *)
Definition filter_unique_codes_with_batching (batch_size : Z) (o : St)
    : option (exn + pstate * gmap Z pystr) :=
  let total := Z.of_nat (length unique_codes) in
  match range_step total batch_size with
  | inl e => Some (inl e)
  | inr starts =>
    match process_batches starts batch_size total (mkState o 0 ∅ ∅) with
    | Some (inr s) => Some (inr (s, id2code))
    | Some (inl e) => Some (inl e)
    | None => None
    end
  end.

(** [code2id = {v: k for k, v in id2code.items()}] in
    [build_filter_outputs_from_open_df]: a later item overwrites an
    earlier one with the same text. *)
Definition code2id : gmap pystr Z :=
  fold_left (fun m kv => <[kv.2 := kv.1]> m) id2code_items ∅.

End Classifier.

Arguments pstate St : clear implicits.
Arguments attempts_result St : clear implicits.

End Module2.


(** ** Module4_selective_coding.py: the coverage validator *)

Module Module4.

Definition key_aggregate_concepts : pystr := U "aggregate_concepts".
Definition key_covered_axial_codes : pystr := U "covered_axial_codes".

Section Coverage.
Context `{PyBuiltins}.

(** [for x in (v or [])]: the elements the loop visits, or the
    [TypeError] of a value that is true and not iterable. *)
Definition iter_or_empty (v : pyval) : exn + list pyval :=
  if py_bool v then
    match py_iter v with
    | Some l => inr l
    | None => inl TypeError
    end
  else inr [].

(** [x.get(k, [])]; a value without [get] raises [AttributeError]. *)
Definition get_or_list (x : pyval) (k : pystr) : exn + pyval :=
  match x with
  | PDict d =>
    inr (match dict_get d k with Some v => v | None => PList [] end)
  | _ => inl AttributeError
  end.

Definition iter_key (x : pyval) (k : pystr) : exn + list pyval :=
  match get_or_list x k with
  | inl e => inl e
  | inr v => iter_or_empty v
  end.

(** The values [a] visited by the inner loop over all concepts, in
    order; the first exception aborts the function. *)
Fixpoint covered_of_concepts (concepts : list pyval) : exn + list pyval :=
  match concepts with
  | [] => inr []
  | c :: rest =>
    match iter_key c key_covered_axial_codes with
    | inl e => inl e
    | inr entries =>
      match covered_of_concepts rest with
      | inl e => inl e
      | inr more => inr (entries ++ more)
      end
    end
  end.

Definition covered_entries (result : pyval) : exn + list pyval :=
  match iter_key result key_aggregate_concepts with
  | inl e => inl e
  | inr concepts => covered_of_concepts concepts
  end.

(** [Counter(seen)[k]] *)
Definition occurrences (k : pystr) (seen : list pystr) : nat :=
  length (filter (fun x => x = k) seen).

(** [missing], [extra] and [dup] computed from the list [seen].  The
    order of [extra] is that of iterating over a set, which Python
    leaves unspecified; here it is the order of [elements]. *)
Definition coverage_of_seen (seen axial_codes : list pystr)
    : list pystr * list pystr * list pystr :=
  let axial_set : gset pystr := list_to_set axial_codes in
  let seen_set : gset pystr := list_to_set seen in
  let missing := filter (fun a => a ∉ seen_set) axial_codes in
  let extra := filter (fun a => a ∉ axial_set) (elements seen_set) in
  let dup :=
    filter (fun k => (1 < occurrences k seen)%nat /\ k <> [])
      (first_occurrences seen) in
  (missing, extra, dup).

Definition validate_coverage (result : pyval) (axial_codes : list pystr)
    : exn + list pystr * list pystr * list pystr :=
  match covered_entries result with
  | inl e => inl e
  | inr entries =>
    inr (coverage_of_seen (map (fun a => strip (py_str a)) entries)
           axial_codes)
  end.

End Coverage.

End Module4.

(** * Properties *)

(** A stand-in for the interpreter's built-ins, used to close examples
    on inputs where no value reaches [int] as a string, [repr] or
    [repr_exn] (or where their answer is immaterial). *)
Definition no_builtins : PyBuiltins :=
  {| int_of_str := fun _ => None;
     repr := fun _ => [];
     repr_exn := fun _ => [] |}.

(** ** Stripping *)

Section Strip.

(** No white space at the front. *)
Definition head_clean (s : pystr) : Prop :=
  match s with
  | [] => True
  | c :: _ => isspace c = false
  end.

Lemma lstrip_head_clean (s : pystr) : head_clean (lstrip s).
Proof.
  induction s as [|c r IH]; simpl; [done |].
  destruct (isspace c) eqn:Hc; [done | simpl; done].
Qed.

Lemma lstrip_clean (s : pystr) : head_clean s -> lstrip s = s.
Proof. destruct s as [|c r]; simpl; [done |]. by intros ->. Qed.

Lemma lstrip_snoc (s : pystr) (c : N) :
  lstrip (s ++ [c])
  = match lstrip s with
    | [] => if isspace c then [] else [c]
    | t => t ++ [c]
    end.
Proof.
  induction s as [|x r IH]; simpl; [done |].
  destruct (isspace x); [done | done].
Qed.

Lemma rstrip_cons (c : N) (r : pystr) :
  rstrip (c :: r)
  = match rstrip r with
    | [] => if isspace c then [] else [c]
    | t => c :: t
    end.
Proof.
  unfold rstrip. simpl. rewrite lstrip_snoc.
  destruct (lstrip (rev r)) as [|y t] eqn:Hl; simpl.
  - by destruct (isspace c).
  - rewrite rev_app_distr. simpl.
    destruct (rev t ++ [y]) eqn:Hr; [by destruct (rev t) | done].
Qed.

Lemma rstrip_head_clean (s : pystr) : head_clean s -> head_clean (rstrip s).
Proof.
  destruct s as [|c r]; [done |]. simpl. intros Hc.
  rewrite rstrip_cons. destruct (rstrip r); simpl; [by rewrite Hc | done].
Qed.

Lemma rstrip_idem (s : pystr) : rstrip (rstrip s) = rstrip s.
Proof.
  unfold rstrip. rewrite rev_involutive.
  by rewrite (lstrip_clean _ (lstrip_head_clean _)).
Qed.

(** [strip] is idempotent. *)
Lemma strip_idem (s : pystr) : strip (strip s) = strip s.
Proof.
  unfold strip.
  rewrite (lstrip_clean (rstrip (lstrip s)))
    by apply rstrip_head_clean, lstrip_head_clean.
  apply rstrip_idem.
Qed.

Lemma rstrip_nil_inv (s : pystr) :
  rstrip s = [] -> Forall (fun c => isspace c = true) s.
Proof.
  induction s as [|c r IH]; [done |].
  rewrite rstrip_cons. destruct (rstrip r) eqn:Hr; [| done].
  destruct (isspace c) eqn:Hc; [| done]. intros _. constructor; auto.
Qed.

Lemma lstrip_nil_inv (s : pystr) :
  lstrip s = [] -> Forall (fun c => isspace c = true) s.
Proof.
  induction s as [|c r IH]; simpl; [done |].
  destruct (isspace c) eqn:Hc; [| done]. intros Hr. constructor; auto.
Qed.

Lemma lstrip_suffix (s : pystr) : exists p, s = p ++ lstrip s
  /\ Forall (fun c => isspace c = true) p.
Proof.
  induction s as [|c r (p & Hp & Hsp)]; simpl; [by exists [] |].
  destruct (isspace c) eqn:Hc.
  - exists (c :: p). split; [simpl; congruence | by constructor].
  - by exists [].
Qed.

(** A string with a character that is not white space does not strip
    to the empty string. *)
Lemma strip_nonempty (s : pystr) :
  Exists (fun c => isspace c = false) s -> strip s <> [].
Proof.
  intros Hex Hnil. unfold strip in Hnil.
  apply rstrip_nil_inv in Hnil.
  destruct (lstrip_suffix s) as (p & Hs & Hp).
  rewrite Hs in Hex. apply Exists_app in Hex as [Hex | Hex].
  - apply Exists_exists in Hex as (c & Hc & Hf).
    rewrite Forall_forall in Hp. specialize (Hp c Hc). congruence.
  - apply Exists_exists in Hex as (c & Hc & Hf).
    rewrite Forall_forall in Hnil. specialize (Hnil c Hc). congruence.
Qed.

End Strip.

(** ** The text segmenter *)

Section Segmenter.
Import Module1.

(** The scenario of the specification: one question, an answer of two
    lines joined by a line feed. *)
Example parse_qa_blocks_scenario :
  parse_qa_blocks
    (U "Q: 你觉得工作压力大吗？" ++ nl ++ U "A: 是的，压力很大" ++ nl ++ U "很累")
  = [mkQA (U "你觉得工作压力大吗？") (U "是的，压力很大" ++ nl ++ U "很累")].
Proof. vm_compute. reflexivity. Qed.

(** C8. Answer lines met before any question stay in the buffer when
    the first question marker arrives (the buffer is only cleared
    inside the flush), so the question [bar], which no answer line
    follows, is emitted with the answer [foo] that precedes it. *)
Theorem parse_qa_blocks_orphan_answer :
  parse_qa_blocks (U "A: foo" ++ nl ++ U "Q: bar")
  = [mkQA (U "bar") (U "foo")].
Proof. vm_compute. reflexivity. Qed.

(** What holds on every input: a block is emitted only from a
    non-empty answer buffer, so its answer is never empty. *)

Definition has_ink (s : pystr) : Prop := Exists (fun c => isspace c = false) s.

Definition seg_inv (st : seg_state) : Prop :=
  Forall (fun b => answer b <> []) (blocks st)
  /\ Forall has_ink (current_a_lines st).

Lemma ink_of_clean (s : pystr) : s <> [] -> head_clean s -> has_ink s.
Proof. destruct s as [|c r]; [done |]. intros _ Hc. by left. Qed.

Lemma strip_head_clean (s : pystr) : head_clean (strip s).
Proof. apply rstrip_head_clean, lstrip_head_clean. Qed.

Lemma join_ink (l : pystr) (ls : list pystr) :
  has_ink l -> has_ink (join nl (l :: ls)).
Proof.
  intros Hl. destruct ls; simpl; [done |]. apply Exists_app. by left.
Qed.

Lemma mk_block_answer (q l : pystr) (ls : list pystr) :
  Forall has_ink (l :: ls) -> answer (mk_block q (l :: ls)) <> [].
Proof.
  intros Hall. apply Forall_cons in Hall as [Hl _].
  unfold mk_block. cbn [answer]. by apply strip_nonempty, join_ink.
Qed.

Lemma pending_block_answer (st : seg_state) (b : QABlock) :
  seg_inv st -> pending_block st = Some b -> answer b <> [].
Proof.
  intros [_ Hlines]. unfold pending_block.
  destruct (current_q st) as [q|]; [| done].
  destruct (current_a_lines st) as [|l ls] eqn:Ha; [done |].
  intros [= <-]. by apply mk_block_answer.
Qed.

Lemma sub_marker_clean (m : N) (line : pystr) :
  head_clean line -> head_clean (sub_marker m line).
Proof.
  intros Hc. unfold sub_marker.
  destruct line as [|c1 [|c2 r]]; try done.
  destruct (_ && _)%bool; [apply lstrip_head_clean | done].
Qed.

Lemma seg_step_inv (st : seg_state) (raw_line : pystr) :
  seg_inv st -> seg_inv (seg_step st raw_line).
Proof.
  intros Hinv. pose proof Hinv as [Hb Ha]. unfold seg_step.
  pose proof (strip_head_clean raw_line) as Hclean.
  destruct (strip raw_line) as [|c line] eqn:Hline; [done |].
  destruct (has_marker letter_Q (c :: line)).
  - destruct (pending_block st) as [b|] eqn:Hp.
    + split; cbn [blocks current_a_lines]; [| constructor].
      apply Forall_app. split; [done |].
      constructor; [| constructor]. by apply (pending_block_answer st).
    + by split.
  - destruct (has_marker letter_A (c :: line)).
    + pose proof (sub_marker_clean letter_A (c :: line) Hclean) as Hsub.
      destruct (sub_marker letter_A (c :: line)) as [|x body] eqn:Hbody;
        [done |].
      split; cbn [blocks current_a_lines]; [done |].
      apply Forall_app. split; [done |].
      constructor; [| constructor]. by apply ink_of_clean.
    + destruct (current_a_lines st) as [|l ls] eqn:Hlines.
      * destruct (current_q st); [| done]. by split.
      * split; cbn [blocks current_a_lines]; [done |].
        apply Forall_app. split; [done |].
        constructor; [| constructor]. by apply ink_of_clean.
Qed.

Lemma seg_fold_inv (lines : list pystr) (st : seg_state) :
  seg_inv st -> seg_inv (fold_left seg_step lines st).
Proof.
  revert st. induction lines as [|l lines IH]; intros st Hinv; [done |].
  simpl. by apply IH, seg_step_inv.
Qed.

(** Every emitted block has a non-empty answer. *)
Lemma parse_qa_blocks_answer_nonempty (text : pystr) :
  Forall (fun b => answer b <> []) (parse_qa_blocks text).
Proof.
  unfold parse_qa_blocks, seg_finish.
  assert (Hinv : seg_inv (fold_left seg_step (splitlines text) seg_init)).
  { apply seg_fold_inv. split; constructor. }
  destruct (pending_block _) as [b|] eqn:Hp; [| apply Hinv].
  apply Forall_app. split; [apply Hinv |].
  constructor; [| constructor]. by apply (pending_block_answer _ b Hinv).
Qed.

(** A question marker met with an empty answer buffer overwrites the
    pending question, and a pending question without an answer is
    dropped at the end of the input. *)
Lemma seg_step_overwrites (st : seg_state) (raw_line : pystr) :
  current_a_lines st = [] -> strip raw_line <> [] ->
  has_marker letter_Q (strip raw_line) = true ->
  seg_step st raw_line
  = mkSeg (blocks st) (Some (sub_marker letter_Q (strip raw_line))) [].
Proof.
  intros Ha Hne Hq. unfold seg_step.
  destruct (strip raw_line) as [|c line]; [done |]. rewrite Hq.
  unfold pending_block. rewrite Ha. by destruct (current_q st).
Qed.

Lemma seg_finish_drops (st : seg_state) :
  current_a_lines st = [] -> seg_finish st = blocks st.
Proof.
  intros Ha. unfold seg_finish, pending_block. rewrite Ha.
  by destruct (current_q st).
Qed.

End Segmenter.

(** ** The structured-response extractor *)

Section ExtractorProperties.
Import Module1.
Variable json_loads : pystr -> option pyval.

(** A value that is not a [str] gives [None]. *)
Lemma safe_parse_json_not_str (text : pyval) :
  (forall t, text <> PStr t) -> safe_parse_json json_loads text = PNone.
Proof. intros Hne. destruct text; try reflexivity. by destruct (Hne s). Qed.

(** Strategy 1 wins when it succeeds. *)
Lemma safe_parse_json_direct (t : pystr) (v : pyval) :
  json_loads (strip_fences t) = Some v ->
  safe_parse_json json_loads (PStr t) = v.
Proof. intros Hv. unfold safe_parse_json. by rewrite Hv. Qed.

(** Strategy 2 is tried when strategy 1 fails and both braces occur. *)
Lemma safe_parse_json_snippet (t : pystr) :
  json_loads (strip_fences t) = None ->
  contains_char brace_open (strip_fences t) = true ->
  contains_char brace_close (strip_fences t) = true ->
  safe_parse_json json_loads (PStr t)
  = match json_loads (brace_snippet (strip_fences t)) with
    | Some v => v
    | None => PNone
    end.
Proof.
  intros Hv Ho Hc. unfold safe_parse_json. by rewrite Hv, Ho, Hc.
Qed.

(** Otherwise the result is [None]. *)
Lemma safe_parse_json_none (t : pystr) :
  json_loads (strip_fences t) = None ->
  contains_char brace_open (strip_fences t)
  && contains_char brace_close (strip_fences t) = false ->
  safe_parse_json json_loads (PStr t) = PNone.
Proof. intros Hv Hb. unfold safe_parse_json. by rewrite Hv, Hb. Qed.

(** C9. The extractor hands back whatever [json.loads] produced: on the
    reply [[1, 2]], which [json.loads] parses to a list, it returns
    that list, which is neither an object nor [None]. *)
Theorem safe_parse_json_returns_array :
  json_loads (U "[1, 2]") = Some (PList [PInt 1; PInt 2]) ->
  safe_parse_json json_loads (PStr (U "[1, 2]")) = PList [PInt 1; PInt 2].
Proof. intros Hv. by apply safe_parse_json_direct. Qed.

End ExtractorProperties.

(** The one value of [json.loads] the example below needs. *)
Definition json_loads_array (s : pystr) : option pyval :=
  if decide (s = U "[1, 2]") then Some (PList [PInt 1; PInt 2]) else None.

Lemma safe_parse_json_returns_array_witness :
  json_loads_array (U "[1, 2]") = Some (PList [PInt 1; PInt 2])
  /\ Module1.safe_parse_json json_loads_array (PStr (U "[1, 2]"))
     = PList [PInt 1; PInt 2].
Proof.
  split; [reflexivity |].
  apply (safe_parse_json_returns_array json_loads_array). reflexivity.
Defined.

(** ** The id mapping *)

Section IdMapping.
Import Module2.

(** Reading [id2code]: the items are inserted with increasing keys. *)
Lemma lookup_fold_id_items (l : list pystr) (j : nat) (m : gmap Z pystr)
    (k : Z) :
  fold_left (fun m kv => <[kv.1 := kv.2]> m)
    (imap (fun i code => (Z.of_nat (j + i) + 1, code)) l) m !! k
  = if decide (Z.of_nat j + 1 <= k <= Z.of_nat j + Z.of_nat (length l))
    then l !! Z.to_nat (k - Z.of_nat j - 1)
    else m !! k.
Proof.
  revert j m. induction l as [|x l IH]; intros j m.
  - simpl. case_decide; [lia | done].
  - cbn [imap fold_left fst snd].
    rewrite (imap_ext _ (fun i code => (Z.of_nat (S j + i) + 1, code)))
      by (intros; simpl; f_equal; lia).
    rewrite IH. cbn [length].
    repeat case_decide; try lia.
    + replace (Z.to_nat (k - Z.of_nat j - 1))
        with (S (Z.to_nat (k - Z.of_nat (S j) - 1))) by lia.
      done.
    + replace (Z.of_nat (j + 0) + 1) with k by lia.
      rewrite lookup_insert_eq.
      by replace (Z.to_nat (k - Z.of_nat j - 1)) with 0%nat by lia.
    + rewrite lookup_insert_ne by lia. done.
Qed.

Lemma id2code_lookup (codes : list pystr) (cid : Z) :
  id2code codes !! cid
  = if decide (1 <= cid <= Z.of_nat (length codes))
    then codes !! Z.to_nat (cid - 1) else None.
Proof.
  unfold id2code, id2code_items.
  rewrite (imap_ext _ (fun i code => (Z.of_nat (0 + i) + 1, code)))
    by done.
  rewrite lookup_fold_id_items.
  repeat case_decide; try lia; [|done].
  f_equal. lia.
Qed.

(** Reading [code2id]: a text absent from the list keeps its binding,
    and in a duplicate-free list each text is bound to its position. *)
Lemma lookup_fold_code_items_absent (l : list pystr) (j : nat)
    (m : gmap pystr Z) (txt : pystr) :
  txt ∉ l ->
  fold_left (fun m kv => <[kv.2 := kv.1]> m)
    (imap (fun i code => (Z.of_nat (j + i) + 1, code)) l) m !! txt
  = m !! txt.
Proof.
  revert j m. induction l as [|x l IH]; intros j m Hnot; [done |].
  cbn [imap fold_left fst snd].
  rewrite (imap_ext _ (fun i code => (Z.of_nat (S j + i) + 1, code)))
    by (intros; simpl; f_equal; lia).
  rewrite IH by set_solver.
  apply lookup_insert_ne. set_solver.
Qed.

Lemma lookup_fold_code_items (l : list pystr) (j : nat) (m : gmap pystr Z)
    (i : nat) (txt : pystr) :
  NoDup l -> l !! i = Some txt ->
  fold_left (fun m kv => <[kv.2 := kv.1]> m)
    (imap (fun i code => (Z.of_nat (j + i) + 1, code)) l) m !! txt
  = Some (Z.of_nat (j + i) + 1).
Proof.
  revert j m i. induction l as [|x l IH]; intros j m i Hnd Hi; [done |].
  apply NoDup_cons in Hnd as [Hx Hnd].
  cbn [imap fold_left fst snd].
  rewrite (imap_ext _ (fun i code => (Z.of_nat (S j + i) + 1, code)))
    by (intros; simpl; f_equal; lia).
  destruct i as [|i]; simpl in Hi.
  - injection Hi as ->.
    rewrite lookup_fold_code_items_absent by done.
    by rewrite lookup_insert_eq.
  - rewrite (IH _ _ i) by done. f_equal. lia.
Qed.

Lemma code2id_lookup (codes : list pystr) (i : nat) (txt : pystr) :
  NoDup codes -> codes !! i = Some txt ->
  code2id codes !! txt = Some (Z.of_nat i + 1).
Proof.
  intros Hnd Hi. unfold code2id, id2code_items.
  rewrite (imap_ext _ (fun i code => (Z.of_nat (0 + i) + 1, code)))
    by done.
  by rewrite (lookup_fold_code_items _ _ _ i txt).
Qed.

(** C6. For a duplicate-free list of [K] code texts, [id2code] binds
    the id [i + 1] to the [i]-th text and nothing else, it is injective,
    and [code2id] inverts it: id to text to id, and text to id to text,
    round-trip for all [K] entries. *)
Theorem id_mapping_round_trip (codes : list pystr) :
  NoDup codes ->
  (forall cid txt,
      id2code codes !! cid = Some txt
      <-> 1 <= cid /\ codes !! Z.to_nat (cid - 1) = Some txt)
  /\ (forall cid, 1 <= cid <= Z.of_nat (length codes) ->
        exists txt, id2code codes !! cid = Some txt
                    /\ code2id codes !! txt = Some cid)
  /\ (forall txt, txt ∈ codes ->
        exists cid, code2id codes !! txt = Some cid
                    /\ id2code codes !! cid = Some txt)
  /\ (forall c1 c2 txt,
        id2code codes !! c1 = Some txt -> id2code codes !! c2 = Some txt ->
        c1 = c2).
Proof.
  intros Hnd.
  assert (Hfwd : forall cid txt,
             id2code codes !! cid = Some txt
             <-> 1 <= cid /\ codes !! Z.to_nat (cid - 1) = Some txt).
  { intros cid txt. rewrite id2code_lookup. case_decide as Hr.
    - intuition lia.
    - split; [done |]. intros [Hc Hl].
      apply lookup_lt_Some in Hl. lia. }
  split; [exact Hfwd |]. split; [| split].
  - intros cid Hr.
    destruct (lookup_lt_is_Some_2 codes (Z.to_nat (cid - 1))) as [txt Ht];
      [lia |].
    exists txt. split; [apply Hfwd; split; [lia | done] |].
    rewrite (code2id_lookup codes _ txt Hnd Ht). f_equal. lia.
  - intros txt Hin. apply list_elem_of_lookup in Hin as [i Hi].
    exists (Z.of_nat i + 1). split; [by apply code2id_lookup |].
    apply Hfwd. split; [lia |].
    by replace (Z.to_nat (Z.of_nat i + 1 - 1)) with i by lia.
  - intros c1 c2 txt H1 H2.
    apply Hfwd in H1 as [Hc1 Hl1]. apply Hfwd in H2 as [Hc2 Hl2].
    pose proof (NoDup_lookup _ _ _ _ Hnd Hl1 Hl2). lia.
Qed.

Lemma id_mapping_round_trip_witness :
  NoDup [U "压力大"; U "很累"; U "单条"]
  /\ exists txt,
       id2code [U "压力大"; U "很累"; U "单条"] !! 2 = Some txt
       /\ code2id [U "压力大"; U "很累"; U "单条"] !! txt = Some 2.
Proof.
  assert (Hnd : NoDup [U "压力大"; U "很累"; U "单条"]).
  { refine (bool_decide_unpack _ _). vm_compute. exact I. }
  split; [exact Hnd |].
  apply (id_mapping_round_trip _ Hnd). simpl. lia.
Defined.

End IdMapping.

(** ** The coverage validator *)

(** The covered codes [cs] exactly partition the known codes: every
    known code is covered exactly once and nothing else is covered. *)
Definition exact_partition (cs axial_codes : list pystr) : Prop :=
  Forall (fun a => Module4.occurrences a cs = 1%nat) axial_codes
  /\ Forall (fun c => c ∈ axial_codes) cs.

(** A result with one concept per list of covered codes. *)
Definition concepts_result (covered : list (list pystr)) : pyval :=
  PDict [(U "aggregate_concepts",
          PList (map (fun cs =>
                        PDict [(U "concept", PStr (U "c"));
                               (U "covered_axial_codes", PList (map PStr cs))])
                   covered))].

Section CoverageProperties.
Import Module4.
Context `{PyBuiltins}.

Lemma filter_nil_of {A} (P : A -> Prop) `{!forall x, Decision (P x)}
    (l : list A) :
  (forall x, x ∈ l -> ~ P x) -> filter P l = [].
Proof.
  induction l as [|x l IH]; intros Hl; [done |].
  rewrite filter_cons_False by (apply Hl; left).
  apply IH. intros y Hy. apply Hl. by right.
Qed.

Lemma occurrences_app (k : pystr) (l1 l2 : list pystr) :
  occurrences k (l1 ++ l2) = (occurrences k l1 + occurrences k l2)%nat.
Proof. unfold occurrences. by rewrite filter_app, length_app. Qed.

Lemma occurrences_pos (k : pystr) (l : list pystr) :
  k ∈ l <-> (0 < occurrences k l)%nat.
Proof.
  unfold occurrences. split.
  - intros Hin.
    assert (Hk : k ∈ filter (fun x => x = k) l)
      by (apply list_elem_of_filter; done).
    destruct (filter _ l); [by apply not_elem_of_nil in Hk | simpl; lia].
  - intros Hpos. destruct (filter (fun x => x = k) l) as [|y r] eqn:Hf;
      [simpl in Hpos; lia |].
    assert (Hy : y ∈ filter (fun x => x = k) l) by (rewrite Hf; left).
    apply list_elem_of_filter in Hy as [-> Hy]. done.
Qed.

Lemma elem_of_first_occurrences (k : pystr) (l : list pystr) :
  k ∈ first_occurrences l -> k ∈ l.
Proof.
  induction l as [|x l IH]; simpl; [done |].
  intros [-> | Hin]%elem_of_cons; [left |].
  apply list_elem_of_filter in Hin as [_ Hin]. right. by apply IH.
Qed.

(** What the validator reads from string entries that carry no outer
    white space: the entries themselves. *)
Lemma seen_of_stripped (cs : list pystr) :
  Forall (fun c => strip c = c) cs ->
  map (fun a => strip (py_str a)) (map PStr cs) = cs.
Proof.
  induction 1 as [|c cs Hc _ IH]; simpl; [done |]. by rewrite Hc, IH.
Qed.

Lemma coverage_of_partition (cs axial_codes : list pystr) :
  exact_partition cs axial_codes ->
  coverage_of_seen cs axial_codes = ([], [], []).
Proof.
  intros [Hone Hin]. rewrite Forall_forall in Hone, Hin.
  unfold coverage_of_seen. repeat f_equal.
  - apply filter_nil_of. intros a Ha Hnot. apply Hnot.
    apply elem_of_list_to_set, occurrences_pos. rewrite (Hone a Ha). lia.
  - apply filter_nil_of. intros a Ha Hnot. apply Hnot.
    apply elem_of_list_to_set, Hin.
    by apply elem_of_elements, elem_of_list_to_set in Ha.
  - apply filter_nil_of. intros k Hk [Hgt _].
    apply elem_of_first_occurrences in Hk.
    rewrite (Hone k (Hin k Hk)) in Hgt. lia.
Qed.

Lemma coverage_of_dropped (pre post axial_codes : list pystr) (a : pystr) :
  exact_partition (pre ++ a :: post) axial_codes ->
  a ∈ (coverage_of_seen (pre ++ post) axial_codes).1.1.
Proof.
  intros [Hone Hin]. rewrite Forall_forall in Hone, Hin.
  assert (Ha : a ∈ axial_codes) by (apply Hin; set_solver).
  unfold coverage_of_seen. cbn [fst].
  apply list_elem_of_filter. split; [| done].
  rewrite elem_of_list_to_set, occurrences_pos.
  specialize (Hone a Ha).
  rewrite occurrences_app in Hone |- *.
  change (a :: post) with ([a] ++ post) in Hone.
  rewrite occurrences_app in Hone.
  assert (occurrences a [a] = 1%nat) as Hself.
  { unfold occurrences. by rewrite filter_cons_True. }
  lia.
Qed.

(** C7, as amended. When the known codes carry no leading or trailing
    white space (the caller strips them) and the covered codes of a
    result exactly partition them, the validator returns three empty
    lists; when one occurrence of a covered code is dropped from the
    result, that code is reported missing. *)
Theorem validate_coverage_partition (result : pyval)
    (axial_codes cs : list pystr) :
  Forall (fun a => strip a = a) axial_codes ->
  covered_entries result = inr (map PStr cs) ->
  exact_partition cs axial_codes ->
  validate_coverage result axial_codes = inr ([], [], [])
  /\ forall (result' : pyval) (pre post : list pystr) (a : pystr),
       cs = pre ++ a :: post ->
       covered_entries result' = inr (map PStr (pre ++ post)) ->
       exists missing extra dup,
         validate_coverage result' axial_codes = inr (missing, extra, dup)
         /\ a ∈ missing.
Proof.
  intros Hstrip Hcov Hpart.
  assert (Hcs : Forall (fun c => strip c = c) cs).
  { destruct Hpart as [_ Hin]. rewrite Forall_forall in Hstrip, Hin |- *.
    intros c Hc. by apply Hstrip, Hin. }
  split.
  - unfold validate_coverage. rewrite Hcov, (seen_of_stripped cs Hcs).
    by rewrite coverage_of_partition.
  - intros result' pre post a -> Hcov'.
    unfold validate_coverage. rewrite Hcov'.
    rewrite seen_of_stripped.
    + pose proof (coverage_of_dropped pre post axial_codes a Hpart) as Hm.
      destruct (coverage_of_seen (pre ++ post) axial_codes)
        as [[missing extra] dup].
      by exists missing, extra, dup.
    + apply Forall_app in Hcs as [Hpre Hpost].
      apply Forall_app. split; [done |]. by apply Forall_cons in Hpost as [_ ?].
Qed.

End CoverageProperties.

Lemma validate_coverage_partition_witness :
  Module4.validate_coverage (H := no_builtins)
    (concepts_result [[U "压力"; U "疲劳"]; [U "支持"]])
    [U "压力"; U "疲劳"; U "支持"]
  = inr ([], [], []).
Proof.
  apply (validate_coverage_partition (H := no_builtins)
           (concepts_result [[U "压力"; U "疲劳"]; [U "支持"]])
           [U "压力"; U "疲劳"; U "支持"] [U "压力"; U "疲劳"; U "支持"]).
  - refine (bool_decide_unpack _ _). vm_compute. exact I.
  - vm_compute. reflexivity.
  - split; refine (bool_decide_unpack _ _); vm_compute; exact I.
Defined.

(** C7, as stated, fails on a known code with outer white space: the
    validator strips what the concepts cover and compares it with the
    known codes as they are, so the code [" a"], covered exactly once,
    is reported both missing and (stripped) extra. *)
Lemma validate_coverage_padded_code :
  ~ (forall (H : PyBuiltins) (result : pyval) (axial_codes cs : list pystr),
        Module4.covered_entries result = inr (map PStr cs) ->
        exact_partition cs axial_codes ->
        Module4.validate_coverage result axial_codes = inr ([], [], [])).
Proof.
  intros Hclaim.
  assert (Hv : Module4.validate_coverage (H := no_builtins)
                 (concepts_result [[U " a"]]) [U " a"]
               = inr ([U " a"], [U "a"], [])) by (vm_compute; reflexivity).
  enough (Heq : Module4.validate_coverage (H := no_builtins)
                  (concepts_result [[U " a"]]) [U " a"] = inr ([], [], []))
    by (rewrite Hv in Heq; discriminate).
  apply (Hclaim no_builtins _ _ [U " a"]).
  - vm_compute. reflexivity.
  - split; refine (bool_decide_unpack _ _); vm_compute; exact I.
Qed.


(** ** The result normalizer *)

Section NormalizerProperties.
Import Module2.
Context `{PyBuiltins}.

(** The normalizer as the specification words it: for each id of
    [1..n] in ascending order, the verdict of the first entry that
    carries this id, or else the default verdict. *)
Definition has_id (i : Z) (item : pyval) : bool :=
  bool_decide (entry_id item = Some i).

Definition first_entry (items : list pyval) (i : Z) : option pyval :=
  find (has_id i) items.

Definition spec_verdict (items : list pyval) (i : Z) : verdict :=
  match first_entry items i with
  | Some item => entry_verdict i item
  | None => default_verdict i
  end.

Definition normalize_spec (n : Z) (items : list pyval) : list verdict :=
  spec_verdict items <$> seqZ 1 n.

(** *** The sort *)

Lemma insert_by_id_perm (v : verdict) (l : list verdict) :
  insert_by_id v l ≡ₚ v :: l.
Proof.
  induction l as [|w r IH]; simpl; [done |].
  destruct (vid w <? vid v); [| done].
  rewrite IH. apply Permutation_swap.
Qed.

Lemma sort_by_id_perm (l : list verdict) : sort_by_id l ≡ₚ l.
Proof.
  induction l as [|v r IH]; simpl; [done |].
  by rewrite insert_by_id_perm, IH.
Qed.

Lemma insert_by_id_sorted (v : verdict) (l : list verdict) :
  Sorted Z.le (vid <$> l) -> Sorted Z.le (vid <$> insert_by_id v l).
Proof.
  induction l as [|w r IH]; simpl; intros Hs.
  - repeat constructor.
  - destruct (vid w <? vid v) eqn:Hlt.
    + apply Sorted_inv in Hs as [Hs Hhd]. simpl. constructor; [by apply IH |].
      destruct r as [|u r]; simpl.
      * constructor. lia.
      * destruct (vid u <? vid v); simpl; constructor.
        -- by apply HdRel_inv in Hhd.
        -- lia.
    + simpl. constructor; [done |]. constructor. lia.
Qed.

Lemma sort_by_id_sorted (l : list verdict) :
  Sorted Z.le (vid <$> sort_by_id l).
Proof.
  induction l as [|v r IH]; simpl; [constructor |].
  by apply insert_by_id_sorted.
Qed.

Lemma Sorted_seqZ (m n : Z) : Sorted Z.le (seqZ m n).
Proof.
  remember (Z.to_nat n) as k eqn:Hk. revert m n Hk.
  induction k as [|k IH]; intros m n Hk.
  - rewrite seqZ_nil by lia. constructor.
  - rewrite seqZ_cons by lia. constructor; [apply IH; lia |].
    destruct (decide (0 < Z.pred n)).
    + rewrite seqZ_cons by lia. constructor. lia.
    + rewrite seqZ_nil by lia. constructor.
Qed.

Lemma fmap_of_ids (f : Z -> verdict) (l : list verdict) :
  (forall v, v ∈ l -> v = f (vid v)) -> l = f <$> (vid <$> l).
Proof.
  induction l as [|v r IH]; intros Hl; simpl; [done |].
  f_equal; [apply Hl; left | apply IH; intros w Hw; apply Hl; by right].
Qed.

(** A list that holds, for each id of [1..n] once and for no other
    id, the verdict [f id], sorts to [f 1, .., f n]. *)
Lemma sort_by_id_complete (f : Z -> verdict) (n : Z) (l : list verdict) :
  (forall v, v ∈ l -> v = f (vid v) /\ 1 <= vid v <= n) ->
  NoDup (vid <$> l) ->
  (forall i, 1 <= i <= n -> i ∈ vid <$> l) ->
  sort_by_id l = f <$> seqZ 1 n.
Proof.
  intros Hl Hnd Hall.
  assert (Hids : vid <$> sort_by_id l = seqZ 1 n).
  { apply (Sorted_unique Z.le).
    - apply sort_by_id_sorted.
    - apply Sorted_seqZ.
    - rewrite sort_by_id_perm. apply NoDup_Permutation.
      + done.
      + apply NoDup_seqZ.
      + intros i. rewrite elem_of_seqZ. split.
        * intros (v & -> & Hv)%list_elem_of_fmap.
          destruct (Hl v Hv) as [_ ?]. lia.
        * intros ?. apply Hall. lia. }
  rewrite <- Hids. apply fmap_of_ids.
  intros v Hv. rewrite sort_by_id_perm in Hv. by apply Hl.
Qed.

(** *** The scan of the entries *)

Lemma find_snoc {A} (f : A -> bool) (l : list A) (x : A) :
  find f (l ++ [x])
  = match find f l with
    | Some y => Some y
    | None => if f x then Some x else None
    end.
Proof.
  induction l as [|y l IH]; simpl; [done |]. by destruct (f y).
Qed.

Lemma first_entry_snoc (pre : list pyval) (item : pyval) (i : Z) :
  first_entry (pre ++ [item]) i
  = match first_entry pre i with
    | Some y => Some y
    | None => if decide (entry_id item = Some i) then Some item else None
    end.
Proof.
  unfold first_entry. rewrite find_snoc.
  destruct (find (has_id i) pre); [done |].
  unfold has_id. by case_bool_decide; case_decide.
Qed.

(** Invariant of the loop over the entries, [pre] being the entries
    already visited. *)
Definition scan_inv (n : Z) (pre : list pyval)
    (acc : gset Z * list verdict) : Prop :=
  (forall i, i ∈ acc.1 <-> 1 <= i <= n /\ is_Some (first_entry pre i))
  /\ NoDup (vid <$> acc.2)
  /\ (forall v, v ∈ acc.2 -> vid v ∈ acc.1 /\ v = spec_verdict pre (vid v))
  /\ (forall i, i ∈ acc.1 -> i ∈ vid <$> acc.2).

Lemma scan_inv_init (n : Z) : scan_inv n [] (∅, []).
Proof.
  unfold scan_inv. simpl. split_and!.
  - intros i. split; [set_solver |]. intros [_ [y Hy]]. discriminate.
  - constructor.
  - intros v Hv. by apply not_elem_of_nil in Hv.
  - set_solver.
Qed.

Lemma spec_verdict_snoc_seen (pre : list pyval) (item : pyval) (i : Z) :
  is_Some (first_entry pre i) ->
  spec_verdict (pre ++ [item]) i = spec_verdict pre i.
Proof.
  intros [y Hy]. unfold spec_verdict. by rewrite first_entry_snoc, Hy.
Qed.

Lemma scan_inv_step (n : Z) (pre : list pyval) (item : pyval)
    (acc : gset Z * list verdict) :
  scan_inv n pre acc -> scan_inv n (pre ++ [item]) (scan_step n acc item).
Proof.
  destruct acc as [seen out]. intros (Hseen & Hnd & Hout & Hcov).
  simpl in *. unfold scan_step.
  assert (Hkeep : forall v, v ∈ out ->
            vid v ∈ seen /\ v = spec_verdict (pre ++ [item]) (vid v)).
  { intros v Hv. destruct (Hout v Hv) as [Hs Hspec]. split; [done |].
    rewrite spec_verdict_snoc_seen; [done |]. by apply Hseen. }
  destruct (entry_id item) as [bid|] eqn:Hid.
  - destruct ((bid <? 1) || (n <? bid) || bool_decide (bid ∈ seen))
      eqn:Hrej.
    + (* rejected: out of range or already seen *)
      unfold scan_inv. simpl. split_and!; [| done | done | done].
      intros i. split.
      * intros Hi. apply Hseen in Hi as [Hr [y Hy]]. split; [done |].
        rewrite first_entry_snoc, Hy. by eexists.
      * intros [Hr Hsome]. rewrite first_entry_snoc in Hsome.
        destruct (first_entry pre i) eqn:Hf.
        -- apply Hseen. split; [done | by rewrite Hf].
        -- case_decide as Hi; [| by destruct Hsome].
           assert (i = bid) as -> by congruence.
           apply orb_true_iff in Hrej as [Hrej | Hrej];
             [apply orb_true_iff in Hrej as [Hrej | Hrej]; lia |].
           by apply bool_decide_eq_true in Hrej.
    + (* accepted *)
      apply orb_false_iff in Hrej as [Hrej Hnew].
      apply orb_false_iff in Hrej as [Hlo Hhi].
      apply bool_decide_eq_false in Hnew.
      assert (Hfresh : first_entry pre bid = None).
      { destruct (first_entry pre bid) eqn:Hf; [| done].
        destruct Hnew. apply Hseen. split; [lia | by rewrite Hf]. }
      assert (Hbid : first_entry (pre ++ [item]) bid = Some item).
      { rewrite first_entry_snoc, Hfresh. by rewrite decide_True. }
      unfold scan_inv. simpl. split_and!.
      * intros i. split.
        -- intros [->%elem_of_singleton | Hi]%elem_of_union.
           ++ split; [lia | by rewrite Hbid].
           ++ apply Hseen in Hi as [Hr [y Hy]]. split; [done |].
              rewrite first_entry_snoc, Hy. by eexists.
        -- intros [Hr Hsome]. rewrite first_entry_snoc in Hsome.
           destruct (first_entry pre i) eqn:Hf.
           ++ apply elem_of_union_r, Hseen. split; [done | by rewrite Hf].
           ++ case_decide as Hi; [| by destruct Hsome].
              assert (i = bid) as -> by congruence.
              by apply elem_of_union_l, elem_of_singleton.
      * rewrite fmap_app. apply NoDup_app. split_and!; [done | |].
        -- intros i Hi Hd. simpl in Hd.
           apply list_elem_of_singleton in Hd as ->.
           apply list_elem_of_fmap in Hi as (v & Hv & Hin).
           destruct (Hout v Hin) as [Hs _]. congruence.
        -- simpl. apply NoDup_singleton.
      * intros v [Hin | ->%list_elem_of_singleton]%elem_of_app.
        -- destruct (Hkeep v Hin) as [Hs Hspec]. split; [| done].
           by apply elem_of_union_r.
        -- simpl. split; [by apply elem_of_union_l, elem_of_singleton |].
           unfold spec_verdict. by rewrite Hbid.
      * intros i [->%elem_of_singleton | Hi]%elem_of_union;
          rewrite fmap_app; apply elem_of_app.
        -- right. simpl. left.
        -- left. by apply Hcov.
  - (* the entry has no usable id *)
    assert (Hsame : forall i,
               first_entry (pre ++ [item]) i = first_entry pre i).
    { intros i. rewrite first_entry_snoc.
      destruct (first_entry pre i); [done |]. case_decide; congruence. }
    unfold scan_inv. simpl. split_and!; [| done | done | done].
    intros i. rewrite Hsame. apply Hseen.
Qed.

Lemma scan_inv_fold (n : Z) (post pre : list pyval)
    (acc : gset Z * list verdict) :
  scan_inv n pre acc ->
  scan_inv n (pre ++ post) (fold_left (scan_step n) post acc).
Proof.
  revert pre acc. induction post as [|item post IH]; intros pre acc Hinv.
  - by rewrite app_nil_r.
  - simpl. rewrite cons_middle, app_assoc. by apply IH, scan_inv_step.
Qed.

(** *** The default fill *)

Lemma fill_fold (seen : gset Z) (l : list Z) (out : list verdict) :
  fold_left (fill_step seen) l out
  = out ++ (default_verdict <$> filter (fun i => i ∉ seen) l).
Proof.
  revert out. induction l as [|i l IH]; intros out; simpl.
  - by rewrite app_nil_r.
  - rewrite IH. unfold fill_step. case_bool_decide.
    + by rewrite filter_cons_False by (intros Hn; by apply Hn).
    + rewrite filter_cons_True by done. simpl. by rewrite <- app_assoc.
Qed.

(** The loop programme of the normalizer computes the specification. *)
Lemma normalize_entries_spec (n : Z) (items : list pyval) :
  normalize_entries n items = normalize_spec n items.
Proof.
  unfold normalize_entries, normalize_spec.
  pose proof (scan_inv_fold n items [] (∅, []) (scan_inv_init n)) as Hinv.
  simpl in Hinv.
  destruct (fold_left (scan_step n) items (∅, [])) as [seen out].
  destruct Hinv as (Hseen & Hnd & Hout & Hcov). simpl in *.
  rewrite fill_fold. unfold range. replace (n + 1 - 1) with n by lia.
  apply sort_by_id_complete.
  - intros v [Hv | Hv]%elem_of_app.
    + destruct (Hout v Hv) as [Hs Hspec]. split; [done |].
      by apply Hseen in Hs as [? _].
    + apply list_elem_of_fmap in Hv as (i & -> & Hi).
      apply list_elem_of_filter in Hi as [Hns Hi].
      apply elem_of_seqZ in Hi. simpl. split; [| lia].
      unfold spec_verdict. destruct (first_entry items i) eqn:Hf; [| done].
      destruct Hns. apply Hseen. split; [lia | by rewrite Hf].
  - rewrite fmap_app. apply NoDup_app. repeat split; [done | |].
    + intros i Hi Hd. apply list_elem_of_fmap in Hi as (v & -> & Hv).
      apply list_elem_of_fmap in Hd as (w & Hw & Hd).
      apply list_elem_of_fmap in Hd as (j & -> & Hj).
      apply list_elem_of_filter in Hj as [Hns _]. simpl in Hw.
      destruct (Hout v Hv) as [Hs _]. congruence.
    + rewrite <- list_fmap_compose.
      apply NoDup_fmap_2_strong.
      * intros i j _ _ Hij. simpl in Hij. done.
      * apply NoDup_filter, NoDup_seqZ.
  - intros i Hi. rewrite fmap_app. apply elem_of_app.
    destruct (decide (i ∈ seen)) as [Hs | Hs].
    + left. by apply Hcov.
    + right. rewrite <- list_fmap_compose. apply list_elem_of_fmap.
      exists i. split; [done |]. apply list_elem_of_filter. split; [done |].
      apply elem_of_seqZ. lia.
Qed.

(** On a reply object with a list under ["filtering"] the normalizer
    returns the specified list. *)
Lemma normalize_dict (d : list (pystr * pyval)) (items : list pyval)
    (n : Z) :
  dict_get d key_filtering = Some (PList items) ->
  _normalize_filtering_result (PDict d) n = inr (normalize_spec n items).
Proof.
  intros Hget. unfold _normalize_filtering_result.
  destruct d as [|kv d']; [done |]. cbn [py_bool negb].
  by rewrite Hget, normalize_entries_spec.
Qed.

(** A non-empty result only comes from such a reply. *)
Lemma normalize_inv (data : pyval) (n : Z) (out : list verdict) :
  _normalize_filtering_result data n = inr out -> out <> [] ->
  exists d items,
    data = PDict d /\ dict_get d key_filtering = Some (PList items)
    /\ out = normalize_spec n items.
Proof.
  unfold _normalize_filtering_result. intros Hres Hne.
  destruct (negb (py_bool data)); [by injection Hres as <- |].
  destruct data as [| | | | s | l | d]; try discriminate.
  - destruct (substring_in _ _); [discriminate | by injection Hres as <-].
  - destruct (existsb _ _); [discriminate | by injection Hres as <-].
  - destruct (dict_get d key_filtering) as [v|] eqn:Hget;
      [| by injection Hres as <-].
    destruct v; try by injection Hres as <-.
    injection Hres as <-. exists d, l. by rewrite normalize_entries_spec.
Qed.

Lemma length_normalize_spec (n : Z) (items : list pyval) :
  length (normalize_spec n items) = Z.to_nat n.
Proof. unfold normalize_spec. by rewrite length_fmap, length_seqZ. Qed.

Lemma ids_normalize_spec (n : Z) (items : list pyval) :
  vid <$> normalize_spec n items = seqZ 1 n.
Proof.
  unfold normalize_spec. rewrite <- list_fmap_compose.
  rewrite <- (list_fmap_id (seqZ 1 n)) at 2.
  apply list_fmap_ext. intros _ i _. simpl.
  unfold spec_verdict. by destruct (first_entry items i).
Qed.

Lemma lookup_normalize_spec (n : Z) (items : list pyval) (i : Z) :
  1 <= i <= n ->
  normalize_spec n items !! Z.to_nat (i - 1) = Some (spec_verdict items i).
Proof.
  intros Hi. unfold normalize_spec. rewrite list_lookup_fmap.
  rewrite lookup_seqZ_lt by lia. simpl. do 2 f_equal. lia.
Qed.

Lemma elem_of_normalize_spec (n : Z) (items : list pyval) (v : verdict) :
  v ∈ normalize_spec n items <->
  1 <= vid v <= n /\ v = spec_verdict items (vid v).
Proof.
  unfold normalize_spec. rewrite list_elem_of_fmap. split.
  - intros (i & -> & Hi). apply elem_of_seqZ in Hi.
    assert (vid (spec_verdict items i) = i) as ->
      by (unfold spec_verdict; by destruct (first_entry items i)).
    split; [lia | done].
  - intros [Hr Hv]. exists (vid v). split; [done |].
    apply elem_of_seqZ. lia.
Qed.

(** C2. A non-empty result of the normalizer comes from a reply object
    whose ["filtering"] key holds a list; it has exactly [n] entries,
    their ids are [1, .., n] in ascending order (each once, none
    missing), and the entry of id [i] is the verdict of the first entry
    of the reply whose id converts to [i] (later duplicates, entries
    whose id does not convert or lies outside [1..n] never show), or
    the default verdict when there is no such entry. *)
Theorem normalize_total (data : pyval) (n : Z) (out : list verdict) :
  _normalize_filtering_result data n = inr out -> out <> [] ->
  exists d items,
    data = PDict d /\ dict_get d key_filtering = Some (PList items)
    /\ length out = Z.to_nat n
    /\ vid <$> out = seqZ 1 n
    /\ forall i, 1 <= i <= n ->
         out !! Z.to_nat (i - 1)
         = Some match find (fun item => bool_decide (entry_id item = Some i))
                        items with
                | Some item => entry_verdict i item
                | None => mkVerdict i false missing_reason
                end.
Proof.
  intros Hres Hne.
  destruct (normalize_inv data n out Hres Hne) as (d & items & -> & Hget & ->).
  exists d, items. split_and!; [done | done | | |].
  - apply length_normalize_spec.
  - apply ids_normalize_spec.
  - intros i Hi. by rewrite lookup_normalize_spec.
Qed.

End NormalizerProperties.

(** A reply with a duplicated id, an id out of range, an entry that is
    not an object and a padded reason, for a batch of three. *)
Definition sample_reply : pyval :=
  PDict [(U "filtering",
    PList [PDict [(U "id", PInt 2); (U "retain", PBool true);
                  (U "exclude_reason", PStr (U "x"))];
           PDict [(U "id", PInt 2); (U "retain", PBool false);
                  (U "exclude_reason", PStr (U "dup"))];
           PDict [(U "id", PInt 5); (U "retain", PBool true)];
           PInt 3;
           PDict [(U "id", PInt 1); (U "retain", PBool false);
                  (U "exclude_reason", PStr (U " why "))]])].

Definition sample_verdicts : list Module2.verdict :=
  [Module2.mkVerdict 1 false (U "why");
   Module2.mkVerdict 2 true [];
   Module2.mkVerdict 3 false Module2.missing_reason].

Lemma normalize_total_witness :
  Module2._normalize_filtering_result (H := no_builtins) sample_reply 3
  = inr sample_verdicts
  /\ length sample_verdicts = 3%nat
  /\ Module2.vid <$> sample_verdicts = [1; 2; 3].
Proof.
  assert (Hres : Module2._normalize_filtering_result (H := no_builtins)
                   sample_reply 3 = inr sample_verdicts)
    by (vm_compute; reflexivity).
  split; [exact Hres |].
  destruct (normalize_total (H := no_builtins) sample_reply 3 sample_verdicts
              Hres ltac:(discriminate))
    as (d & items & _ & _ & Hlen & Hids & _).
  split; [exact Hlen | exact Hids].
Defined.

(** ** Slices and index ranges *)

Section Slices.
Context {A : Type}.

Lemma length_slice (l : list A) (a b : Z) :
  0 <= a -> 0 <= b ->
  Z.of_nat (length (slice l a b))
  = Z.max 0 (Z.min b (Z.of_nat (length l)) - Z.min a (Z.of_nat (length l))).
Proof.
  intros Ha Hb. unfold slice, slice_bound.
  destruct (a <? 0) eqn:Ea; [lia |]. destruct (b <? 0) eqn:Eb; [lia |].
  rewrite length_take, length_drop. lia.
Qed.

Lemma lookup_slice (l : list A) (a b : Z) (i : nat) :
  0 <= a -> 0 <= b -> (i < length (slice l a b))%nat ->
  slice l a b !! i = l !! (Z.to_nat a + i)%nat.
Proof.
  intros Ha Hb Hi. pose proof (length_slice l a b Ha Hb) as Hlen.
  unfold slice, slice_bound in *.
  destruct (a <? 0) eqn:Ea; [lia |]. destruct (b <? 0) eqn:Eb; [lia |].
  rewrite lookup_take_lt by lia. rewrite lookup_drop. f_equal. lia.
Qed.

Lemma index_range (a m i : Z) :
  0 <= i < m -> index (range a (a + m)) i = Some (a + i).
Proof.
  intros Hi. unfold index, range.
  destruct (i <? 0) eqn:Ei; [lia |].
  rewrite lookup_seqZ_lt by lia. f_equal. lia.
Qed.

End Slices.

(** ** The resilient batch filter *)

Section ClassifierProperties.
Import Module2.
Context `{PyBuiltins} {St : Type}.
Variable call : St -> list batch_item -> St * (exn + pyval).
Variable unique_codes : list pystr.
Variable max_retries_each_batch : Z.

(** [n] of [process_range(start_idx, end_idx)]. *)
Definition range_len (start_idx end_idx : Z) : Z :=
  Z.of_nat (length (slice unique_codes start_idx end_idx)).

(** The state after an oracle call. *)
Definition after_call (o : St) (s : pstate St) : pstate St :=
  mkState o (S (calls s)) (id2retain s) (id2reason s).

(** The writes of a successful attempt on the range that starts at
    [start_idx]: the verdict of local id [i] goes to the global id
    [start_idx + i]. *)
Definition record_all (start_idx : Z) (filtering : list verdict)
    (s : pstate St) : pstate St :=
  fold_left
    (fun s v =>
       set_verdict (start_idx + vid v) (retain v) (strip (exclude_reason v)) s)
    filtering s.

Lemma record_verdicts_range (start_idx m : Z) (filtering : list verdict)
    (s : pstate St) :
  (forall v, v ∈ filtering -> 1 <= vid v <= m) ->
  record_verdicts (range (start_idx + 1) (start_idx + 1 + m)) filtering s
  = (record_all start_idx filtering s, None).
Proof.
  revert s. induction filtering as [|v f IH]; intros s Hids; [done |].
  assert (1 <= vid v <= m) by (apply Hids; left).
  cbn [record_verdicts]. rewrite index_range by lia.
  replace (start_idx + 1 + (vid v - 1)) with (start_idx + vid v) by lia.
  rewrite IH; [done |]. intros w Hw. apply Hids. by right.
Qed.

Lemma record_all_snoc (start_idx : Z) (f : list verdict) (v : verdict)
    (s : pstate St) :
  record_all start_idx (f ++ [v]) s
  = set_verdict (start_idx + vid v) (retain v) (strip (exclude_reason v))
      (record_all start_idx f s).
Proof. unfold record_all. by rewrite fold_left_app. Qed.

Lemma record_all_oracle (start_idx : Z) (f : list verdict) (s : pstate St) :
  oracle (record_all start_idx f s) = oracle s
  /\ calls (record_all start_idx f s) = calls s.
Proof.
  revert s. induction f as [|v f IH]; intros s; [done |].
  simpl. destruct (IH (set_verdict (start_idx + vid v) (retain v)
                         (strip (exclude_reason v)) s)) as [-> ->]. done.
Qed.

(** Reading the dictionaries after the verdicts [g 1, .., g k] were
    recorded. *)
Lemma record_all_lookup (g : Z -> verdict) (start_idx : Z) (k : nat)
    (s : pstate St) (gid : Z) :
  (forall i, vid (g i) = i) ->
  let s' := record_all start_idx (g <$> seqZ 1 (Z.of_nat k)) s in
  id2retain s' !! gid
  = (if decide (start_idx + 1 <= gid <= start_idx + Z.of_nat k)
     then Some (retain (g (gid - start_idx)))
     else id2retain s !! gid)
  /\ id2reason s' !! gid
     = (if decide (start_idx + 1 <= gid <= start_idx + Z.of_nat k)
        then Some (strip (exclude_reason (g (gid - start_idx))))
        else id2reason s !! gid).
Proof.
  intros Hg. induction k as [|k [IHr IHs]].
  - simpl. case_decide; [lia | done].
  - cbn zeta in *. rewrite seqZ_S, fmap_app. cbn [fmap list_fmap].
    rewrite record_all_snoc. cbn [set_verdict id2retain id2reason].
    rewrite Hg.
    destruct (decide (gid = start_idx + (1 + Z.of_nat k))) as [-> | Hne].
    + rewrite !lookup_insert_eq. rewrite !decide_True by lia.
      by replace (start_idx + (1 + Z.of_nat k) - start_idx)
        with (1 + Z.of_nat k) by lia.
    + rewrite !lookup_insert_ne by done. rewrite IHr, IHs.
      split; repeat case_decide; try lia; done.
Qed.

(** [attempt] with the bounds check of [global_ids[bid - 1]] resolved:
    the ids of a normalized list always lie in the range. *)
Definition attempt_spec (batch_items : list batch_item) (start_idx n : Z)
    (s : pstate St) : pstate St * option exn :=
  let '(o, r) := call (oracle s) batch_items in
  match r with
  | inl e => (after_call o s, Some e)
  | inr data =>
    match _normalize_filtering_result data n with
    | inl e => (after_call o s, Some e)
    | inr [] => (after_call o s, Some no_filtering)
    | inr filtering => (record_all start_idx filtering (after_call o s), None)
    end
  end.

Lemma attempt_eq (batch_items : list batch_item) (start_idx m n : Z)
    (s : pstate St) :
  n <= m ->
  attempt call batch_items (range (start_idx + 1) (start_idx + 1 + m)) n s
  = attempt_spec batch_items start_idx n s.
Proof.
  intros Hnm. unfold attempt, attempt_spec, after_call.
  destruct (call (oracle s) batch_items) as [o [e | data]]; [done |].
  destruct (_normalize_filtering_result data n) as [e | filtering] eqn:Hn;
    [done |].
  destruct filtering as [|v f]; [done |].
  destruct (normalize_inv data n (v :: f) Hn ltac:(done))
    as (d & items & _ & _ & Hspec).
  apply record_verdicts_range. intros w Hw. rewrite Hspec in Hw.
  apply elem_of_normalize_spec in Hw as [? _]. lia.
Qed.

(** A failed attempt leaves the dictionaries alone; a successful one
    records a complete normalized list. *)
Lemma attempt_spec_inv (batch_items : list batch_item) (start_idx n : Z)
    (s s' : pstate St) (r : option exn) :
  attempt_spec batch_items start_idx n s = (s', r) ->
  match r with
  | Some _ => s' = after_call (call (oracle s) batch_items).1 s
  | None =>
    exists d items,
      (call (oracle s) batch_items).2 = inr (PDict d)
      /\ dict_get d key_filtering = Some (PList items)
      /\ 1 <= n
      /\ s' = record_all start_idx (normalize_spec n items)
                (after_call (call (oracle s) batch_items).1 s)
  end.
Proof.
  unfold attempt_spec.
  destruct (call (oracle s) batch_items) as [o [e | data]]; simpl.
  - by intros [= <- <-].
  - destruct (_normalize_filtering_result data n) as [e | filtering] eqn:Hn.
    + by intros [= <- <-].
    + destruct filtering as [|v f]; [by intros [= <- <-] |].
      intros [= <- <-].
      destruct (normalize_inv data n (v :: f) Hn ltac:(done))
        as (d & items & -> & Hget & Hspec).
      exists d, items. split_and!; [done | done | | by rewrite <- Hspec].
      pose proof (length_normalize_spec n items) as Hlen.
      rewrite <- Hspec in Hlen. simpl in Hlen. lia.
Qed.

(** The retry loop over [attempt_spec]. *)
Fixpoint attempts_spec (k : nat) (batch_items : list batch_item)
    (start_idx n : Z) (last_err : option exn) (s : pstate St)
    : attempts_result St :=
  match k with
  | O => Exhausted s last_err
  | S k' =>
    match attempt_spec batch_items start_idx n s with
    | (s', None) => Done s'
    | (s', Some e) => attempts_spec k' batch_items start_idx n (Some e) s'
    end
  end.

Lemma attempts_eq (k : nat) (batch_items : list batch_item)
    (start_idx m n : Z) (last_err : option exn) (s : pstate St) :
  n <= m ->
  attempts call k batch_items (range (start_idx + 1) (start_idx + 1 + m))
    n last_err s
  = attempts_spec k batch_items start_idx n last_err s.
Proof.
  intros Hnm. revert last_err s. induction k as [|k IH]; intros last_err s;
    [done |].
  cbn [attempts attempts_spec]. rewrite attempt_eq by done.
  destruct (attempt_spec batch_items start_idx n s) as [s' [e|]]; [| done].
  apply IH.
Qed.

(** The two dictionaries are the same in both states. *)
Definition same_dicts (s s' : pstate St) : Prop :=
  id2retain s' = id2retain s /\ id2reason s' = id2reason s.

(** When the attempts run out, every attempt failed: nothing was
    written, and each attempt made one call. *)
Lemma attempts_spec_Exhausted (k : nat) (batch_items : list batch_item)
    (start_idx n : Z) (last_err e : option exn) (s s' : pstate St) :
  attempts_spec k batch_items start_idx n last_err s = Exhausted s' e ->
  same_dicts s s' /\ calls s' = (calls s + k)%nat.
Proof.
  revert last_err s. induction k as [|k IH]; intros last_err s Hrun.
  - injection Hrun as <- <-. split; [done | simpl; lia].
  - cbn [attempts_spec] in Hrun.
    destruct (attempt_spec batch_items start_idx n s) as [s1 [e1|]] eqn:Hat;
      [| done].
    apply attempt_spec_inv in Hat. subst s1.
    apply IH in Hrun as [[Hr Hs] Hc]. simpl in *.
    split; [done | lia].
Qed.

(** When the loop returns, some attempt, reached without a write,
    obtained a reply with a list under ["filtering"] and recorded its
    normalized form. *)
Lemma attempts_spec_Done (k : nat) (batch_items : list batch_item)
    (start_idx n : Z) (last_err : option exn) (s s' : pstate St) :
  attempts_spec k batch_items start_idx n last_err s = Done s' ->
  exists s0 d items,
    same_dicts s s0 /\ (calls s <= calls s0 < calls s + k)%nat
    /\ (call (oracle s0) batch_items).2 = inr (PDict d)
    /\ dict_get d key_filtering = Some (PList items)
    /\ 1 <= n
    /\ s' = record_all start_idx (normalize_spec n items)
              (after_call (call (oracle s0) batch_items).1 s0).
Proof.
  revert last_err s. induction k as [|k IH]; intros last_err s Hrun;
    [done |].
  cbn [attempts_spec] in Hrun.
  destruct (attempt_spec batch_items start_idx n s) as [s1 [e1|]] eqn:Hat.
  - apply attempt_spec_inv in Hat. subst s1.
    apply IH in Hrun as (s0 & d & items & [Hr Hs] & Hc & Hrest).
    exists s0, d, items. simpl in *.
    split; [by split |]. split; [lia | exact Hrest].
  - injection Hrun as <-. apply attempt_spec_inv in Hat
      as (d & items & Hcall & Hget & Hn & ->).
    exists s, d, items. split; [by split |]. split; [lia | done].
Qed.

(** *** Big-step reading of [process_range] *)

(** The retry loop as [process_range(a, b)] runs it. *)
Definition run_attempts (a b : Z) (s : pstate St) : attempts_result St :=
  attempts call (Z.to_nat max_retries_each_batch)
    (make_batch_items (slice unique_codes a b))
    (range (a + 1) (b + 1)) (range_len a b) None s.

(** [bisects a b s s']: [process_range(a, b)] started in [s] returns
    in [s']. *)
Inductive bisects : Z -> Z -> pstate St -> pstate St -> Prop :=
| bisects_empty a b s :
    range_len a b = 0 -> bisects a b s s
| bisects_done a b s s' :
    range_len a b <> 0 -> run_attempts a b s = Done s' -> bisects a b s s'
| bisects_single a b s s1 e :
    range_len a b = 1 -> run_attempts a b s = Exhausted s1 e ->
    bisects a b s
      (set_verdict (a + 1) false (single_failure_prefix ++ repr_last_err e) s1)
| bisects_split a b s s1 e s2 s3 :
    1 < range_len a b -> run_attempts a b s = Exhausted s1 e ->
    bisects a (a + range_len a b / 2) s1 s2 ->
    bisects (a + range_len a b / 2) b s2 s3 ->
    bisects a b s s3.

Lemma range_len_eq (a b : Z) :
  0 <= a <= b ->
  range_len a b
  = Z.max 0 (Z.min b (Z.of_nat (length unique_codes))
             - Z.min a (Z.of_nat (length unique_codes))).
Proof. intros Hab. unfold range_len. apply length_slice; lia. Qed.

(** Both halves of a range of [n >= 2] codes are shorter than [n]. *)
Lemma range_len_halves (a b : Z) :
  0 <= a <= b -> 1 < range_len a b ->
  let mid := a + range_len a b / 2 in
  a <= mid <= b
  /\ range_len a mid = range_len a b / 2
  /\ range_len mid b = range_len a b - range_len a b / 2
  /\ 0 < range_len a mid < range_len a b
  /\ 0 < range_len mid b < range_len a b.
Proof.
  intros Hab Hn mid. subst mid.
  pose proof (range_len_eq a b Hab) as Hlen.
  set (n := range_len a b) in *.
  assert (Hdiv : 0 < n / 2 < n) by (split; [apply Z.div_str_pos | apply Z.div_lt]; lia).
  assert (Hm : a <= a + n / 2 <= b) by lia.
  rewrite (range_len_eq a (a + n / 2)) by lia.
  rewrite (range_len_eq (a + n / 2) b) by lia.
  lia.
Qed.

(** Termination: on a range with [0 <= a <= b] the recursion ends, at
    a depth that does not exceed the number of codes in the range. *)
Lemma process_range_fuel_total (k : nat) (a b : Z) (s : pstate St) :
  0 <= a <= b -> range_len a b <= Z.of_nat k ->
  exists s', bisects a b s s'
    /\ forall fuel, (k < fuel)%nat ->
         process_range_fuel call unique_codes max_retries_each_batch
           fuel a b s = Some (inr s').
Proof.
  revert a b s. induction k as [|k IH]; intros a b s Hab Hk.
  - assert (Hz : range_len a b = 0) by (unfold range_len in *; lia).
    exists s. split; [by apply bisects_empty |].
    intros [|fuel] Hf; [lia |]. cbn [process_range_fuel].
    fold (range_len a b). by rewrite Hz.
  - destruct (decide (range_len a b = 0)) as [Hz | Hnz].
    { exists s. split; [by apply bisects_empty |].
      intros [|fuel] Hf; [lia |]. cbn [process_range_fuel].
      fold (range_len a b). by rewrite Hz. }
    assert (Hpos : 0 < range_len a b) by (unfold range_len in *; lia).
    destruct (run_attempts a b s) as [s1 | s1 e] eqn:Hrun.
    { exists s1. split; [by apply bisects_done |].
      intros [|fuel] Hf; [lia |]. cbn [process_range_fuel].
      fold (range_len a b). fold (run_attempts a b s).
      rewrite Hrun. by destruct (range_len a b =? 0) eqn:E; [lia |]. }
    destruct (decide (range_len a b = 1)) as [Hone | Hmany].
    { eexists. split; [by eapply bisects_single |].
      intros [|fuel] Hf; [lia |]. cbn [process_range_fuel].
      fold (range_len a b). fold (run_attempts a b s). rewrite Hrun, Hone.
      cbn [Z.eqb Pos.eqb].
      assert (Hlt : a < b).
      { rewrite range_len_eq in Hone by done. lia. }
      replace (b + 1) with (a + 1 + (b - a)) by lia.
      rewrite index_range by lia.
      by replace (a + 1 + 0) with (a + 1) by lia. }
    assert (Hn : 1 < range_len a b) by lia.
    destruct (range_len_halves a b Hab Hn) as (Hm & Hl & Hr & Hll & Hrr).
    destruct (IH a (a + range_len a b / 2) s1) as (s2 & Hb2 & Hf2);
      [lia | lia |].
    destruct (IH (a + range_len a b / 2) b s2) as (s3 & Hb3 & Hf3);
      [lia | lia |].
    exists s3. split; [by eapply bisects_split |].
    intros [|fuel] Hf; [lia |]. cbn [process_range_fuel].
    fold (range_len a b). fold (run_attempts a b s). rewrite Hrun.
    destruct (range_len a b =? 0) eqn:E0; [lia |].
    destruct (range_len a b =? 1) eqn:E1; [lia |].
    rewrite Hf2 by lia. apply Hf3. lia.
Qed.

(** *** What a run of [process_range] writes *)

Lemma range_len_le (a b : Z) : 0 <= a <= b -> 0 <= range_len a b <= b - a.
Proof. intros Hab. rewrite range_len_eq by done. lia. Qed.

Lemma run_attempts_eq (a b : Z) (s : pstate St) :
  0 <= a <= b ->
  run_attempts a b s
  = attempts_spec (Z.to_nat max_retries_each_batch)
      (make_batch_items (slice unique_codes a b)) a (range_len a b) None s.
Proof.
  intros Hab. unfold run_attempts.
  replace (b + 1) with (a + 1 + (b - a)) by lia.
  apply attempts_eq. by apply range_len_le.
Qed.

Lemma record_spec_lookup (a n : Z) (items : list pyval) (s : pstate St)
    (gid : Z) :
  0 <= n ->
  let s' := record_all a (normalize_spec n items) s in
  id2retain s' !! gid
  = (if decide (a + 1 <= gid <= a + n)
     then Some (retain (spec_verdict items (gid - a)))
     else id2retain s !! gid)
  /\ id2reason s' !! gid
     = (if decide (a + 1 <= gid <= a + n)
        then Some (strip (exclude_reason (spec_verdict items (gid - a))))
        else id2reason s !! gid).
Proof.
  intros Hn. unfold normalize_spec.
  pose proof (record_all_lookup (spec_verdict items) a (Z.to_nat n) s gid)
    as Hl.
  rewrite Z2Nat.id in Hl by done. apply Hl.
  intros i. unfold spec_verdict. by destruct (first_entry items i).
Qed.

(** A recorded verdict that retains carries the empty reason. *)
Lemma spec_verdict_retained (items : list pyval) (i : Z) :
  retain (spec_verdict items i) = true ->
  exclude_reason (spec_verdict items i) = [].
Proof.
  unfold spec_verdict. destruct (first_entry items i); [| done].
  unfold entry_verdict. simpl.
  by destruct (py_bool (entry_get p key_retain PNone)).
Qed.

(** Keys: a run over [a, b) adds exactly the global ids of the codes
    in the range to both dictionaries. *)
Lemma bisects_keys (a b : Z) (s s' : pstate St) :
  bisects a b s s' -> 0 <= a <= b ->
  forall gid,
    (is_Some (id2retain s' !! gid)
     <-> is_Some (id2retain s !! gid) \/ a < gid <= a + range_len a b)
    /\ (is_Some (id2reason s' !! gid)
        <-> is_Some (id2reason s !! gid) \/ a < gid <= a + range_len a b).
Proof.
  induction 1 as [a b s Hz | a b s s' Hnz Hrun | a b s s1 e Hone Hrun
                 | a b s s1 e s2 s3 Hn Hrun _ IH1 _ IH2];
    intros Hab gid.
  - rewrite Hz. split; (split; [by left | intros [? | ?]; [done | lia]]).
  - rewrite run_attempts_eq in Hrun by done.
    apply attempts_spec_Done in Hrun
      as (s0 & d & items & [Hr Hs] & _ & _ & _ & Hn & ->).
    destruct (record_spec_lookup a (range_len a b) items
                (after_call (call (oracle s0)
                   (make_batch_items (slice unique_codes a b))).1 s0) gid)
      as [-> ->]; [lia |].
    simpl. rewrite Hr, Hs.
    case_decide; split; (split; [try (intros _; right; lia); by left |]);
      try done; (intros [? | ?]; [done | lia]).
  - rewrite run_attempts_eq in Hrun by done.
    apply attempts_spec_Exhausted in Hrun as [[Hr Hs] _].
    simpl. rewrite Hone, <- Hr, <- Hs.
    destruct (decide (gid = a + 1)) as [-> | Hne].
    + rewrite !lookup_insert_eq. split; (split; [intros _; right; lia | done]).
    + rewrite !lookup_insert_ne by done.
      split; (split; [by left | intros [? | ?]; [done | lia]]).
  - rewrite run_attempts_eq in Hrun by done.
    apply attempts_spec_Exhausted in Hrun as [[Hr Hs] _].
    destruct (range_len_halves a b Hab Hn) as (Hm & Hl & Hrr & Hl' & _).
    destruct (IH1 ltac:(lia) gid) as [I1r I1s].
    destruct (IH2 ltac:(lia) gid) as [I2r I2s].
    rewrite Hl in Hl'.
    rewrite I2r, I1r, I2s, I1s, Hr, Hs, Hl, Hrr. split; split; intros Hc.
    + destruct Hc as [[? | ?] | ?]; [by left | right; lia | right; lia].
    + destruct Hc as [? | ?]; [by left; left |].
      destruct (decide (gid <= a + range_len a b / 2));
        [left; right; lia | right; lia].
    + destruct Hc as [[? | ?] | ?]; [by left | right; lia | right; lia].
    + destruct Hc as [? | ?]; [by left; left |].
      destruct (decide (gid <= a + range_len a b / 2));
        [left; right; lia | right; lia].
Qed.

(** Calls: a run over a range of [n >= 1] codes makes at most
    [max_retries_each_batch * (2 n - 1)] calls, [2 n - 1] being the
    number of nodes of the full bisection tree over [n] leaves. *)
Lemma bisects_calls (a b : Z) (s s' : pstate St) :
  bisects a b s s' -> 0 <= a <= b ->
  Z.of_nat (calls s) <= Z.of_nat (calls s')
  /\ Z.of_nat (calls s')
     <= Z.of_nat (calls s)
        + Z.max 0 max_retries_each_batch * Z.max 0 (2 * range_len a b - 1).
Proof.
  induction 1 as [a b s Hz | a b s s' Hnz Hrun | a b s s1 e Hone Hrun
                 | a b s s1 e s2 s3 Hn Hrun _ IH1 _ IH2];
    intros Hab.
  - nia.
  - rewrite run_attempts_eq in Hrun by done.
    apply attempts_spec_Done in Hrun
      as (s0 & d & items & _ & Hc & _ & _ & Hn & ->).
    destruct (record_all_oracle a (normalize_spec (range_len a b) items)
                (after_call (call (oracle s0)
                   (make_batch_items (slice unique_codes a b))).1 s0))
      as [_ ->].
    simpl. nia.
  - rewrite run_attempts_eq in Hrun by done.
    apply attempts_spec_Exhausted in Hrun as [_ Hc].
    simpl. rewrite Hone. nia.
  - rewrite run_attempts_eq in Hrun by done.
    apply attempts_spec_Exhausted in Hrun as [_ Hc].
    destruct (range_len_halves a b Hab Hn) as (Hm & Hl & Hrr & Hl' & Hr').
    specialize (IH1 ltac:(lia)). specialize (IH2 ltac:(lia)).
    rewrite Hl in IH1. rewrite Hrr in IH2.
    set (n := range_len a b) in *. set (h := n / 2) in *.
    nia.
Qed.

(** The reason invariant of the stage: a retained id has the empty
    reason. *)
Definition retained_clean (s : pstate St) : Prop :=
  forall gid, id2retain s !! gid = Some true -> id2reason s !! gid = Some [].

Lemma bisects_retained_clean (a b : Z) (s s' : pstate St) :
  bisects a b s s' -> 0 <= a <= b -> retained_clean s -> retained_clean s'.
Proof.
  induction 1 as [a b s Hz | a b s s' Hnz Hrun | a b s s1 e Hone Hrun
                 | a b s s1 e s2 s3 Hn Hrun _ IH1 _ IH2];
    intros Hab Hinv.
  - done.
  - rewrite run_attempts_eq in Hrun by done.
    apply attempts_spec_Done in Hrun
      as (s0 & d & items & [Hr Hs] & _ & _ & _ & Hn & ->).
    intros gid.
    destruct (record_spec_lookup a (range_len a b) items
                (after_call (call (oracle s0)
                   (make_batch_items (slice unique_codes a b))).1 s0) gid)
      as [-> ->]; [lia |].
    case_decide.
    + intros [= Ht]. by rewrite (spec_verdict_retained _ _ Ht).
    + simpl. rewrite Hr, Hs. apply Hinv.
  - rewrite run_attempts_eq in Hrun by done.
    apply attempts_spec_Exhausted in Hrun as [[Hr Hs] _].
    intros gid. simpl. rewrite Hr, Hs.
    destruct (decide (gid = a + 1)) as [-> | Hne].
    + by rewrite lookup_insert_eq.
    + rewrite !lookup_insert_ne by done. apply Hinv.
  - rewrite run_attempts_eq in Hrun by done.
    apply attempts_spec_Exhausted in Hrun as [[Hr Hs] _].
    destruct (range_len_halves a b Hab Hn) as (Hm & _).
    apply IH2; [lia |]. apply IH1; [lia |].
    intros gid. rewrite Hr, Hs. apply Hinv.
Qed.

(** *** Termination and the number of oracle calls *)

Lemma range_len_bound (a b : Z) :
  0 <= a <= b -> range_len a b <= Z.of_nat (length unique_codes).
Proof. intros Hab. rewrite range_len_eq by done. lia. Qed.

Lemma process_range_bisects (a b : Z) (s : pstate St) :
  0 <= a <= b ->
  exists s', bisects a b s s'
    /\ process_range call unique_codes max_retries_each_batch a b s
       = Some (inr s')
    /\ forall fuel, (length unique_codes < fuel)%nat ->
         process_range_fuel call unique_codes max_retries_each_batch
           fuel a b s = Some (inr s').
Proof.
  intros Hab.
  destruct (process_range_fuel_total (length unique_codes) a b s Hab
              (range_len_bound a b Hab)) as (s' & Hb & Hf).
  exists s'. split_and!; [done | apply Hf; lia | done].
Qed.

(** C4. For [0 <= start <= end], [process_range] returns, whatever the
    oracle answers: every fuel above the number of codes gives the same
    final state.  When all attempts fail on [n > 1] codes the two halves
    [start, start + n // 2) and [start + n // 2, end) are non-empty and
    strictly shorter than [n].  The run makes at most
    [max_retries_each_batch * (2 n - 1)] oracle calls, [2 n - 1] being
    the number of nodes of the bisection tree over [n] codes. *)
Theorem process_range_terminates (start_idx end_idx : Z) (s : pstate St) :
  0 <= start_idx <= end_idx ->
  let n := range_len start_idx end_idx in
  (exists s',
      process_range call unique_codes max_retries_each_batch
        start_idx end_idx s = Some (inr s')
      /\ (forall fuel, (length unique_codes < fuel)%nat ->
            process_range_fuel call unique_codes max_retries_each_batch
              fuel start_idx end_idx s = Some (inr s'))
      /\ Z.of_nat (calls s') - Z.of_nat (calls s)
         <= Z.max 0 max_retries_each_batch * Z.max 0 (2 * n - 1))
  /\ (1 < n ->
      0 < range_len start_idx (start_idx + n / 2) < n
      /\ 0 < range_len (start_idx + n / 2) end_idx < n).
Proof.
  intros Hab n. split.
  - destruct (process_range_bisects start_idx end_idx s Hab)
      as (s' & Hb & Hp & Hf).
    exists s'. split_and!; [done | done |].
    destruct (bisects_calls _ _ _ _ Hb Hab) as [_ Hc]. fold n in Hc. lia.
  - intros Hn. by destruct (range_len_halves _ _ Hab Hn) as (_ & _ & _ & ? & ?).
Qed.

(** *** Completeness of the batch filter *)

(** Keys present after the top-level batches [j, .., j + c - 1]. *)
Lemma process_batches_keys (c j : nat) (batch_size : Z) (s : pstate St) :
  1 <= batch_size ->
  let total := Z.of_nat (length unique_codes) in
  (forall k, (j <= k < j + c)%nat -> Z.of_nat k * batch_size < total) ->
  exists s',
    process_batches call unique_codes max_retries_each_batch
      (map (fun k => Z.of_nat k * batch_size) (seq j c)) batch_size total s
    = Some (inr s')
    /\ (retained_clean s -> retained_clean s')
    /\ forall gid,
         let covered :=
           Z.of_nat j * batch_size < gid
           <= Z.min (Z.of_nat (j + c) * batch_size) total in
         (is_Some (id2retain s' !! gid)
          <-> is_Some (id2retain s !! gid) \/ covered)
         /\ (is_Some (id2reason s' !! gid)
             <-> is_Some (id2reason s !! gid) \/ covered).
Proof.
  intros HB total. revert j s. induction c as [|c IH]; intros j s Hstarts.
  - exists s. split; [done |]. split; [done |]. intros gid. cbn zeta.
    replace (j + 0)%nat with j by lia.
    split; (split; [by left | intros [? | ?]; [done | lia]]).
  - cbn [seq map process_batches].
    assert (Ha : Z.of_nat j * batch_size < total) by (apply Hstarts; lia).
    set (a := Z.of_nat j * batch_size) in *.
    set (b := Z.min (a + batch_size) total).
    assert (Hab : 0 <= a <= b) by (subst a b; nia).
    destruct (process_range_bisects a b s Hab) as (s1 & Hb & Hp & _).
    rewrite Hp.
    destruct (IH (S j) s1) as (s' & Hrun & Hinv & Hkeys);
      [intros k Hk; apply Hstarts; lia |].
    exists s'. split; [done |]. split.
    { intros Hs. by apply Hinv, (bisects_retained_clean a b s). }
    intros gid. cbn zeta.
    destruct (Hkeys gid) as [Hr Hs]. cbn zeta in Hr, Hs.
    destruct (bisects_keys a b s s1 Hb Hab gid) as [Kr Ks].
    assert (Hlen : range_len a b = b - a).
    { rewrite range_len_eq by done. fold total. subst b. lia. }
    rewrite Hlen in Kr, Ks.
    assert (Hnext : Z.of_nat (S j) * batch_size = a + batch_size)
      by (subst a; nia).
    replace (S j + c)%nat with (j + S c)%nat in Hr, Hs by lia.
    assert (Hend : a + batch_size <= Z.of_nat (j + S c) * batch_size)
      by (subst a; nia).
    rewrite Hnext in Hr, Hs. rewrite Hr, Hs, Kr, Ks.
    subst b. split; split; intros Hc.
    + destruct Hc as [[? | ?] | ?]; [by left | right; lia | right; lia].
    + destruct Hc as [? | ?]; [by left; left |].
      destruct (decide (gid <= a + batch_size)); [left; right; lia | right; lia].
    + destruct Hc as [[? | ?] | ?]; [by left | right; lia | right; lia].
    + destruct Hc as [? | ?]; [by left; left |].
      destruct (decide (gid <= a + batch_size)); [left; right; lia | right; lia].
Qed.

(** C1. For every list of codes, every batch size [B >= 1], every
    retry budget and every oracle (any state type, any reply or
    exception at any call), [filter_unique_codes_with_batching] returns,
    and the key set of the retain dictionary, of the reason dictionary
    and of [id2code] is exactly [{1, .., N}]. *)
Theorem filter_complete (batch_size : Z) (o : St) :
  1 <= batch_size ->
  exists s,
    filter_unique_codes_with_batching call unique_codes
      max_retries_each_batch batch_size o
    = Some (inr (s, id2code unique_codes))
    /\ dom (id2retain s)
       = list_to_set (seqZ 1 (Z.of_nat (length unique_codes)))
    /\ dom (id2reason s)
       = list_to_set (seqZ 1 (Z.of_nat (length unique_codes)))
    /\ dom (id2code unique_codes)
       = list_to_set (seqZ 1 (Z.of_nat (length unique_codes))).
Proof.
  intros HB. unfold filter_unique_codes_with_batching, range_step.
  set (total := Z.of_nat (length unique_codes)).
  destruct (batch_size =? 0) eqn:E0; [lia |].
  destruct (batch_size <? 0) eqn:E1; [lia |].
  set (c := Z.to_nat ((total + batch_size - 1) / batch_size)).
  assert (Hq : 0 <= (total + batch_size - 1) / batch_size)
    by (apply Z.div_pos; lia).
  pose proof (Z.mul_div_le (total + batch_size - 1) batch_size ltac:(lia)) as Hlo.
  pose proof (Z.mul_succ_div_gt (total + batch_size - 1) batch_size ltac:(lia))
    as Hhi.
  destruct (process_batches_keys c 0 batch_size (mkState o 0 ∅ ∅) HB)
    as (s & Hrun & _ & Hkeys).
  { intros k Hk. fold total. subst c. nia. }
  fold total in Hrun. rewrite Hrun. exists s. split; [done |].
  assert (Hcover : forall gid,
             0 < gid <= Z.min (Z.of_nat (0 + c) * batch_size) total
             <-> 1 <= gid < 1 + total).
  { intros gid. subst c. simpl. rewrite Z2Nat.id by done. nia. }
  split_and!; apply set_eq; intros gid;
    rewrite elem_of_dom, elem_of_list_to_set, elem_of_seqZ.
  - destruct (Hkeys gid) as [-> _]. simpl. rewrite lookup_empty.
    rewrite <- Hcover. simpl. split; [intros [[? [=]] | ?]; done | by right].
  - destruct (Hkeys gid) as [_ ->]. simpl. rewrite lookup_empty.
    rewrite <- Hcover. simpl. split; [intros [[? [=]] | ?]; done | by right].
  - rewrite id2code_lookup. fold total. case_decide as Hr.
    + split; [lia |]. intros _. apply lookup_lt_is_Some_2. lia.
    + split; [by intros [? [=]] | lia].
Qed.

(** *** A reply without usable entries *)

Lemma normalize_spec_nonempty (n : Z) (items : list pyval) :
  1 <= n -> normalize_spec n items <> [].
Proof.
  intros Hn Hnil. pose proof (length_normalize_spec n items) as Hlen.
  rewrite Hnil in Hlen. simpl in Hlen. lia.
Qed.

(** An entry is unusable for a batch of [n] when its id does not
    convert or lies outside [1..n]. *)
Definition unusable_entry (n : Z) (item : pyval) : Prop :=
  match entry_id item with
  | Some i => i < 1 \/ n < i
  | None => True
  end.

Lemma normalize_spec_unusable (n : Z) (items : list pyval) :
  Forall (unusable_entry n) items ->
  normalize_spec n items = default_verdict <$> seqZ 1 n.
Proof.
  intros Hun. unfold normalize_spec. apply list_fmap_ext.
  intros j i Hi. apply lookup_seqZ in Hi as [-> Hlt].
  unfold spec_verdict, first_entry.
  destruct (find _ items) as [item|] eqn:Hf; [| done].
  apply find_some in Hf as [Hin Hid].
  apply list_elem_of_In in Hin. rewrite Forall_forall in Hun.
  specialize (Hun item Hin). unfold unusable_entry in Hun.
  apply bool_decide_eq_true in Hid. rewrite Hid in Hun. lia.
Qed.

Lemma strip_missing_reason : strip missing_reason = missing_reason.
Proof. vm_compute. reflexivity. Qed.

Lemma missing_reason_nonempty : missing_reason <> [].
Proof. vm_compute. discriminate. Qed.

(** When the first call yields a reply with a list under
    ["filtering"], the first attempt succeeds. *)
Lemma attempts_spec_first_success (k : nat) (batch_items : list batch_item)
    (a n : Z) (last_err : option exn) (s : pstate St)
    (d : list (pystr * pyval)) (items : list pyval) :
  (call (oracle s) batch_items).2 = inr (PDict d) ->
  dict_get d key_filtering = Some (PList items) ->
  1 <= n ->
  attempts_spec (S k) batch_items a n last_err s
  = Done (record_all a (normalize_spec n items)
            (after_call (call (oracle s) batch_items).1 s)).
Proof.
  intros Hcall Hget Hn. cbn [attempts_spec]. unfold attempt_spec.
  destruct (call (oracle s) batch_items) as [o r]. simpl in *. subst r.
  rewrite (normalize_dict d items n Hget).
  pose proof (normalize_spec_nonempty n items Hn).
  by destruct (normalize_spec n items).
Qed.

(** C10. When the reply to the first attempt is an object whose
    ["filtering"] key holds a list with no usable entry (the empty list
    in particular), the normalizer returns the non-empty list of [n]
    default verdicts, and [process_range] takes it as a success: it
    returns after this single call, without retry or bisection, having
    written [retain = false] and the manual-review reason for every
    code of the range. *)
Theorem empty_filtering_is_success (start_idx end_idx : Z) (s : pstate St)
    (d : list (pystr * pyval)) (items : list pyval) :
  let n := range_len start_idx end_idx in
  let batch_items := make_batch_items (slice unique_codes start_idx end_idx) in
  0 <= start_idx <= end_idx -> 1 <= n ->
  1 <= max_retries_each_batch ->
  (call (oracle s) batch_items).2 = inr (PDict d) ->
  dict_get d key_filtering = Some (PList items) ->
  Forall (unusable_entry n) items ->
  _normalize_filtering_result (PDict d) n
  = inr (default_verdict <$> seqZ 1 n)
  /\ default_verdict <$> seqZ 1 n <> []
  /\ exists s',
       process_range call unique_codes max_retries_each_batch
         start_idx end_idx s = Some (inr s')
       /\ calls s' = S (calls s)
       /\ oracle s' = (call (oracle s) batch_items).1
       /\ forall gid,
            id2retain s' !! gid
            = (if decide (start_idx < gid <= start_idx + n)
               then Some false else id2retain s !! gid)
            /\ id2reason s' !! gid
               = (if decide (start_idx < gid <= start_idx + n)
                  then Some missing_reason else id2reason s !! gid).
Proof.
  intros n batch_items Hab Hn HR Hcall Hget Hun.
  pose proof (normalize_spec_unusable n items Hun) as Hspec.
  split; [by rewrite (normalize_dict d items n Hget), Hspec |].
  split; [rewrite <- Hspec; by apply normalize_spec_nonempty |].
  set (s' := record_all start_idx (normalize_spec n items)
               (after_call (call (oracle s) batch_items).1 s)).
  assert (Hrun : run_attempts start_idx end_idx s = Done s').
  { rewrite run_attempts_eq by done.
    destruct (Z.to_nat max_retries_each_batch) as [|k] eqn:Hk; [lia |].
    by apply (attempts_spec_first_success _ _ _ _ _ _ d items). }
  exists s'. split_and!.
  - unfold process_range. cbn [process_range_fuel].
    fold (range_len start_idx end_idx). fold (run_attempts start_idx end_idx s).
    fold n. rewrite Hrun. by destruct (n =? 0) eqn:E; [lia |].
  - subst s'. by destruct (record_all_oracle start_idx (normalize_spec n items)
      (after_call (call (oracle s) batch_items).1 s)) as [_ ->].
  - subst s'. by destruct (record_all_oracle start_idx (normalize_spec n items)
      (after_call (call (oracle s) batch_items).1 s)) as [-> _].
  - intros gid. subst s'.
    destruct (record_spec_lookup start_idx n items
                (after_call (call (oracle s) batch_items).1 s) gid)
      as [-> ->]; [lia |].
    simpl. repeat case_decide; try lia; [| done].
    assert (Hv : spec_verdict items (gid - start_idx)
                 = default_verdict (gid - start_idx)).
    { pose proof (lookup_normalize_spec n items (gid - start_idx)
                    ltac:(lia)) as Hl.
      rewrite Hspec, list_lookup_fmap, lookup_seqZ_lt in Hl by lia.
      simpl in Hl. injection Hl as Hl. rewrite <- Hl. f_equal. lia. }
    rewrite Hv. simpl. by rewrite strip_missing_reason.
Qed.

(** *** The reason carried by a verdict *)

(** In the dictionaries the stage returns, a retained id has the empty
    reason. *)
Lemma filter_retained_clean (batch_size : Z) (o : St) (s : pstate St)
    (m : gmap Z pystr) :
  filter_unique_codes_with_batching call unique_codes
    max_retries_each_batch batch_size o = Some (inr (s, m)) ->
  retained_clean s.
Proof.
  unfold filter_unique_codes_with_batching, range_step.
  set (total := Z.of_nat (length unique_codes)).
  assert (Hinit : retained_clean (mkState o 0 ∅ ∅)).
  { intros gid. simpl. by rewrite lookup_empty. }
  destruct (batch_size =? 0) eqn:E0; [done |].
  destruct (batch_size <? 0) eqn:E1.
  - simpl. by intros [= <- _].
  - set (c := Z.to_nat ((total + batch_size - 1) / batch_size)).
    assert (Hq : 0 <= (total + batch_size - 1) / batch_size)
      by (apply Z.div_pos; lia).
    pose proof (Z.mul_div_le (total + batch_size - 1) batch_size
                  ltac:(lia)) as Hlo.
    destruct (process_batches_keys c 0 batch_size (mkState o 0 ∅ ∅)
                ltac:(lia)) as (s' & Hrun & Hclean & _).
    { intros k Hk. fold total. subst c. nia. }
    fold total in Hrun. rewrite Hrun. intros [= <- _]. by apply Hclean.
Qed.

(** C5, as amended. A verdict of the normalizer that retains carries
    the empty reason, so a non-empty reason implies [retain = false];
    the default verdict filled in for an id the model did not return
    has [retain = false] and a non-empty reason; the single-item
    failure default written by [process_range] has [retain = false] and
    a non-empty reason; and in the dictionaries the stage returns every
    retained id has the empty reason.  (A verdict taken from an entry of
    the model with a false [retain] keeps the stripped reason of the
    model, which may be empty.) *)
Theorem filter_verdict_reason :
  (forall data n out v,
      _normalize_filtering_result data n = inr out -> v ∈ out ->
      (retain v = true -> exclude_reason v = [])
      /\ (exclude_reason v <> [] -> retain v = false))
  /\ (forall i,
        retain (default_verdict i) = false
        /\ exclude_reason (default_verdict i) <> [])
  /\ (forall start_idx end_idx s s1 e,
        0 <= start_idx <= end_idx ->
        range_len start_idx end_idx = 1 ->
        run_attempts start_idx end_idx s = Exhausted s1 e ->
        exists s' reason,
          process_range call unique_codes max_retries_each_batch
            start_idx end_idx s = Some (inr s')
          /\ id2retain s' !! (start_idx + 1) = Some false
          /\ id2reason s' !! (start_idx + 1) = Some reason
          /\ reason <> [])
  /\ (forall batch_size o s m gid,
        filter_unique_codes_with_batching call unique_codes
          max_retries_each_batch batch_size o = Some (inr (s, m)) ->
        id2retain s !! gid = Some true -> id2reason s !! gid = Some []).
Proof.
  split_and!; [| | | intros B o s m gid Hrun;
                     apply (filter_retained_clean B o s m Hrun)].
  - intros data n out v Hres Hv.
    assert (Hret : retain v = true -> exclude_reason v = []).
    { destruct (normalize_inv data n out Hres) as (d & items & _ & _ & ->).
      { intros ->. by apply not_elem_of_nil in Hv. }
      apply elem_of_normalize_spec in Hv as [_ ->].
      apply spec_verdict_retained. }
    split; [done |]. intros Hne. destruct (retain v); [by destruct Hne; auto | done].
  - intros i. split; [done | apply missing_reason_nonempty].
  - intros a b s s1 e Hab Hone Hrun.
    destruct (process_range_bisects a b s Hab) as (s' & _ & Hp & _).
    unfold process_range in Hp. cbn [process_range_fuel] in Hp.
    fold (range_len a b) in Hp. fold (run_attempts a b s) in Hp.
    rewrite Hrun, Hone in Hp. cbn [Z.eqb Pos.eqb] in Hp.
    assert (Hlt : a < b) by (rewrite range_len_eq in Hone by done; lia).
    replace (b + 1) with (a + 1 + (b - a)) in Hp by lia.
    rewrite index_range in Hp by lia.
    replace (a + 1 + 0) with (a + 1) in Hp by lia.
    exists s', (single_failure_prefix ++ repr_last_err e).
    split; [by unfold process_range; cbn [process_range_fuel];
            fold (range_len a b); fold (run_attempts a b s);
            rewrite Hrun, Hone; cbn [Z.eqb Pos.eqb];
            replace (b + 1) with (a + 1 + (b - a)) by lia;
            rewrite index_range by lia;
            replace (a + 1 + 0) with (a + 1) by lia |].
    injection Hp as <-. cbn [set_verdict id2retain id2reason].
    rewrite !lookup_insert_eq.
    split_and!; [done | done |].
    intros Hnil. apply app_eq_nil in Hnil as [Hnil _].
    vm_compute in Hnil. discriminate.
Qed.

(** *** Isolation of a poison item *)

Lemma strip_spec_verdict (items : list pyval) (i : Z) :
  strip (exclude_reason (spec_verdict items i))
  = exclude_reason (spec_verdict items i).
Proof.
  unfold spec_verdict. destruct (first_entry items i) as [item|].
  - unfold entry_verdict. cbn [exclude_reason].
    destruct (py_bool (entry_get item key_retain PNone));
      [done | apply strip_idem].
  - apply strip_missing_reason.
Qed.

Section Isolation.
Variable poison : pystr.

(** The verdict the oracle stands for on each code text. *)
Variable model_retain : pystr -> bool.
Variable model_reason : pystr -> pystr.

(** The correct and complete verdict list for the batch [sub]. *)
Definition model_verdicts (sub : list pystr) : list verdict :=
  imap (fun j txt =>
          mkVerdict (Z.of_nat j + 1) (model_retain txt) (model_reason txt))
    sub.

(** An attempt that fails: the call raises, or its reply does not
    normalize to a non-empty list. *)
Definition unusable_reply (n : Z) (r : exn + pyval) : Prop :=
  match r with
  | inl _ => True
  | inr data =>
    match _normalize_filtering_result data n with
    | inr (_ :: _) => False
    | _ => True
    end
  end.

(** The oracle model: at every state of the oracle, a batch with the
    poison item is answered unusably, and a batch without it by a reply
    that normalizes to the model's verdicts. *)
Hypothesis poison_fails :
  forall o sub, poison ∈ sub ->
    unusable_reply (Z.of_nat (length sub)) (call o (make_batch_items sub)).2.
Hypothesis clean_succeeds :
  forall o sub, sub <> [] -> poison ∉ sub ->
    exists data,
      (call o (make_batch_items sub)).2 = inr data
      /\ _normalize_filtering_result data (Z.of_nat (length sub))
         = inr (model_verdicts sub).
Hypothesis at_least_one_attempt : 1 <= max_retries_each_batch.

(** Exactly one code is the poison item, at position [p]. *)
Variable p : nat.
Hypothesis poison_at : unique_codes !! p = Some poison.
Hypothesis poison_once : forall i, unique_codes !! i = Some poison -> i = p.

Lemma model_verdicts_nonempty (sub : list pystr) :
  sub <> [] -> model_verdicts sub <> [].
Proof. by destruct sub. Qed.

(** With the poison item in the batch no attempt succeeds. *)
Lemma poison_never_done (k : nat) (sub : list pystr) (a : Z)
    (last_err : option exn) (s s' : pstate St) :
  poison ∈ sub ->
  attempts_spec k (make_batch_items sub) a (Z.of_nat (length sub)) last_err s
  <> Done s'.
Proof.
  intros Hin Hrun.
  apply attempts_spec_Done in Hrun
    as (s0 & d & items & _ & _ & Hcall & Hget & Hn & _).
  pose proof (poison_fails (oracle s0) sub Hin) as Hbad.
  rewrite Hcall in Hbad. simpl in Hbad.
  rewrite (normalize_dict d items _ Hget) in Hbad.
  pose proof (normalize_spec_nonempty _ items Hn).
  by destruct (normalize_spec (Z.of_nat (length sub)) items).
Qed.

(** What a reply to a batch without the poison item normalizes to. *)
Lemma clean_reply (o : St) (sub : list pystr) (d : list (pystr * pyval))
    (items : list pyval) :
  sub <> [] -> poison ∉ sub ->
  (call o (make_batch_items sub)).2 = inr (PDict d) ->
  dict_get d key_filtering = Some (PList items) ->
  normalize_spec (Z.of_nat (length sub)) items = model_verdicts sub.
Proof.
  intros Hne Hnot Hcall Hget.
  destruct (clean_succeeds o sub Hne Hnot) as (data & Hcall' & Hnorm).
  rewrite Hcall in Hcall'. injection Hcall' as <-.
  rewrite (normalize_dict d items _ Hget) in Hnorm. by injection Hnorm.
Qed.

(** Without the poison item the first attempt succeeds. *)
Lemma clean_not_exhausted (k : nat) (sub : list pystr) (a : Z)
    (last_err e : option exn) (s s' : pstate St) :
  sub <> [] -> poison ∉ sub ->
  attempts_spec (S k) (make_batch_items sub) a (Z.of_nat (length sub))
    last_err s
  <> Exhausted s' e.
Proof.
  intros Hne Hnot Hrun.
  destruct (clean_succeeds (oracle s) sub Hne Hnot) as (data & Hcall & Hnorm).
  destruct (normalize_inv data _ _ Hnorm (model_verdicts_nonempty sub Hne))
    as (d & items & -> & Hget & _).
  rewrite (attempts_spec_first_success k _ a _ last_err s d items Hcall Hget)
    in Hrun; [done |].
  destruct sub; [done | simpl; lia].
Qed.

(** The codes of a range that lies inside the list. *)
Lemma lookup_range_codes (a b : Z) (i : nat) :
  0 <= a <= b -> b <= Z.of_nat (length unique_codes) ->
  a <= Z.of_nat i < b ->
  slice unique_codes a b !! (i - Z.to_nat a)%nat = unique_codes !! i.
Proof.
  intros Hab Hb Hi.
  assert (Hlen : range_len a b = b - a) by (rewrite range_len_eq; lia).
  unfold range_len in Hlen.
  rewrite lookup_slice by lia. f_equal. lia.
Qed.

Lemma poison_in_range (a b : Z) :
  0 <= a <= b -> b <= Z.of_nat (length unique_codes) ->
  poison ∈ slice unique_codes a b <-> a <= Z.of_nat p < b.
Proof.
  intros Hab Hb.
  assert (Hlen : range_len a b = b - a) by (rewrite range_len_eq; lia).
  unfold range_len in Hlen. split.
  - intros [j Hj]%list_elem_of_lookup.
    pose proof (lookup_lt_Some _ _ _ Hj) as Hlt.
    rewrite lookup_slice in Hj by lia.
    apply poison_once in Hj. lia.
  - intros Hp. apply list_elem_of_lookup. exists (p - Z.to_nat a)%nat.
    by rewrite lookup_range_codes.
Qed.

(** The state after a run over [a, b): outside the range nothing
    changed; inside, the poison item has the single-item failure
    default and every other code has the model's verdict. *)
Definition isolated (a b : Z) (s s' : pstate St) : Prop :=
  (forall gid, ~ a < gid <= b ->
     id2retain s' !! gid = id2retain s !! gid
     /\ id2reason s' !! gid = id2reason s !! gid)
  /\ forall (i : nat) (txt : pystr),
       a <= Z.of_nat i < b -> unique_codes !! i = Some txt ->
       if decide (i = p)
       then id2retain s' !! (Z.of_nat i + 1) = Some false
            /\ exists e, id2reason s' !! (Z.of_nat i + 1)
                         = Some (single_failure_prefix ++ repr_last_err e)
       else id2retain s' !! (Z.of_nat i + 1) = Some (model_retain txt)
            /\ id2reason s' !! (Z.of_nat i + 1) = Some (model_reason txt).

Lemma bisects_isolated (a b : Z) (s s' : pstate St) :
  bisects a b s s' ->
  0 <= a <= b -> b <= Z.of_nat (length unique_codes) ->
  isolated a b s s'.
Proof.
  induction 1 as [a b s Hz | a b s s' Hnz Hrun | a b s s1 e Hone Hrun
                 | a b s s1 e s2 s3 Hn Hrun _ IH1 _ IH2];
    intros Hab Hb;
    (assert (Hlen : range_len a b = b - a) by (rewrite range_len_eq; lia)).
  - split; [done |]. intros i txt Hi. lia.
  - rewrite run_attempts_eq in Hrun by done.
    set (sub := slice unique_codes a b) in *.
    assert (Hsub : range_len a b = Z.of_nat (length sub)) by done.
    rewrite Hsub in Hrun.
    destruct (decide (poison ∈ sub)) as [Hin | Hnot];
      [by destruct (poison_never_done _ _ _ _ _ _ Hin Hrun) |].
    apply attempts_spec_Done in Hrun
      as (s0 & d & items & [Hr Hs] & _ & Hcall & Hget & Hn & ->).
    assert (Hne : sub <> []) by (intros E; rewrite E in Hsub; simpl in Hsub; lia).
    pose proof (clean_reply (oracle s0) sub d items Hne Hnot Hcall Hget)
      as Hmodel.
    split.
    + intros gid Hout.
      destruct (record_spec_lookup a (Z.of_nat (length sub)) items
                  (after_call (call (oracle s0) (make_batch_items sub)).1 s0)
                  gid) as [-> ->]; [lia |].
      rewrite !decide_False by lia. simpl. by rewrite Hr, Hs.
    + intros i txt Hi Htxt.
      assert (Hnp : i <> p).
      { intros ->. apply Hnot. subst sub. apply poison_in_range; lia. }
      rewrite decide_False by done.
      destruct (record_spec_lookup a (Z.of_nat (length sub)) items
                  (after_call (call (oracle s0) (make_batch_items sub)).1 s0)
                  (Z.of_nat i + 1)) as [-> ->]; [lia |].
      rewrite !decide_True by lia. rewrite strip_spec_verdict.
      pose proof (lookup_normalize_spec (Z.of_nat (length sub)) items
                    (Z.of_nat i + 1 - a) ltac:(lia)) as Hl.
      rewrite Hmodel in Hl. unfold model_verdicts in Hl.
      rewrite list_lookup_imap in Hl.
      replace (Z.to_nat (Z.of_nat i + 1 - a - 1)) with (i - Z.to_nat a)%nat
        in Hl by lia.
      subst sub. rewrite lookup_range_codes, Htxt in Hl by lia.
      simpl in Hl. injection Hl as <-. done.
  - rewrite run_attempts_eq in Hrun by done.
    set (sub := slice unique_codes a b) in *.
    assert (Hsub : range_len a b = Z.of_nat (length sub)) by done.
    rewrite Hsub in Hrun.
    assert (Hne : sub <> []) by (intros E; rewrite E in Hsub; simpl in Hsub; lia).
    destruct (Z.to_nat max_retries_each_batch) as [|k] eqn:Hk; [lia |].
    destruct (decide (poison ∈ sub)) as [Hin | Hnot];
      [| by destruct (clean_not_exhausted _ _ _ _ _ _ _ Hne Hnot Hrun)].
    apply attempts_spec_Exhausted in Hrun as [[Hr Hs] _].
    subst sub. apply poison_in_range in Hin; [| lia | lia].
    split.
    + intros gid Hout. simpl. rewrite !lookup_insert_ne by lia.
      by rewrite Hr, Hs.
    + intros i txt Hi Htxt. rewrite decide_True by lia.
      replace (Z.of_nat i + 1) with (a + 1) by lia. simpl.
      rewrite !lookup_insert_eq. split; [done | by exists e].
  - rewrite run_attempts_eq in Hrun by done.
    apply attempts_spec_Exhausted in Hrun as [[Hr Hs] _].
    destruct (range_len_halves a b Hab Hn) as (Hm & Hl & Hrr & _ & _).
    set (mid := a + range_len a b / 2) in *.
    destruct (IH1 ltac:(lia) ltac:(lia)) as [F1 V1].
    destruct (IH2 ltac:(lia) ltac:(lia)) as [F2 V2].
    split.
    + intros gid Hout.
      destruct (F2 gid ltac:(lia)) as [-> ->].
      destruct (F1 gid ltac:(lia)) as [-> ->]. by rewrite Hr, Hs.
    + intros i txt Hi Htxt.
      destruct (decide (Z.of_nat i < mid)) as [Hlo | Hhi].
      * specialize (V1 i txt ltac:(lia) Htxt).
        destruct (F2 (Z.of_nat i + 1) ltac:(lia)) as [-> ->]. exact V1.
      * exact (V2 i txt ltac:(lia) Htxt).
Qed.

(** C3. With exactly one poison item among the codes and an oracle
    that answers every batch holding it unusably and every other batch
    with a reply that normalizes to the model's verdicts,
    [process_range] on a range of the list returns; the poison item,
    if it lies in the range, has the single-item failure default
    ([retain = false], the failure reason), every other code of the
    range has exactly the verdict of the model, and no id outside the
    range is touched. *)
Theorem bisection_isolates_poison (start_idx end_idx : Z) (s : pstate St) :
  0 <= start_idx <= end_idx ->
  end_idx <= Z.of_nat (length unique_codes) ->
  exists s',
    process_range call unique_codes max_retries_each_batch
      start_idx end_idx s = Some (inr s')
    /\ (forall gid, ~ start_idx < gid <= end_idx ->
          id2retain s' !! gid = id2retain s !! gid
          /\ id2reason s' !! gid = id2reason s !! gid)
    /\ forall (i : nat) (txt : pystr),
         start_idx <= Z.of_nat i < end_idx ->
         unique_codes !! i = Some txt ->
         if decide (i = p)
         then id2retain s' !! (Z.of_nat i + 1) = Some false
              /\ exists e, id2reason s' !! (Z.of_nat i + 1)
                           = Some (single_failure_prefix ++ repr_last_err e)
         else id2retain s' !! (Z.of_nat i + 1) = Some (model_retain txt)
              /\ id2reason s' !! (Z.of_nat i + 1) = Some (model_reason txt).
Proof.
  intros Hab Hb.
  destruct (process_range_bisects start_idx end_idx s Hab)
    as (s' & Hbis & Hp & _).
  exists s'. split; [done |].
  exact (bisects_isolated _ _ _ _ Hbis Hab Hb).
Qed.

End Isolation.

End ClassifierProperties.

(** ** Well-formed replies and example oracles *)

(** The entry a well-behaved model returns for one item of a batch. *)
Definition reply_entry (r : pystr -> bool) (reason : pystr -> pystr)
    (it : Module2.batch_item) : pyval :=
  PDict [(U "id", PInt (Module2.item_id it));
         (U "retain", PBool (r (Module2.item_text it)));
         (U "exclude_reason", PStr (reason (Module2.item_text it)))].

Definition reply_of (r : pystr -> bool) (reason : pystr -> pystr)
    (items : list Module2.batch_item) : pyval :=
  PDict [(U "filtering", PList (reply_entry r reason <$> items))].

Section WellFormedReplies.
Import Module2.
Context `{PyBuiltins}.
Variable r : pystr -> bool.
Variable reason : pystr -> pystr.

Lemma entry_id_reply (it : batch_item) :
  entry_id (reply_entry r reason it) = Some (item_id it).
Proof. reflexivity. Qed.

Lemma entry_verdict_reply (i : Z) (it : batch_item) :
  entry_verdict i (reply_entry r reason it)
  = mkVerdict i (r (item_text it))
      (if r (item_text it) then [] else strip (reason (item_text it))).
Proof. reflexivity. Qed.

Lemma find_at {A} (f : A -> bool) (l : list A) (j : nat) (x : A) :
  l !! j = Some x -> f x = true ->
  (forall i y, l !! i = Some y -> f y = true -> i = j) ->
  find f l = Some x.
Proof.
  revert j. induction l as [|y l IH]; intros j Hj Hx Huniq; [done |].
  simpl. destruct (f y) eqn:Hy.
  - pose proof (Huniq 0%nat y eq_refl Hy) as <-. simpl in Hj. congruence.
  - destruct j as [|j]; [simpl in Hj; congruence |].
    apply (IH j); [done | done |].
    intros i z Hi Hz. by pose proof (Huniq (S i) z Hi Hz) as [= ->].
Qed.

(** The reply with one entry per item normalizes to one verdict per
    item, in order. *)
Lemma normalize_reply_of (sub : list pystr) :
  _normalize_filtering_result (reply_of r reason (make_batch_items sub))
    (Z.of_nat (length sub))
  = inr (imap (fun j txt =>
                 mkVerdict (Z.of_nat j + 1) (r txt)
                   (if r txt then [] else strip (reason txt))) sub).
Proof.
  unfold reply_of.
  rewrite (normalize_dict _ (reply_entry r reason <$> make_batch_items sub))
    by reflexivity.
  f_equal. apply list_eq. intros j.
  rewrite list_lookup_imap.
  destruct (sub !! j) as [txt|] eqn:Hj; simpl.
  - pose proof (lookup_lt_Some _ _ _ Hj) as Hlt.
    pose proof (lookup_normalize_spec (Z.of_nat (length sub))
                  (reply_entry r reason <$> make_batch_items sub)
                  (Z.of_nat j + 1) ltac:(lia)) as Hl.
    replace (Z.to_nat (Z.of_nat j + 1 - 1)) with j in Hl by lia.
    rewrite Hl. f_equal. unfold spec_verdict, first_entry.
    rewrite (find_at _ _ j (reply_entry r reason (mkItem (Z.of_nat j + 1) txt))).
    + apply entry_verdict_reply.
    + unfold make_batch_items.
      by rewrite list_lookup_fmap, list_lookup_imap, Hj.
    + unfold has_id. by rewrite entry_id_reply, bool_decide_eq_true.
    + intros i y Hi Hy. unfold make_batch_items in Hi.
      rewrite list_lookup_fmap, list_lookup_imap in Hi.
      destruct (sub !! i) as [txt'|]; [| done]. simpl in Hi.
      injection Hi as <-. unfold has_id in Hy.
      rewrite entry_id_reply, bool_decide_eq_true in Hy. simpl in Hy.
      injection Hy as Hy. lia.
  - apply lookup_ge_None. apply lookup_ge_None in Hj.
    rewrite length_normalize_spec. lia.
Qed.

Lemma texts_of_batch_items (sub : list pystr) :
  item_text <$> make_batch_items sub = sub.
Proof.
  apply list_eq. intros j. unfold make_batch_items.
  rewrite list_lookup_fmap, list_lookup_imap. by destruct (sub !! j).
Qed.

End WellFormedReplies.

(** Three codes, of which the second one breaks every batch it is in. *)
Definition demo_codes : list pystr := [U "压力大"; U "单条"; U "很累"].
Definition demo_poison : pystr := U "单条".

(** The model keeps every code but ["很累"], which it excludes with a
    padded reason. *)
Definition demo_retain (txt : pystr) : bool :=
  bool_decide (txt <> U "很累").
Definition demo_reason (txt : pystr) : pystr := U " 与研究主题无关 ".

(** An oracle whose calls all raise. *)
Definition failing_oracle (o : nat) (items : list Module2.batch_item)
    : nat * (exn + pyval) :=
  (S o, inl (CallError (U "timeout"))).

(** An oracle that answers with an empty list of verdicts. *)
Definition silent_oracle (o : nat) (items : list Module2.batch_item)
    : nat * (exn + pyval) :=
  (S o, inr (PDict [(U "filtering", PList [])])).

(** An oracle whose reply cannot be parsed when the batch holds the
    poison item ([safe_parse_json(..) or {}] is then [{}]), and that
    answers every other batch item by item. *)
Definition poison_oracle (o : nat) (items : list Module2.batch_item)
    : nat * (exn + pyval) :=
  (S o,
   if decide (demo_poison ∈ Module2.item_text <$> items)
   then inr (PDict [])
   else inr (reply_of demo_retain demo_reason items)).

Definition demo_state : Module2.pstate nat := Module2.mkState 0%nat 0 ∅ ∅.

Lemma filter_complete_witness :
  exists s,
    Module2.filter_unique_codes_with_batching (H := no_builtins)
      failing_oracle demo_codes 2 2 0%nat
    = Some (inr (s, Module2.id2code demo_codes))
    /\ dom (Module2.id2retain s)
       = list_to_set (seqZ 1 (Z.of_nat (length demo_codes)))
    /\ dom (Module2.id2reason s)
       = list_to_set (seqZ 1 (Z.of_nat (length demo_codes)))
    /\ dom (Module2.id2code demo_codes)
       = list_to_set (seqZ 1 (Z.of_nat (length demo_codes))).
Proof.
  apply (filter_complete (H := no_builtins) failing_oracle demo_codes 2 2
           0%nat).
  lia.
Defined.

Lemma process_range_terminates_witness :
  exists s',
    Module2.process_range (H := no_builtins) failing_oracle demo_codes 2
      0 3 demo_state = Some (inr s')
    /\ Z.of_nat (Module2.calls s') - Z.of_nat (Module2.calls demo_state)
       <= Z.max 0 2 * Z.max 0 (2 * range_len demo_codes 0 3 - 1).
Proof.
  destruct (process_range_terminates (H := no_builtins) failing_oracle
              demo_codes 2 0 3 demo_state ltac:(lia))
    as [(s' & Hrun & _ & Hcalls) _].
  exists s'. split; [exact Hrun | exact Hcalls].
Defined.

Lemma empty_filtering_is_success_witness :
  exists s',
    Module2.process_range (H := no_builtins) silent_oracle demo_codes 2
      0 3 demo_state = Some (inr s')
    /\ Module2.calls s' = 1%nat.
Proof.
  destruct (empty_filtering_is_success (H := no_builtins) silent_oracle
              demo_codes 2 0 3 demo_state
              [(U "filtering", PList [])] [])
    as (_ & _ & s' & Hrun & Hcalls & _).
  - lia.
  - vm_compute. discriminate.
  - lia.
  - reflexivity.
  - reflexivity.
  - constructor.
  - exists s'. split; [exact Hrun | exact Hcalls].
Defined.

Lemma filter_verdict_reason_witness :
  Module2._normalize_filtering_result (H := no_builtins) sample_reply 3
  = inr sample_verdicts
  /\ Module2.mkVerdict 2 true [] ∈ sample_verdicts
  /\ (Module2.retain (Module2.mkVerdict 2 true []) = true ->
      Module2.exclude_reason (Module2.mkVerdict 2 true []) = []).
Proof.
  assert (Hres : Module2._normalize_filtering_result (H := no_builtins)
                   sample_reply 3 = inr sample_verdicts)
    by (vm_compute; reflexivity).
  assert (Hin : Module2.mkVerdict 2 true [] ∈ sample_verdicts)
    by (right; left).
  split; [exact Hres |]. split; [exact Hin |].
  destruct (filter_verdict_reason (H := no_builtins) failing_oracle
              demo_codes 2) as (Hnorm & _ & _ & _).
  exact (proj1 (Hnorm sample_reply 3 sample_verdicts _ Hres Hin)).
Defined.

(** C5, as stated, fails: the model may exclude a code without giving
    a reason, and the normalizer keeps the empty reason with
    [retain = false]. *)
Lemma filter_verdict_reason_not_iff :
  ~ (forall (H : PyBuiltins) (data : pyval) (n : Z)
            (out : list Module2.verdict) (v : Module2.verdict),
        Module2._normalize_filtering_result data n = inr out -> v ∈ out ->
        (Module2.exclude_reason v <> [] <-> Module2.retain v = false)).
Proof.
  intros Hclaim.
  destruct (Hclaim no_builtins
              (PDict [(U "filtering",
                       PList [PDict [(U "id", PInt 1);
                                     (U "retain", PBool false)]])])
              1 [Module2.mkVerdict 1 false []] (Module2.mkVerdict 1 false []))
    as [_ Hback].
  - vm_compute. reflexivity.
  - left.
  - by apply Hback.
Qed.

Lemma bisection_isolates_poison_witness :
  exists s',
    Module2.process_range (H := no_builtins) poison_oracle demo_codes 2
      0 3 demo_state = Some (inr s')
    /\ Module2.id2retain s' !! 1 = Some true
    /\ Module2.id2retain s' !! 2 = Some false
    /\ Module2.id2retain s' !! 3 = Some false
    /\ Module2.id2reason s' !! 3 = Some (U "与研究主题无关").
Proof.
  destruct (bisection_isolates_poison (H := no_builtins) poison_oracle
              demo_codes 2 demo_poison demo_retain
              (fun txt => if demo_retain txt then []
                          else strip (demo_reason txt))
              ) with (p := 1%nat) (start_idx := 0) (end_idx := 3)
              (s := demo_state)
    as (s' & Hrun & _ & Hv).
  - (* batches with the poison item *)
    intros o sub Hin. unfold poison_oracle. cbn [snd].
    rewrite texts_of_batch_items, decide_True by done. exact I.
  - (* batches without it *)
    intros o sub Hne Hnot. unfold poison_oracle. cbn [snd].
    rewrite texts_of_batch_items, decide_False by done.
    eexists. split; [reflexivity |].
    apply (normalize_reply_of (H := no_builtins)).
  - lia.
  - reflexivity.
  - intros [|[|[|i]]] Hi; vm_compute in Hi; congruence.
  - lia.
  - vm_compute. discriminate.
  - exists s'. split; [exact Hrun |].
    pose proof (Hv 0%nat (U "压力大") ltac:(lia) eq_refl) as [H0 _].
    pose proof (Hv 1%nat (U "单条") ltac:(lia) eq_refl) as [H1 _].
    pose proof (Hv 2%nat (U "很累") ltac:(lia) eq_refl) as [H2 H2'].
    split_and!; [exact H0 | exact H1 | exact H2 | exact H2'].
Defined.

(** * Further properties of the modelled code *)

(** ** The segmenter on every input *)

Section SegmenterMore.
Import Module1.

(** Every emitted block was built by [mk_block] from a non-empty
    buffer of answer lines. *)
Definition built_blocks (st : seg_state) : Prop :=
  Forall (fun b => exists q ls, b = mk_block q ls) (blocks st).

Lemma seg_step_built (st : seg_state) (raw_line : pystr) :
  built_blocks st -> built_blocks (seg_step st raw_line).
Proof.
  intros Hb. unfold seg_step.
  destruct (strip raw_line) as [|c line]; [done |].
  destruct (has_marker letter_Q (c :: line)).
  - unfold pending_block.
    destruct (current_q st) as [q|]; [| done].
    destruct (current_a_lines st) as [|l ls] eqn:Ha; [done |].
    apply Forall_app. split; [done |]. constructor; [| constructor].
    by exists q, (l :: ls).
  - destruct (has_marker letter_A (c :: line)).
    + by destruct (sub_marker letter_A (c :: line)).
    + destruct (current_a_lines st); [| done]. by destruct (current_q st).
Qed.

Lemma seg_fold_built (lines : list pystr) (st : seg_state) :
  built_blocks st -> built_blocks (fold_left seg_step lines st).
Proof.
  revert st. induction lines as [|l lines IH]; intros st Hb; [done |].
  simpl. by apply IH, seg_step_built.
Qed.

(** X1. On every text, each emitted block has a non-empty answer, and
    neither its question nor its answer has white space at either end. *)
Theorem parse_qa_blocks_clean (text : pystr) :
  Forall (fun b => answer b <> []
                   /\ strip (answer b) = answer b
                   /\ strip (question b) = question b)
    (parse_qa_blocks text).
Proof.
  assert (Hbuilt : Forall (fun b => exists q ls, b = mk_block q ls)
                     (parse_qa_blocks text)).
  { unfold parse_qa_blocks, seg_finish.
    pose proof (seg_fold_built (splitlines text) seg_init
                  ltac:(constructor)) as Hb.
    set (st := fold_left seg_step (splitlines text) seg_init) in *.
    unfold pending_block.
    destruct (current_q st) as [q|]; [| done].
    destruct (current_a_lines st) as [|l ls]; [done |].
    apply Forall_app. split; [done |]. constructor; [| constructor].
    by exists q, (l :: ls). }
  pose proof (parse_qa_blocks_answer_nonempty text) as Hne.
  rewrite Forall_forall in Hbuilt, Hne |- *.
  intros b Hb. split; [by apply Hne |].
  destruct (Hbuilt b Hb) as (q & ls & ->). unfold mk_block. simpl.
  split; apply strip_idem.
Qed.

(** Lines that open a question, and lines that open an answer with
    some content. *)
Definition is_question_line (raw_line : pystr) : bool :=
  match strip raw_line with
  | [] => false
  | line => has_marker letter_Q line
  end.

Definition is_answer_line (raw_line : pystr) : bool :=
  match strip raw_line with
  | [] => false
  | line =>
    negb (has_marker letter_Q line) && has_marker letter_A line
    && match sub_marker letter_A line with [] => false | _ => true end
  end.

Definition count_lines (f : pystr -> bool) (lines : list pystr) : nat :=
  length (filter (fun l => f l = true) lines).

(** Blocks emitted or pending never outnumber the markers met. *)
Definition count_inv (nq na : nat) (st : seg_state) : Prop :=
  (length (blocks st)
   + (match current_q st with Some _ => 1 | None => 0 end) <= nq)%nat
  /\ (length (blocks st)
      + (match current_a_lines st with [] => 0 | _ => 1 end) <= na)%nat.

Lemma seg_step_count (nq na : nat) (st : seg_state) (raw_line : pystr) :
  count_inv nq na st ->
  count_inv (nq + (if is_question_line raw_line then 1 else 0))
    (na + (if is_answer_line raw_line then 1 else 0))
    (seg_step st raw_line).
Proof.
  intros [Hq Ha]. unfold seg_step, is_question_line, is_answer_line.
  destruct (strip raw_line) as [|c line]; [split; simpl; lia |].
  destruct (has_marker letter_Q (c :: line)); cbn [negb andb].
  - unfold pending_block.
    destruct (current_q st) as [q|] eqn:Eq.
    + destruct (current_a_lines st) as [|l ls] eqn:Ea;
        split; simpl; rewrite ?length_app, ?Ea; simpl; lia.
    + split; simpl; [lia |]. destruct (current_a_lines st); lia.
  - destruct (has_marker letter_A (c :: line)); cbn [negb andb].
    + destruct (sub_marker letter_A (c :: line)) as [|x body];
        [split; simpl; lia |].
      split; simpl; [lia |].
      destruct (current_a_lines st); simpl; lia.
    + destruct (current_a_lines st) as [|l ls] eqn:Ea.
      * destruct (current_q st) eqn:Eq; split; simpl; rewrite ?Ea, ?Eq; lia.
      * split; simpl; [lia |]. destruct (ls ++ [c :: line]); simpl; lia.
Qed.

Lemma seg_fold_count (lines : list pystr) (nq na : nat) (st : seg_state) :
  count_inv nq na st ->
  count_inv (nq + count_lines is_question_line lines)
    (na + count_lines is_answer_line lines)
    (fold_left seg_step lines st).
Proof.
  revert nq na st. induction lines as [|l lines IH]; intros nq na st Hinv.
  - unfold count_lines. simpl. by rewrite !Nat.add_0_r.
  - simpl. apply (seg_step_count _ _ _ l), IH in Hinv.
    unfold count_lines in *. rewrite !filter_cons.
    destruct (is_question_line l), (is_answer_line l);
      repeat case_decide; try done; simpl length;
      by rewrite <- ?Nat.add_assoc in Hinv.
Qed.

(** X2. The number of emitted blocks exceeds neither the number of
    lines that open a question nor the number of lines that open an
    answer with content: a text without question markers, or without an
    answer marker followed by content, gives no block. *)
Theorem parse_qa_blocks_count (text : pystr) :
  (length (parse_qa_blocks text)
   <= count_lines is_question_line (splitlines text))%nat
  /\ (length (parse_qa_blocks text)
      <= count_lines is_answer_line (splitlines text))%nat.
Proof.
  unfold parse_qa_blocks, seg_finish.
  pose proof (seg_fold_count (splitlines text) 0 0 seg_init
                ltac:(split; simpl; lia)) as [Hq Ha].
  simpl in Hq, Ha.
  set (st := fold_left seg_step (splitlines text) seg_init) in *.
  unfold pending_block.
  destruct (current_q st) as [q|]; [| destruct (current_a_lines st); lia].
  destruct (current_a_lines st) as [|l ls]; [lia |].
  rewrite length_app. simpl. lia.
Qed.

End SegmenterMore.

(** ** The segmenter on a well-formed transcript *)

(** A one-line text field: not empty, no white space at either end, no
    line boundary inside. *)
Definition clean_line (s : pystr) : Prop :=
  s <> [] /\ strip s = s /\ Forall (fun c => is_linebreak c = false) s.

(** A transcript with one question line and one answer line per pair. *)
Definition render_pair (qa : pystr * pystr) : pystr :=
  U "Q: " ++ qa.1 ++ nl ++ U "A: " ++ qa.2 ++ nl.

Definition render (pairs : list (pystr * pystr)) : pystr :=
  concat (map render_pair pairs).

Section SegmenterRoundTrip.
Import Module1.

Lemma splitlines_from_line (cur l rest : pystr) :
  Forall (fun c => is_linebreak c = false) l ->
  splitlines_from cur (l ++ nl ++ rest)
  = (rev cur ++ l) :: splitlines_from [] rest.
Proof.
  revert cur. induction l as [|c l IH]; intros cur Hl.
  - by rewrite app_nil_r.
  - apply Forall_cons in Hl as [Hc Hl]. cbn [app splitlines_from].
    destruct (c =? 13)%N eqn:E13.
    { apply N.eqb_eq in E13. subst c. discriminate. }
    rewrite Hc, IH by done. simpl. by rewrite <- app_assoc.
Qed.

Lemma rstrip_app_keep (p q : pystr) :
  rstrip q <> [] -> rstrip (p ++ q) = p ++ rstrip q.
Proof.
  intros Hq. induction p as [|c p IH]; [done |].
  cbn [app]. rewrite rstrip_cons, IH.
  destruct (p ++ rstrip q) eqn:E; [| done].
  by apply app_eq_nil in E as [_ ?].
Qed.

Lemma clean_line_lstrip (s : pystr) : clean_line s -> lstrip s = s.
Proof.
  intros (_ & Hs & _). apply lstrip_clean. rewrite <- Hs.
  apply rstrip_head_clean, lstrip_head_clean.
Qed.

Lemma clean_line_rstrip (s : pystr) : clean_line s -> rstrip s = s.
Proof.
  intros Hc. destruct Hc as (Hne & Hs & Hl).
  unfold strip in Hs.
  by rewrite (clean_line_lstrip s ltac:(done)) in Hs.
Qed.

(** A marker, a colon and a space in front of a clean line. *)
Lemma strip_marked (m : N) (s : pystr) :
  isspace m = false -> clean_line s ->
  strip (m :: 58%N :: 32%N :: s) = m :: 58%N :: 32%N :: s.
Proof.
  intros Hm Hs. unfold strip. cbn [lstrip]. rewrite Hm.
  change (m :: 58%N :: 32%N :: s) with ([m; 58%N; 32%N] ++ s).
  rewrite rstrip_app_keep; rewrite (clean_line_rstrip s Hs); [done |].
  by destruct Hs.
Qed.

Lemma seg_step_question (st : seg_state) (q : pystr) :
  clean_line q ->
  seg_step st (U "Q: " ++ q)
  = match pending_block st with
    | Some b => mkSeg (blocks st ++ [b]) (Some q) []
    | None => mkSeg (blocks st) (Some q) (current_a_lines st)
    end.
Proof.
  intros Hq. change (U "Q: " ++ q) with (81%N :: 58%N :: 32%N :: q).
  unfold seg_step. rewrite strip_marked by done.
  change (has_marker letter_Q (81%N :: 58%N :: 32%N :: q)) with true.
  cbn iota.
  change (sub_marker letter_Q (81%N :: 58%N :: 32%N :: q))
    with (lstrip q).
  by rewrite (clean_line_lstrip q Hq).
Qed.

Lemma seg_step_answer (st : seg_state) (a : pystr) :
  clean_line a ->
  seg_step st (U "A: " ++ a)
  = mkSeg (blocks st) (current_q st) (current_a_lines st ++ [a]).
Proof.
  intros Ha. change (U "A: " ++ a) with (65%N :: 58%N :: 32%N :: a).
  unfold seg_step. rewrite strip_marked by done.
  change (has_marker letter_Q (65%N :: 58%N :: 32%N :: a)) with false.
  change (has_marker letter_A (65%N :: 58%N :: 32%N :: a)) with true.
  cbn iota.
  change (sub_marker letter_A (65%N :: 58%N :: 32%N :: a))
    with (lstrip a).
  rewrite (clean_line_lstrip a Ha). destruct Ha as (Hne & _).
  by destruct a.
Qed.

(** Between two pairs the state holds nothing, or one question with
    its one answer line. *)
Definition tidy (st : seg_state) : Prop :=
  (current_q st = None /\ current_a_lines st = [])
  \/ exists q a, clean_line q /\ clean_line a
                 /\ current_q st = Some q /\ current_a_lines st = [a].

Lemma mk_block_clean (q a : pystr) :
  clean_line q -> clean_line a -> mk_block q [a] = mkQA q a.
Proof.
  intros (_ & Hq & _) (_ & Ha & _). unfold mk_block. simpl.
  by rewrite Hq, Ha.
Qed.

Lemma seg_step_pair (st : seg_state) (q a : pystr) :
  tidy st -> clean_line q -> clean_line a ->
  let st' := seg_step (seg_step st (U "Q: " ++ q)) (U "A: " ++ a) in
  tidy st' /\ seg_finish st' = seg_finish st ++ [mkQA q a].
Proof.
  intros Ht Hq Ha. cbn zeta.
  rewrite seg_step_question, seg_step_answer by done.
  unfold seg_finish, pending_block.
  destruct Ht as [[Eq Ea] | (q0 & a0 & Hq0 & Ha0 & Eq & Ea)];
    rewrite Eq, Ea; simpl.
  - split; [right; by exists q, a |]. by rewrite mk_block_clean.
  - split; [right; by exists q, a |].
    by rewrite !mk_block_clean.
Qed.

Lemma splitlines_render (pairs : list (pystr * pystr)) (rest : pystr) :
  Forall (fun qa => clean_line qa.1 /\ clean_line qa.2) pairs ->
  splitlines_from [] (render pairs ++ rest)
  = flat_map (fun qa => [U "Q: " ++ qa.1; U "A: " ++ qa.2]) pairs
    ++ splitlines_from [] rest.
Proof.
  induction 1 as [|[q a] pairs [Hq Ha] _ IH]; [done |].
  unfold render in *. cbn [map concat flat_map fst snd].
  unfold render_pair at 1. cbn [fst snd].
  assert (Hmark : forall m s, is_linebreak m = false -> clean_line s ->
            Forall (fun c => is_linebreak c = false)
              (m :: 58%N :: 32%N :: s)).
  { intros m s Hm (_ & _ & Hs). by repeat constructor. }
  rewrite <- !app_assoc.
  rewrite (app_assoc (U "Q: ") q).
  rewrite (splitlines_from_line [] (U "Q: " ++ q))
    by (by apply (Hmark 81%N)).
  rewrite (app_assoc (U "A: ") a).
  rewrite (splitlines_from_line [] (U "A: " ++ a))
    by (by apply (Hmark 65%N)).
  simpl. by rewrite IH.
Qed.

Lemma seg_fold_pairs (pairs : list (pystr * pystr)) (st : seg_state) :
  tidy st ->
  Forall (fun qa => clean_line qa.1 /\ clean_line qa.2) pairs ->
  seg_finish
    (fold_left seg_step
       (flat_map (fun qa => [U "Q: " ++ qa.1; U "A: " ++ qa.2]) pairs) st)
  = seg_finish st ++ map (fun qa => mkQA qa.1 qa.2) pairs.
Proof.
  intros Ht Hall. revert st Ht.
  induction Hall as [|[q a] pairs [Hq Ha] _ IH]; intros st Ht.
  - simpl. by rewrite app_nil_r.
  - cbn [flat_map app fold_left map fst snd].
    destruct (seg_step_pair st q a Ht Hq Ha) as [Ht' Hfin].
    rewrite IH by done. rewrite Hfin. by rewrite <- app_assoc.
Qed.

(** X3. Round trip: a transcript written as one ["Q: "] line and one
    ["A: "] line per pair, with clean one-line questions and answers,
    is segmented into exactly these pairs, in order. *)
Theorem parse_render_round_trip (pairs : list (pystr * pystr)) :
  Forall (fun qa => clean_line qa.1 /\ clean_line qa.2) pairs ->
  parse_qa_blocks (render pairs) = map (fun qa => mkQA qa.1 qa.2) pairs.
Proof.
  intros Hall. unfold parse_qa_blocks, splitlines.
  rewrite <- (app_nil_r (render pairs)).
  rewrite splitlines_render by done. cbn [splitlines_from].
  rewrite app_nil_r.
  rewrite (seg_fold_pairs pairs seg_init); [done | by left | done].
Qed.

End SegmenterRoundTrip.

Definition demo_pairs : list (pystr * pystr) :=
  [(U "你觉得工作压力大吗？", U "是的，压力很大");
   (U "加班多吗？", U "每周都有")].

Lemma parse_render_round_trip_witness :
  Module1.parse_qa_blocks (render demo_pairs)
  = map (fun qa => Module1.mkQA qa.1 qa.2) demo_pairs.
Proof.
  apply (parse_render_round_trip demo_pairs).
  assert (Hclean : forall s,
             bool_decide (s <> [] /\ strip s = s
                          /\ Forall (fun c => is_linebreak c = false) s)
             -> clean_line s)
    by (intros s Hs; exact (bool_decide_unpack _ Hs)).
  apply Forall_cons_2; [split; apply Hclean; vm_compute; exact I |].
  apply Forall_cons_2; [split; apply Hclean; vm_compute; exact I |].
  apply Forall_nil_2.
Defined.

(** ** The extractor on fenced and on wrapped replies *)

(** A document that is its own stripped form and neither starts nor
    ends with a backquote (as every JSON document is, once stripped). *)
Definition plain_doc (doc : pystr) : Prop :=
  strip doc = doc
  /\ match doc with c :: _ => c <> 96%N | [] => False end
  /\ match rev doc with c :: _ => c <> 96%N | [] => False end.

Definition white (ws : pystr) : Prop := Forall (fun c => isspace c = true) ws.

Section ExtractorMore.
Import Module1.
Variable json_loads : pystr -> option pyval.

Lemma lstrip_white_app (ws s : pystr) : white ws -> lstrip (ws ++ s) = lstrip s.
Proof. induction 1 as [|c ws Hc _ IH]; [done |]. simpl. by rewrite Hc. Qed.

Lemma rstrip_app_white (s ws : pystr) : white ws -> rstrip (s ++ ws) = rstrip s.
Proof.
  intros Hws. unfold rstrip. rewrite rev_app_distr.
  rewrite lstrip_white_app; [done |].
  unfold white in *. rewrite Forall_forall in Hws |- *.
  intros c Hc. apply Hws. apply list_elem_of_In in Hc.
  apply list_elem_of_In. by apply in_rev.
Qed.

(** Stripping removes the white space around a text that has none at
    its ends. *)
Lemma strip_padded (ws0 s ws3 : pystr) :
  white ws0 -> white ws3 -> s <> [] -> head_clean s -> rstrip s = s ->
  strip (ws0 ++ s ++ ws3) = s.
Proof.
  intros H0 H3 Hne Hh Ht. unfold strip.
  rewrite lstrip_white_app by done.
  rewrite (lstrip_clean (s ++ ws3)) by (by destruct s).
  by rewrite rstrip_app_white.
Qed.

Lemma head_clean_rev_rstrip (s : pystr) :
  head_clean (rev s) -> rstrip s = s.
Proof.
  intros Hc. unfold rstrip. by rewrite lstrip_clean, rev_involutive.
Qed.

Lemma plain_doc_rstrip (doc : pystr) : plain_doc doc -> rstrip doc = doc.
Proof.
  intros (Hs & _ & _). unfold strip in Hs.
  assert (Hl : lstrip doc = doc).
  { apply lstrip_clean. rewrite <- Hs.
    apply rstrip_head_clean, lstrip_head_clean. }
  by rewrite Hl in Hs.
Qed.

Lemma plain_doc_tail (doc : pystr) :
  plain_doc doc -> lstrip (rev doc) = rev doc.
Proof.
  intros Hd. pose proof (plain_doc_rstrip doc Hd) as Hr.
  unfold rstrip in Hr. apply (f_equal (@rev N)) in Hr.
  by rewrite rev_involutive in Hr.
Qed.

(** A first character other than the backquote rules the opening
    fences out. *)
Lemma sub_json_fence_other (c : N) (r : pystr) :
  c <> 96%N -> sub_json_fence (c :: r) = c :: r.
Proof.
  intros Hc. unfold sub_json_fence.
  destruct c as [|p]; [reflexivity |].
  do 7 (destruct p as [p|p|]; try reflexivity); by destruct Hc.
Qed.

Lemma sub_open_fence_other (c : N) (r : pystr) :
  c <> 96%N -> sub_open_fence (c :: r) = c :: r.
Proof.
  intros Hc. unfold sub_open_fence, fence. cbn [startswith].
  by rewrite (proj2 (N.eqb_neq 96 c)) by done.
Qed.

(** A fence followed by white space is not taken for a tagged fence. *)
Lemma sub_json_fence_white (w : N) (r : pystr) :
  isspace w = true ->
  sub_json_fence (fence ++ w :: r) = fence ++ w :: r.
Proof.
  intros Hw. unfold sub_json_fence, fence. cbn [app].
  destruct r as [|c1 [|c2 [|c3 r]]]; try reflexivity.
  assert (Hj : ((w =? 106) || (w =? 74))%N = false).
  { destruct (N.eqb_spec w 106) as [-> | _]; [discriminate |].
    destruct (N.eqb_spec w 74) as [-> | _]; [discriminate | done]. }
  by rewrite Hj.
Qed.

Lemma sub_close_fence_strips (s ws : pystr) :
  white ws -> lstrip (rev s) = rev s ->
  sub_close_fence (s ++ ws ++ fence) = s.
Proof.
  intros Hws Hs. unfold sub_close_fence.
  rewrite !rev_app_distr. change (rev fence) with fence.
  rewrite <- app_assoc. change (startswith fence (fence ++ ?x)) with true.
  cbn iota. unfold fence. cbn [app drop]. rewrite drop_0.
  rewrite lstrip_white_app.
  - by rewrite Hs, rev_involutive.
  - unfold white in *. rewrite Forall_forall in Hws |- *.
    intros c Hc. apply Hws. apply list_elem_of_In in Hc.
    apply list_elem_of_In. by apply in_rev.
Qed.

Lemma sub_close_fence_other (s : pystr) (c : N) (r : pystr) :
  rev s = c :: r -> c <> 96%N -> isspace c = false ->
  sub_close_fence s = s.
Proof.
  intros Hr Hc Hsp. unfold sub_close_fence. rewrite Hr.
  unfold fence. cbn [startswith].
  rewrite (proj2 (N.eqb_neq 96 c)) by done. cbn [andb].
  destruct c as [|p]; [reflexivity |].
  do 4 (destruct p as [p|p|]; try reflexivity). discriminate.
Qed.

(** Without fences and outer white space nothing is removed. *)
Lemma strip_fences_plain (doc : pystr) :
  plain_doc doc -> strip_fences doc = doc.
Proof.
  intros Hd. pose proof Hd as (Hs & Hh & Ht).
  pose proof (plain_doc_tail doc Hd) as Hl.
  unfold strip_fences. rewrite Hs.
  destruct doc as [|c r]; [done |].
  rewrite sub_json_fence_other, sub_open_fence_other by done.
  destruct (rev (c :: r)) as [|c' r'] eqn:Hr; [done |].
  apply (sub_close_fence_other _ c' r'); [done | done |].
  pose proof (lstrip_head_clean (c' :: r')) as Hc. by rewrite Hl in Hc.
Qed.

(** What is left of a fenced document, with or without the [json]
    tag. *)
Lemma strip_fences_fenced (tagged : bool) (doc ws0 ws1 ws2 ws3 : pystr) :
  plain_doc doc -> white ws0 -> white ws1 -> white ws2 -> white ws3 ->
  ws1 <> [] ->
  strip_fences
    (ws0 ++ (fence ++ (if tagged then U "json" else []) ++ ws1
             ++ doc ++ ws2 ++ fence) ++ ws3)
  = doc.
Proof.
  intros Hd H0 H1 H2 H3 Hne1. pose proof Hd as (Hs & Hh & Ht).
  pose proof (plain_doc_tail doc Hd) as Hl.
  assert (Hlead : lstrip (ws1 ++ doc ++ ws2 ++ fence) = doc ++ ws2 ++ fence).
  { rewrite lstrip_white_app by done. apply lstrip_clean.
    destruct doc as [|c r]; [done |].
    assert (Hc : head_clean (c :: r))
      by (rewrite <- Hs; apply rstrip_head_clean, lstrip_head_clean).
    exact Hc. }
  unfold strip_fences. rewrite strip_padded; [| done | done | | |].
  - destruct tagged.
    + change (sub_json_fence (fence ++ U "json" ++ ?x)) with (lstrip x).
      rewrite Hlead. destruct doc as [|c r]; [done |]. cbn [app].
      rewrite sub_open_fence_other by done.
      by apply (sub_close_fence_strips (c :: r)).
    + cbn [app]. destruct ws1 as [|w ws1]; [done |].
      apply Forall_cons in H1 as [Hw H1]. cbn [app].
      rewrite sub_json_fence_white by done.
      unfold sub_open_fence.
      change (startswith fence (fence ++ ?x)) with true. cbn iota.
      unfold fence at 1. cbn [app drop].
      change (w :: ws1 ++ doc ++ ws2 ++ fence)
        with ((w :: ws1) ++ doc ++ ws2 ++ fence).
      rewrite Hlead. by apply sub_close_fence_strips.
  - done.
  - done.
  - apply head_clean_rev_rstrip.
    rewrite !rev_app_distr. by change (rev fence) with fence.
Qed.

(** X4. Fences are transparent: a document wrapped in a code fence,
    tagged [json] or untagged, with any white space around the fence
    and between fence and document, is extracted exactly like the bare
    document. *)
Theorem safe_parse_json_fenced (tagged : bool)
    (doc ws0 ws1 ws2 ws3 : pystr) :
  plain_doc doc -> white ws0 -> white ws1 -> white ws2 -> white ws3 ->
  ws1 <> [] ->
  safe_parse_json json_loads
    (PStr (ws0 ++ (fence ++ (if tagged then U "json" else []) ++ ws1
                   ++ doc ++ ws2 ++ fence) ++ ws3))
  = safe_parse_json json_loads (PStr doc).
Proof.
  intros Hd H0 H1 H2 H3 Hne. unfold safe_parse_json.
  by rewrite strip_fences_fenced, strip_fences_plain.
Qed.

(** *** The brace snippet *)







End ExtractorMore.

(** A fenced reply, as chat models usually send it. *)
Definition demo_doc : pystr := U "[1, 2]".

Lemma safe_parse_json_fenced_witness :
  (plain_doc demo_doc /\ white [] /\ white nl /\ white nl /\ white []
   /\ nl <> [])
  /\ Module1.safe_parse_json json_loads_array
       (PStr ([] ++ (Module1.fence ++ (if true then U "json" else []) ++ nl
                     ++ demo_doc ++ nl ++ Module1.fence) ++ []))
     = Module1.safe_parse_json json_loads_array (PStr demo_doc).
Proof.
  assert (Hnl : white nl) by (apply Forall_cons_2; [reflexivity | apply Forall_nil_2]).
  assert (Hdoc : plain_doc demo_doc).
  { split; [by vm_compute |]. split; vm_compute; discriminate. }
  split.
  - split_and!; try done. apply Forall_nil_2. apply Forall_nil_2.
  - apply (safe_parse_json_fenced json_loads_array true demo_doc [] nl nl []);
      try done; apply Forall_nil_2.
Defined.




(** ** The coverage validator: what an all-clear means *)

Section CoverageMore.
Import Module4.
Context `{PyBuiltins}.

Lemma filter_nil_inv {A} (P : A -> Prop) `{!forall x, Decision (P x)}
    (l : list A) (x : A) :
  filter P l = [] -> x ∈ l -> ~ P x.
Proof.
  intros Hnil Hx HP.
  assert (Hin : x ∈ filter P l) by (by apply list_elem_of_filter).
  rewrite Hnil in Hin. by apply not_elem_of_nil in Hin.
Qed.

Lemma filter_all {A} (P : A -> Prop) `{!forall x, Decision (P x)}
    (l : list A) :
  (forall x, x ∈ l -> P x) -> filter P l = l.
Proof.
  induction l as [|x l IH]; intros Hl; [done |].
  rewrite filter_cons_True by (apply Hl; left).
  f_equal. apply IH. intros y Hy. apply Hl. by right.
Qed.

Lemma first_occurrences_complete (k : pystr) (l : list pystr) :
  k ∈ l -> k ∈ first_occurrences l.
Proof.
  induction l as [|x l IH]; simpl; [done |].
  intros [-> | Hin]%elem_of_cons; [left |].
  destruct (decide (k = x)) as [-> | Hne]; [left |].
  right. apply list_elem_of_filter. split; [done | by apply IH].
Qed.


(** X6. The converse of the partition property: when the validator
    returns three empty lists, every known code is among the covered
    codes it read, every covered code is a known code, and every
    non-empty covered code was read exactly once. *)
Theorem validate_coverage_sound (result : pyval)
    (axial_codes : list pystr) :
  validate_coverage result axial_codes = inr ([], [], []) ->
  exists entries,
    covered_entries result = inr entries
    /\ let seen := map (fun a => strip (py_str a)) entries in
       (forall a, a ∈ axial_codes -> a ∈ seen)
       /\ (forall c, c ∈ seen -> c ∈ axial_codes)
       /\ (forall c, c ∈ seen -> c <> [] -> occurrences c seen = 1%nat).
Proof.
  unfold validate_coverage.
  destruct (covered_entries result) as [e | entries]; [done |].
  intros [= Hmiss Hextra Hdup]. exists entries. split; [done |].
  cbn zeta. set (seen := map (fun a => strip (py_str a)) entries) in *.
  split_and!.
  - intros a Ha. destruct (decide (a ∈ seen)) as [Hin | Hnot]; [done |].
    destruct (filter_nil_inv _ _ a Hmiss Ha).
    by rewrite elem_of_list_to_set.
  - intros c Hc. destruct (decide (c ∈ axial_codes)) as [Hin | Hnot]; [done |].
    destruct (filter_nil_inv _ _ c Hextra).
    + by apply elem_of_elements, elem_of_list_to_set.
    + by rewrite elem_of_list_to_set.
  - intros c Hc Hne.
    pose proof (filter_nil_inv _ _ c Hdup
                  (first_occurrences_complete c seen Hc)) as Hone.
    apply occurrences_pos in Hc.
    destruct (decide (1 < occurrences c seen)%nat) as [Hgt | Hle];
      [by destruct Hone | lia].
Qed.

(** X7. A result object without concepts: when ["aggregate_concepts"]
    is absent, or bound to a value that counts as false ([None], an
    empty list, an empty string, zero), the validator reports every
    known code as missing, in the order and with the repetitions of the
    list it was given, and nothing else. *)
Theorem validate_coverage_no_concepts (d : list (pystr * pyval))
    (axial_codes : list pystr) :
  match dict_get d key_aggregate_concepts with
  | Some v => py_bool v = false
  | None => True
  end ->
  validate_coverage (PDict d) axial_codes = inr (axial_codes, [], []).
Proof.
  intros Hd. unfold validate_coverage, covered_entries, iter_key, get_or_list.
  assert (Hiter : iter_or_empty
                    match dict_get d key_aggregate_concepts with
                    | Some v => v
                    | None => PList []
                    end = inr []).
  { destruct (dict_get d key_aggregate_concepts) as [v|]; [| done].
    unfold iter_or_empty. by rewrite Hd. }
  rewrite Hiter. cbn [covered_of_concepts map].
  unfold coverage_of_seen. cbn [list_to_set first_occurrences].
  rewrite elements_empty, !filter_nil.
  rewrite filter_all; [done |]. intros a _. apply not_elem_of_empty.
Qed.

End CoverageMore.

Lemma validate_coverage_sound_witness :
  Module4.validate_coverage (H := no_builtins)
    (concepts_result [[U "a"]; [U "b"]]) [U "a"; U "b"] = inr ([], [], [])
  /\ exists entries,
       Module4.covered_entries (concepts_result [[U "a"]; [U "b"]])
       = inr entries
       /\ forall a, a ∈ [U "a"; U "b"] ->
            a ∈ map (fun a => strip (py_str (H := no_builtins) a)) entries.
Proof.
  assert (Hrun : Module4.validate_coverage (H := no_builtins)
                   (concepts_result [[U "a"]; [U "b"]]) [U "a"; U "b"]
                 = inr ([], [], [])) by (by vm_compute).
  split; [exact Hrun |].
  destruct (validate_coverage_sound (H := no_builtins) _ _ Hrun)
    as (entries & Hcov & Hall & _).
  exists entries. split; [exact Hcov | exact Hall].
Defined.

Lemma validate_coverage_no_concepts_witness :
  match dict_get [(U "aggregate_concepts", PNone)]
          Module4.key_aggregate_concepts with
  | Some v => py_bool v = false
  | None => True
  end
  /\ Module4.validate_coverage (H := no_builtins)
       (PDict [(U "aggregate_concepts", PNone)]) [U "a"; U "b"; U "a"]
     = inr ([U "a"; U "b"; U "a"], [], []).
Proof.
  assert (Hd : match dict_get [(U "aggregate_concepts", PNone)]
                       Module4.key_aggregate_concepts with
               | Some v => py_bool v = false
               | None => True
               end) by (by vm_compute).
  split; [exact Hd |].
  exact (validate_coverage_no_concepts (H := no_builtins)
           [(U "aggregate_concepts", PNone)] [U "a"; U "b"; U "a"] Hd).
Defined.

(** ** The normalizer: idempotence and independence of the order *)

(** A verdict of the normalizer as the dictionary the code builds,
    [{"id": bid, "retain": retain, "exclude_reason": reason}], and a
    list of verdicts offered again as a reply. *)
Definition verdict_entry (v : Module2.verdict) : pyval :=
  PDict [(Module2.key_id, PInt (Module2.vid v));
         (Module2.key_retain, PBool (Module2.retain v));
         (Module2.key_exclude_reason, PStr (Module2.exclude_reason v))].

Definition verdicts_reply (out : list Module2.verdict) : pyval :=
  PDict [(Module2.key_filtering, PList (verdict_entry <$> out))].

Section NormalizerMore.
Import Module2.
Context `{PyBuiltins}.

Lemma entry_id_verdict_entry (v : verdict) :
  entry_id (verdict_entry v) = Some (vid v).
Proof. reflexivity. Qed.

Lemma vid_spec_verdict (items : list pyval) (i : Z) :
  vid (spec_verdict items i) = i.
Proof. unfold spec_verdict. by destruct (first_entry items i). Qed.

Lemma entry_verdict_verdict_entry (i : Z) (v : verdict) :
  entry_verdict i (verdict_entry v)
  = mkVerdict i (retain v)
      (if retain v then [] else strip (exclude_reason v)).
Proof. reflexivity. Qed.

Lemma entry_verdict_spec_verdict (items : list pyval) (i : Z) :
  entry_verdict i (verdict_entry (spec_verdict items i))
  = spec_verdict items i.
Proof.
  rewrite entry_verdict_verdict_entry.
  pose proof (vid_spec_verdict items i) as Hid.
  pose proof (spec_verdict_retained items i) as Hret.
  pose proof (strip_spec_verdict items i) as Hstrip.
  destruct (spec_verdict items i) as [j r reason].
  cbn [vid retain exclude_reason] in *. subst j.
  destruct r; [by rewrite Hret | by rewrite Hstrip].
Qed.

Lemma normalize_spec_idem (n : Z) (items : list pyval) :
  normalize_spec n (verdict_entry <$> normalize_spec n items)
  = normalize_spec n items.
Proof.
  unfold normalize_spec at 1 3. apply list_fmap_ext.
  intros j i Hi. apply lookup_seqZ in Hi as [-> Hlt].
  unfold spec_verdict at 1, first_entry.
  rewrite (find_at _ _ j (verdict_entry (spec_verdict items (1 + Z.of_nat j)))).
  - apply entry_verdict_spec_verdict.
  - rewrite list_lookup_fmap.
    pose proof (lookup_normalize_spec n items (1 + Z.of_nat j) ltac:(lia))
      as Hl.
    replace (Z.to_nat (1 + Z.of_nat j - 1)) with j in Hl by lia.
    by rewrite Hl.
  - unfold has_id. rewrite entry_id_verdict_entry, vid_spec_verdict.
    by apply bool_decide_eq_true.
  - intros k y Hk Hy. rewrite list_lookup_fmap in Hk.
    destruct (normalize_spec n items !! k) as [v|] eqn:Hv; [| done].
    simpl in Hk. injection Hk as <-.
    unfold has_id in Hy. rewrite entry_id_verdict_entry in Hy.
    apply bool_decide_eq_true in Hy. injection Hy as Hy.
    assert (Hids : (vid <$> normalize_spec n items) !! k = Some (vid v))
      by (by rewrite list_lookup_fmap, Hv).
    rewrite ids_normalize_spec in Hids.
    apply lookup_seqZ in Hids as [Hids _]. lia.
Qed.

(** X8. The normalizer is idempotent: a non-empty list it returned,
    offered again as the ["filtering"] list of a reply, is returned
    unchanged. *)
Theorem normalize_idempotent (data : pyval) (n : Z) (out : list verdict) :
  _normalize_filtering_result data n = inr out -> out <> [] ->
  _normalize_filtering_result (verdicts_reply out) n = inr out.
Proof.
  intros Hres Hne.
  destruct (normalize_inv data n out Hres Hne) as (d & items & _ & _ & ->).
  unfold verdicts_reply.
  rewrite (normalize_dict _ (verdict_entry <$> normalize_spec n items))
    by reflexivity.
  by rewrite normalize_spec_idem.
Qed.

Lemma find_perm {A} (f : A -> bool) (l l' : list A) :
  l ≡ₚ l' ->
  (forall x y, x ∈ l -> y ∈ l -> f x = true -> f y = true -> x = y) ->
  find f l = find f l'.
Proof.
  intros Hperm Huniq.
  destruct (find f l) as [x|] eqn:Hx, (find f l') as [y|] eqn:Hy; [| | | done].
  - apply find_some in Hx as [Hx Hfx]. apply find_some in Hy as [Hy Hfy].
    apply list_elem_of_In in Hx, Hy. rewrite <- Hperm in Hy.
    f_equal. by apply Huniq.
  - apply find_some in Hx as [Hx Hfx]. apply list_elem_of_In in Hx.
    rewrite Hperm in Hx. apply list_elem_of_In in Hx.
    by rewrite (find_none _ _ Hy x Hx) in Hfx.
  - apply find_some in Hy as [Hy Hfy]. apply list_elem_of_In in Hy.
    rewrite <- Hperm in Hy. apply list_elem_of_In in Hy.
    by rewrite (find_none _ _ Hx y Hy) in Hfy.
Qed.

(** X9. The order of the entries of a reply matters only among
    entries that share an id: when any two entries of the ["filtering"]
    list whose ids convert to the same number are equal, every
    reordering of the list normalizes to the same result. *)
Theorem normalize_order_irrelevant (d d' : list (pystr * pyval))
    (items items' : list pyval) (n : Z) :
  dict_get d key_filtering = Some (PList items) ->
  dict_get d' key_filtering = Some (PList items') ->
  items ≡ₚ items' ->
  (forall x y i, x ∈ items -> y ∈ items ->
     entry_id x = Some i -> entry_id y = Some i -> x = y) ->
  _normalize_filtering_result (PDict d) n
  = _normalize_filtering_result (PDict d') n.
Proof.
  intros Hd Hd' Hperm Huniq.
  rewrite (normalize_dict d items n Hd), (normalize_dict d' items' n Hd').
  f_equal. unfold normalize_spec. apply list_fmap_ext. intros _ i _.
  unfold spec_verdict, first_entry.
  rewrite (find_perm (has_id i) items items' Hperm); [done |].
  intros x y Hx Hy Hfx Hfy. unfold has_id in Hfx, Hfy.
  apply bool_decide_eq_true in Hfx, Hfy. by apply (Huniq x y i).
Qed.

End NormalizerMore.

Lemma normalize_idempotent_witness :
  (Module2._normalize_filtering_result (H := no_builtins) sample_reply 3
   = inr sample_verdicts
   /\ sample_verdicts <> [])
  /\ Module2._normalize_filtering_result (H := no_builtins)
       (verdicts_reply sample_verdicts) 3
     = inr sample_verdicts.
Proof.
  assert (Hres : Module2._normalize_filtering_result (H := no_builtins)
                   sample_reply 3 = inr sample_verdicts)
    by (vm_compute; reflexivity).
  assert (Hne : sample_verdicts <> []) by (vm_compute; discriminate).
  split; [by split |].
  exact (normalize_idempotent (H := no_builtins) sample_reply 3
           sample_verdicts Hres Hne).
Defined.

(** Two entries with different ids, in both orders. *)
Definition demo_entries : list pyval :=
  [PDict [(U "id", PInt 2); (U "retain", PBool true)];
   PDict [(U "id", PInt 1); (U "retain", PBool false);
          (U "exclude_reason", PStr (U "无关"))]].

Lemma normalize_order_irrelevant_witness :
  Module2._normalize_filtering_result (H := no_builtins)
    (PDict [(U "filtering", PList demo_entries)]) 2
  = Module2._normalize_filtering_result (H := no_builtins)
      (PDict [(U "filtering", PList (rev demo_entries))]) 2.
Proof.
  apply (normalize_order_irrelevant (H := no_builtins)
           [(U "filtering", PList demo_entries)]
           [(U "filtering", PList (rev demo_entries))]
           demo_entries (rev demo_entries) 2).
  - reflexivity.
  - reflexivity.
  - apply Permutation_rev.
  - intros x y i Hx Hy Hix Hiy.
    apply list_elem_of_In in Hx, Hy.
    destruct Hx as [<- | [<- | []]], Hy as [<- | [<- | []]];
      vm_compute in Hix, Hiy; congruence.
Defined.

(** ** The batch filter: locality, worst case and best case *)

Section ClassifierMore.
Import Module2.
Context `{PyBuiltins} {St : Type}.
Variable call : St -> list batch_item -> St * (exn + pyval).
Variable unique_codes : list pystr.
Variable max_retries_each_batch : Z.

Local Abbreviation range_len := (range_len unique_codes).
Local Abbreviation bisects := (bisects call unique_codes max_retries_each_batch).
Local Abbreviation process_range :=
  (process_range call unique_codes max_retries_each_batch).

(** A run over [a, b) leaves every id outside the range alone. *)
Lemma bisects_frame (a b : Z) (s s' : pstate St) :
  bisects a b s s' -> 0 <= a <= b ->
  forall gid, ~ a < gid <= a + range_len a b ->
    id2retain s' !! gid = id2retain s !! gid
    /\ id2reason s' !! gid = id2reason s !! gid.
Proof.
  induction 1 as [a b s Hz | a b s s' Hnz Hrun | a b s s1 e Hone Hrun
                 | a b s s1 e s2 s3 Hn Hrun _ IH1 _ IH2];
    intros Hab gid Hout.
  - done.
  - rewrite run_attempts_eq in Hrun by done.
    apply attempts_spec_Done in Hrun
      as (s0 & d & items & [Hr Hs] & _ & _ & _ & Hn & ->).
    destruct (record_spec_lookup a (range_len a b) items
                (after_call (call (oracle s0)
                   (make_batch_items (slice unique_codes a b))).1 s0) gid)
      as [-> ->]; [lia |].
    rewrite !decide_False by lia. simpl. by rewrite Hr, Hs.
  - rewrite run_attempts_eq in Hrun by done.
    apply attempts_spec_Exhausted in Hrun as [[Hr Hs] _].
    simpl. rewrite !lookup_insert_ne by lia. by rewrite Hr, Hs.
  - rewrite run_attempts_eq in Hrun by done.
    apply attempts_spec_Exhausted in Hrun as [[Hr Hs] _].
    destruct (range_len_halves unique_codes a b Hab Hn)
      as (Hm & Hl & Hrr & Hl' & _).
    rewrite Hl in Hl'.
    destruct (IH2 ltac:(lia) gid ltac:(lia)) as [-> ->].
    destruct (IH1 ltac:(lia) gid ltac:(lia)) as [-> ->].
    by rewrite Hr, Hs.
Qed.

(** X10. Locality: a call of [process_range] on [start, end) never
    writes a verdict for an id outside [start + 1 .. end], whatever
    the oracle answers. *)
Theorem process_range_frame (start_idx end_idx : Z) (s s' : pstate St)
    (gid : Z) :
  0 <= start_idx <= end_idx ->
  process_range start_idx end_idx s = Some (inr s') ->
  ~ start_idx < gid <= end_idx ->
  id2retain s' !! gid = id2retain s !! gid
  /\ id2reason s' !! gid = id2reason s !! gid.
Proof.
  intros Hab Hrun Hout.
  destruct (process_range_bisects call unique_codes max_retries_each_batch
              start_idx end_idx s Hab) as (s'' & Hb & Hp & _).
  rewrite Hp in Hrun. injection Hrun as <-.
  apply (bisects_frame _ _ _ _ Hb Hab).
  pose proof (range_len_le unique_codes start_idx end_idx Hab). lia.
Qed.

(** *** An oracle that never gives a usable reply *)

Section AllFail.
Hypothesis all_fail :
  forall o sub,
    unusable_reply (Z.of_nat (length sub)) (call o (make_batch_items sub)).2.

Lemma all_fail_exhausted (k : nat) (sub : list pystr) (a : Z)
    (last_err : option exn) (s : pstate St) :
  exists s' e,
    attempts_spec call k (make_batch_items sub) a (Z.of_nat (length sub))
      last_err s = Exhausted s' e
    /\ same_dicts s s' /\ calls s' = (calls s + k)%nat.
Proof.
  destruct (attempts_spec call k (make_batch_items sub) a
              (Z.of_nat (length sub)) last_err s) as [s' | s' e] eqn:Hrun.
  - apply attempts_spec_Done in Hrun
      as (s0 & d & items & _ & _ & Hcall & Hget & Hn & _).
    pose proof (all_fail (oracle s0) sub) as Hbad.
    rewrite Hcall in Hbad. simpl in Hbad.
    rewrite (normalize_dict d items _ Hget) in Hbad.
    pose proof (normalize_spec_nonempty _ items Hn).
    by destruct (normalize_spec (Z.of_nat (length sub)) items).
  - exists s', e. split; [done |].
    by apply attempts_spec_Exhausted in Hrun.
Qed.

(** The state after a run with such an oracle: the full bisection tree
    was visited, and every code of the range carries the single-item
    failure default. *)
Lemma bisects_all_fail (a b : Z) (s s' : pstate St) :
  bisects a b s s' -> 0 <= a <= b ->
  Z.of_nat (calls s')
  = Z.of_nat (calls s)
    + Z.max 0 max_retries_each_batch * Z.max 0 (2 * range_len a b - 1)
  /\ forall gid, a < gid <= a + range_len a b ->
       id2retain s' !! gid = Some false
       /\ exists e, id2reason s' !! gid
                    = Some (single_failure_prefix ++ repr_last_err e).
Proof.
  induction 1 as [a b s Hz | a b s s' Hnz Hrun | a b s s1 e Hone Hrun
                 | a b s s1 e s2 s3 Hn Hrun Hb1 IH1 Hb2 IH2];
    intros Hab.
  - rewrite Hz. split; [lia |]. intros gid Hg. lia.
  - rewrite run_attempts_eq in Hrun by done.
    destruct (all_fail_exhausted (Z.to_nat max_retries_each_batch)
                (slice unique_codes a b) a None s) as (s1 & e & Hex & _).
    fold (range_len a b) in Hex. congruence.
  - rewrite run_attempts_eq in Hrun by done.
    apply attempts_spec_Exhausted in Hrun as [_ Hc].
    simpl. rewrite Hone. split; [lia |].
    intros gid Hg. replace gid with (a + 1) by lia.
    rewrite !lookup_insert_eq. split; [done | by exists e].
  - rewrite run_attempts_eq in Hrun by done.
    apply attempts_spec_Exhausted in Hrun as [_ Hc].
    destruct (range_len_halves unique_codes a b Hab Hn)
      as (Hm & Hl & Hrr & Hl' & Hr').
    destruct (IH1 ltac:(lia)) as [C1 V1].
    destruct (IH2 ltac:(lia)) as [C2 V2].
    rewrite Hl in C1, V1, Hl'. rewrite Hrr in C2, V2. split.
    + set (n := range_len a b) in *. set (h := n / 2) in *. nia.
    + intros gid Hg.
      destruct (decide (gid <= a + range_len a b / 2)) as [Hlo | Hhi].
      * destruct (bisects_frame _ _ _ _ Hb2 ltac:(lia) gid ltac:(lia))
          as [-> ->].
        apply V1. lia.
      * apply V2. lia.
Qed.

(** X11. The worst case is attained: when no attempt ever succeeds,
    [process_range] on [n >= 1] codes makes exactly
    [max_retries_each_batch * (2 n - 1)] calls (none when the retry
    budget is zero or negative), and every code of the range ends with
    [retain = false] and the single-item failure reason. *)
Theorem process_range_all_fail (start_idx end_idx : Z) (s : pstate St) :
  0 <= start_idx <= end_idx ->
  end_idx <= Z.of_nat (length unique_codes) ->
  exists s',
    process_range start_idx end_idx s = Some (inr s')
    /\ Z.of_nat (calls s')
       = Z.of_nat (calls s)
         + Z.max 0 max_retries_each_batch
           * Z.max 0 (2 * (end_idx - start_idx) - 1)
    /\ forall gid, start_idx < gid <= end_idx ->
         id2retain s' !! gid = Some false
         /\ exists e, id2reason s' !! gid
                      = Some (single_failure_prefix ++ repr_last_err e).
Proof.
  intros Hab Hb.
  destruct (process_range_bisects call unique_codes max_retries_each_batch
              start_idx end_idx s Hab) as (s' & Hbis & Hp & _).
  exists s'. split; [done |].
  assert (Hlen : range_len start_idx end_idx = end_idx - start_idx)
    by (rewrite range_len_eq by done; lia).
  destruct (bisects_all_fail _ _ _ _ Hbis Hab) as [Hc Hv].
  rewrite Hlen in Hc, Hv. split; [done |].
  intros gid Hg. apply Hv. lia.
Qed.

End AllFail.

(** *** An oracle that answers every batch *)

Section AllAnswered.
Variable model_retain : pystr -> bool.
Variable model_reason : pystr -> pystr.

Hypothesis answers :
  forall o sub, sub <> [] ->
    exists data,
      (call o (make_batch_items sub)).2 = inr data
      /\ _normalize_filtering_result data (Z.of_nat (length sub))
         = inr (model_verdicts model_retain model_reason sub).
Hypothesis at_least_one_attempt : 1 <= max_retries_each_batch.

(** One range: a single call, the verdicts of the model for the codes
    of the range, and no other write. *)
Lemma process_range_answered (a b : Z) (s : pstate St) :
  0 <= a < b -> b <= Z.of_nat (length unique_codes) ->
  exists s',
    process_range a b s = Some (inr s')
    /\ calls s' = S (calls s)
    /\ (forall gid, ~ a < gid <= b ->
          id2retain s' !! gid = id2retain s !! gid
          /\ id2reason s' !! gid = id2reason s !! gid)
    /\ forall (i : nat) (txt : pystr),
         a <= Z.of_nat i < b -> unique_codes !! i = Some txt ->
         id2retain s' !! (Z.of_nat i + 1) = Some (model_retain txt)
         /\ id2reason s' !! (Z.of_nat i + 1) = Some (model_reason txt).
Proof.
  intros Hab Hb.
  assert (Hlen : range_len a b = b - a)
    by (rewrite range_len_eq by lia; lia).
  set (sub := slice unique_codes a b).
  assert (Hsub : range_len a b = Z.of_nat (length sub)) by done.
  assert (Hne : sub <> [])
    by (intros E; rewrite E in Hsub; simpl in Hsub; lia).
  destruct (answers (oracle s) sub Hne) as (data & Hcall & Hnorm).
  destruct (normalize_inv data _ _ Hnorm
              (model_verdicts_nonempty model_retain model_reason sub Hne))
    as (d & items & -> & Hget & Hmodel).
  set (s' := record_all a (normalize_spec (range_len a b) items)
               (after_call (call (oracle s) (make_batch_items sub)).1 s)).
  assert (Hrun : run_attempts call unique_codes max_retries_each_batch a b s
                 = Done s').
  { rewrite run_attempts_eq by lia.
    destruct (Z.to_nat max_retries_each_batch) as [|k] eqn:Hk; [lia |].
    apply (attempts_spec_first_success _ _ _ _ _ _ _ d items);
      [done | done | lia]. }
  exists s'. split_and!.
  - unfold Module2.process_range. cbn [process_range_fuel].
    fold (range_len a b).
    fold (run_attempts call unique_codes max_retries_each_batch a b s).
    rewrite Hrun. by destruct (range_len a b =? 0) eqn:E; [lia |].
  - subst s'.
    by destruct (record_all_oracle a (normalize_spec (range_len a b) items)
      (after_call (call (oracle s) (make_batch_items sub)).1 s)) as [_ ->].
  - intros gid Hout. subst s'.
    destruct (record_spec_lookup a (range_len a b) items
                (after_call (call (oracle s) (make_batch_items sub)).1 s) gid)
      as [-> ->]; [lia |].
    by rewrite !decide_False by lia.
  - intros i txt Hi Htxt. subst s'.
    destruct (record_spec_lookup a (range_len a b) items
                (after_call (call (oracle s) (make_batch_items sub)).1 s)
                (Z.of_nat i + 1)) as [-> ->]; [lia |].
    rewrite !decide_True by lia. rewrite strip_spec_verdict.
    pose proof (lookup_normalize_spec (range_len a b) items
                  (Z.of_nat i + 1 - a) ltac:(lia)) as Hl.
    rewrite Hsub, <- Hmodel in Hl. unfold model_verdicts in Hl.
    rewrite list_lookup_imap in Hl.
    replace (Z.to_nat (Z.of_nat i + 1 - a - 1)) with (i - Z.to_nat a)%nat
      in Hl by lia.
    subst sub. rewrite lookup_range_codes, Htxt in Hl by lia.
    simpl in Hl. injection Hl as <-. done.
Qed.

(** The top-level batches [j, .., j + c - 1]. *)
Lemma process_batches_answered (c j : nat) (batch_size : Z) (s : pstate St) :
  1 <= batch_size ->
  let total := Z.of_nat (length unique_codes) in
  (forall k, (j <= k < j + c)%nat -> Z.of_nat k * batch_size < total) ->
  exists s',
    process_batches call unique_codes max_retries_each_batch
      (map (fun k => Z.of_nat k * batch_size) (seq j c)) batch_size total s
    = Some (inr s')
    /\ calls s' = (calls s + c)%nat
    /\ (forall gid,
          ~ Z.of_nat j * batch_size < gid
            <= Z.min (Z.of_nat (j + c) * batch_size) total ->
          id2retain s' !! gid = id2retain s !! gid
          /\ id2reason s' !! gid = id2reason s !! gid)
    /\ forall (i : nat) (txt : pystr),
         Z.of_nat j * batch_size <= Z.of_nat i
           < Z.min (Z.of_nat (j + c) * batch_size) total ->
         unique_codes !! i = Some txt ->
         id2retain s' !! (Z.of_nat i + 1) = Some (model_retain txt)
         /\ id2reason s' !! (Z.of_nat i + 1) = Some (model_reason txt).
Proof.
  intros HB total. revert j s. induction c as [|c IH]; intros j s Hstarts.
  - exists s. split_and!; [done | lia | done |]. intros i txt Hi. lia.
  - cbn [seq map process_batches].
    assert (Ha : Z.of_nat j * batch_size < total) by (apply Hstarts; lia).
    set (a := Z.of_nat j * batch_size) in *.
    set (b := Z.min (a + batch_size) total).
    assert (Hab : 0 <= a < b) by (subst a b; nia).
    destruct (process_range_answered a b s Hab ltac:(subst b total; lia))
      as (s1 & Hp & Hc1 & F1 & V1).
    rewrite Hp.
    destruct (IH (S j) s1) as (s' & Hrun & Hc & F & V);
      [intros k Hk; apply Hstarts; lia |].
    assert (Hnext : Z.of_nat (S j) * batch_size = a + batch_size)
      by (subst a; nia).
    replace (S j + c)%nat with (j + S c)%nat in F, V by lia.
    assert (Hend : a + batch_size <= Z.of_nat (j + S c) * batch_size)
      by (subst a; nia).
    rewrite Hnext in F, V.
    exists s'. split_and!; [done | lia | |].
    + intros gid Hout.
      destruct (F gid ltac:(subst b; lia)) as [-> ->].
      apply F1. subst b. lia.
    + intros i txt Hi Htxt.
      destruct (decide (Z.of_nat i < a + batch_size)) as [Hlo | Hhi].
      * destruct (F (Z.of_nat i + 1) ltac:(lia)) as [-> ->].
        apply V1; [subst b; lia | done].
      * apply V; [lia | done].
Qed.

(** X12. The best case: with an oracle that answers every batch with
    the verdicts of the model, the stage makes exactly one call per
    top-level batch, [ceil(N / batch_size)] in all, and the
    dictionaries it returns hold for every code the verdict of the
    model. *)
Theorem filter_all_answered (batch_size : Z) (o : St) :
  1 <= batch_size ->
  exists s,
    filter_unique_codes_with_batching call unique_codes
      max_retries_each_batch batch_size o
    = Some (inr (s, id2code unique_codes))
    /\ Z.of_nat (calls s)
       = (Z.of_nat (length unique_codes) + batch_size - 1) / batch_size
    /\ forall (i : nat) (txt : pystr),
         unique_codes !! i = Some txt ->
         id2retain s !! (Z.of_nat i + 1) = Some (model_retain txt)
         /\ id2reason s !! (Z.of_nat i + 1) = Some (model_reason txt).
Proof.
  intros HB. unfold filter_unique_codes_with_batching, range_step.
  set (total := Z.of_nat (length unique_codes)).
  destruct (batch_size =? 0) eqn:E0; [lia |].
  destruct (batch_size <? 0) eqn:E1; [lia |].
  set (c := Z.to_nat ((total + batch_size - 1) / batch_size)).
  assert (Hq : 0 <= (total + batch_size - 1) / batch_size)
    by (apply Z.div_pos; lia).
  pose proof (Z.mul_div_le (total + batch_size - 1) batch_size ltac:(lia))
    as Hlo.
  pose proof (Z.mul_succ_div_gt (total + batch_size - 1) batch_size
                ltac:(lia)) as Hhi.
  destruct (process_batches_answered c 0 batch_size (mkState o 0 ∅ ∅) HB)
    as (s & Hrun & Hc & _ & V).
  { intros k Hk. fold total. subst c. nia. }
  fold total in Hrun. rewrite Hrun. exists s. split_and!; [done | |].
  - rewrite Hc. simpl. subst c. lia.
  - intros i txt Htxt. apply V; [| done].
    pose proof (lookup_lt_Some _ _ _ Htxt) as Hlt.
    fold total. subst c. simpl. rewrite Z2Nat.id by done. nia.
Qed.

End AllAnswered.

(** X13. A batch size that is not positive: with [batch_size = 0] the
    stage raises [ValueError] (from [range]) before any call; with a
    negative batch size the loop over the batches is empty, so the
    stage returns empty verdict dictionaries, without a call, next to
    the full [id2code]: no code is classified. *)
Theorem filter_batch_size_not_positive (batch_size : Z) (o : St) :
  batch_size <= 0 ->
  filter_unique_codes_with_batching call unique_codes
    max_retries_each_batch batch_size o
  = if decide (batch_size = 0)
    then Some (inl (ValueError (U "range() arg 3 must not be zero")))
    else Some (inr (mkState o 0 ∅ ∅, id2code unique_codes)).
Proof.
  intros HB. unfold filter_unique_codes_with_batching, range_step.
  case_decide as H0.
  - subst batch_size. done.
  - destruct (batch_size =? 0) eqn:E0; [lia |].
    destruct (batch_size <? 0) eqn:E1; [done | lia].
Qed.

End ClassifierMore.

(** An oracle that answers every batch item by item. *)
Definition answering_oracle (o : nat) (items : list Module2.batch_item)
    : nat * (exn + pyval) :=
  (S o, inr (reply_of demo_retain demo_reason items)).

(** The reason the normalizer keeps of the model's answer. *)
Definition demo_kept_reason (txt : pystr) : pystr :=
  if demo_retain txt then [] else strip (demo_reason txt).

Lemma process_range_frame_witness :
  exists s',
    Module2.process_range (H := no_builtins) failing_oracle demo_codes 2
      0 2 demo_state = Some (inr s')
    /\ Module2.id2retain s' !! 3 = Module2.id2retain demo_state !! 3
    /\ Module2.id2reason s' !! 3 = Module2.id2reason demo_state !! 3.
Proof.
  destruct (process_range_bisects (H := no_builtins) failing_oracle
              demo_codes 2 0 2 demo_state ltac:(lia)) as (s' & _ & Hp & _).
  exists s'. split; [exact Hp |].
  apply (process_range_frame (H := no_builtins) failing_oracle demo_codes 2
           0 2 demo_state s' 3); [lia | exact Hp | lia].
Defined.

Lemma process_range_all_fail_witness :
  exists s',
    Module2.process_range (H := no_builtins) failing_oracle demo_codes 2
      0 3 demo_state = Some (inr s')
    /\ Z.of_nat (Module2.calls s') = 10.
Proof.
  destruct (process_range_all_fail (H := no_builtins) failing_oracle
              demo_codes 2 (fun o sub => I) 0 3 demo_state)
    as (s' & Hrun & Hcalls & _).
  - lia.
  - vm_compute. discriminate.
  - exists s'. split; [exact Hrun | exact Hcalls].
Defined.

Lemma filter_all_answered_witness :
  exists s,
    Module2.filter_unique_codes_with_batching (H := no_builtins)
      answering_oracle demo_codes 2 2 0%nat
    = Some (inr (s, Module2.id2code demo_codes))
    /\ Z.of_nat (Module2.calls s) = 2
    /\ Module2.id2retain s !! 3 = Some false
    /\ Module2.id2reason s !! 3 = Some (U "与研究主题无关").
Proof.
  destruct (filter_all_answered (H := no_builtins) answering_oracle
              demo_codes 2 demo_retain demo_kept_reason)
    with (batch_size := 2) (o := 0%nat) as (s & Hrun & Hcalls & Hv).
  - intros o sub Hne. unfold answering_oracle. cbn [snd].
    eexists. split; [reflexivity |].
    apply (normalize_reply_of (H := no_builtins)).
  - lia.
  - lia.
  - exists s. split; [exact Hrun |]. split; [exact Hcalls |].
    exact (Hv 2%nat (U "很累") eq_refl).
Defined.

Lemma filter_batch_size_not_positive_witness :
  Module2.filter_unique_codes_with_batching (H := no_builtins)
    failing_oracle demo_codes 2 (-1) 0%nat
  = if decide (-1 = 0)
    then Some (inl (ValueError (U "range() arg 3 must not be zero")))
    else Some (inr (Module2.mkState 0%nat 0 ∅ ∅, Module2.id2code demo_codes)).
Proof.
  apply (filter_batch_size_not_positive (H := no_builtins) failing_oracle
           demo_codes 2 (-1) 0%nat).
  lia.
Defined.

(** * Module1_open_coding.py: coding the answers *)

Module OpenCoding.

Definition key_open_code : pystr := U "open_code".
Definition quote : N := 34%N.
Definition colon : N := 58%N.

(** The literal the pattern starts with: [open_code] in double
    quotes. *)
Definition quoted_key : pystr := quote :: key_open_code ++ [quote].

(** The longest prefix without a double quote, and what follows it. *)
Fixpoint span_unquoted (s : pystr) : pystr * pystr :=
  match s with
  | [] => ([], [])
  | c :: r =>
    if (c =? quote)%N then ([], s)
    else let '(g, rest) := span_unquoted r in (c :: g, rest)
  end.

(** A match of the pattern at the start of [s]: the quoted key, white
    space, a colon, white space, a double quote, one or more characters
    other than a double quote (group 1), a double quote.  The result is
    the text of group 1.  Every repetition of the pattern is followed by
    a character outside its class, so the greedy match is the only
    one. *)
Definition match_open_code_at (s : pystr) : option pystr :=
  if startswith quoted_key s then
    match lstrip (drop (length quoted_key) s) with
    | c :: r =>
      if (c =? colon)%N then
        match lstrip r with
        | q :: body =>
          if (q =? quote)%N then
            match span_unquoted body with
            | ((_ :: _) as g, q' :: _) =>
              if (q' =? quote)%N then Some g else None
            | _ => None
            end
          else None
        | [] => None
        end
      else None
    | [] => None
    end
  else None.

(** [re.search(pattern, raw_text)]: group 1 of the leftmost match. *)
Fixpoint search_open_code (s : pystr) : option pystr :=
  match match_open_code_at s with
  | Some g => Some g
  | None =>
    match s with
    | [] => None
    | _ :: r => search_open_code r
    end
  end.

Definition failure_prefix : pystr := U "[API 调用多次失败: ".
Definition failure_suffix : pystr := U "]".

(** One row of the table [run_open_coding_from_text] returns. *)
Record row := mkRow {
  row_id : Z;
  row_question : pystr;
  row_answer : pystr;
  row_open_code : pystr
}.

Section Coder.
Context `{PyBuiltins} {St : Type}.
Variable json_loads : pystr -> option pyval.

(** The HTTP round trip for one question and answer, up to the access
    to [choices[0].message.content]: it raises, or yields the value
    found there. *)
Variable post : St -> pystr -> pystr -> St * (exn + pyval).

(** What the [try] block makes of a stripped reply text. *)
Definition code_of_text (raw_text : pystr) : pystr :=
  let fallback :=
    match search_open_code raw_text with
    | Some g => strip g
    | None => raw_text
    end in
  match Module1.safe_parse_json json_loads (PStr raw_text) with
  | PDict d =>
    match dict_get d key_open_code with
    | Some v => strip (py_str v)
    | None => fallback
    end
  | _ => fallback
  end.

(** The [try] block after the round trip: [content.strip()] raises
    [AttributeError] on a value that is not a string. *)
Definition code_of_content (content : pyval) : exn + pystr :=
  match content with
  | PStr t => inr (code_of_text (strip t))
  | _ => inl AttributeError
  end.

(** [for attempt in range(1, max_retries + 1)], [k] iterations left;
    [calls] counts the round trips. *)
Fixpoint coding_attempts (k : nat) (question answer : pystr)
    (last_err : option exn) (o : St) (calls : nat) : St * nat * pystr :=
  match k with
  | O =>
    (o, calls,
     failure_prefix ++ Module2.repr_last_err last_err ++ failure_suffix)
  | S k' =>
    let '(o', r) := post o question answer in
    match r with
    | inl e => coding_attempts k' question answer (Some e) o' (S calls)
    | inr content =>
      match code_of_content content with
      | inl e => coding_attempts k' question answer (Some e) o' (S calls)
      | inr code => (o', S calls, code)
      end
    end
  end.

Definition open_code_answer (question answer : pystr) (max_retries : Z)
    (o : St) (calls : nat) : St * nat * pystr :=
  coding_attempts (Z.to_nat max_retries) question answer None o calls.

(** [for idx, block in enumerate(qa_blocks, start=1)];
    [open_code_answer] is called with its default [max_retries = 3]. *)
Fixpoint code_blocks (idx : Z) (qa_blocks : list Module1.QABlock)
    (o : St) (calls : nat) : St * nat * list row :=
  match qa_blocks with
  | [] => (o, calls, [])
  | block :: rest =>
    let '(o1, calls1, code) :=
      open_code_answer (Module1.question block) (Module1.answer block) 3
        o calls in
    let '(o2, calls2, rows) := code_blocks (idx + 1) rest o1 calls1 in
    (o2, calls2,
     mkRow idx (Module1.question block) (Module1.answer block) code :: rows)
  end.

(** The rows of the returned table, with the final state of the remote
    model and the number of round trips. *)
Definition run_open_coding_from_text (text : pystr) (o : St)
    : St * nat * list row :=
  code_blocks 1 (Module1.parse_qa_blocks text) o 0.

End Coder.

End OpenCoding.

(** ** Properties of the coder *)

Section CoderProperties.
Import OpenCoding.
Context `{PyBuiltins} {St : Type}.
Variable json_loads : pystr -> option pyval.
Variable post : St -> pystr -> pystr -> St * (exn + pyval).
Variables question answer : pystr.

Local Abbreviation code_of_text := (code_of_text json_loads).
Local Abbreviation code_of_content := (code_of_content json_loads).
Local Abbreviation coding_attempts := (coding_attempts json_loads post).
Local Abbreviation open_code_answer := (open_code_answer json_loads post).

(** The exception caught in the attempt made in state [o], if any. *)
Definition attempt_error (o : St) : option exn :=
  match (post o question answer).2 with
  | inl e => Some e
  | inr content =>
    match code_of_content content with
    | inl e => Some e
    | inr _ => None
    end
  end.

(** The state of the remote model after [i] round trips. *)
Fixpoint state_after (i : nat) (o : St) : St :=
  match i with
  | O => o
  | S i' => state_after i' (post o question answer).1
  end.

Lemma state_after_S (i : nat) (o : St) :
  state_after (S i) o = (post (state_after i o) question answer).1.
Proof. revert o. induction i as [|i IH]; intros o; [done |]. apply IH. Qed.

(** The loop skips over failed attempts. *)
Lemma coding_attempts_skip (j k : nat) (last_err : option exn) (o : St)
    (calls : nat) :
  (forall i, (i < j)%nat -> is_Some (attempt_error (state_after i o))) ->
  exists e,
    coding_attempts (j + k) question answer last_err o calls
    = coding_attempts k question answer e (state_after j o) (calls + j)
    /\ (j = 0%nat -> e = last_err)
    /\ ((0 < j)%nat -> e = attempt_error (state_after (j - 1) o)).
Proof.
  revert last_err o calls. induction j as [|j IH]; intros last_err o calls Hf.
  - exists last_err. simpl. rewrite Nat.add_0_r. split_and!; [done | done | lia].
  - pose proof (Hf 0%nat ltac:(lia)) as H0. simpl in H0.
    destruct (IH (attempt_error o) (post o question answer).1 (S calls))
      as (e & Hrun & He0 & He).
    { intros i Hi. apply (Hf (S i)). lia. }
    exists e. split_and!.
    + cbn [Nat.add OpenCoding.coding_attempts state_after].
      replace (calls + S j)%nat with (S calls + j)%nat by lia.
      rewrite <- Hrun. unfold attempt_error in *.
      destruct (post o question answer) as [o1 [e1 | content]]; simpl in *;
        [done |].
      destruct (code_of_content content) as [e1 | code]; [done |].
      by destruct H0.
    + done.
    + intros _. destruct j as [|j]; [by rewrite He0 |].
      rewrite He by lia. simpl. by rewrite Nat.sub_0_r.
Qed.

(** X14. The first usable reply is final: when the first [k] round
    trips fail (the call raises, or the content is not a string) and
    the next one, still within the retry budget, yields a string, the
    function returns what the [try] block makes of that string, after
    exactly [k + 1] round trips; a reply that is a string is never
    retried, whatever its text. *)
Theorem open_code_answer_first_reply (max_retries : Z) (k : nat)
    (o o' : St) (calls : nat) (t : pystr) :
  Z.of_nat k < max_retries ->
  (forall i, (i < k)%nat -> is_Some (attempt_error (state_after i o))) ->
  post (state_after k o) question answer = (o', inr (PStr t)) ->
  open_code_answer question answer max_retries o calls
  = (o', S (calls + k), code_of_text (strip t)).
Proof.
  intros Hk Hfail Hpost. unfold OpenCoding.open_code_answer.
  replace (Z.to_nat max_retries)
    with (k + S (Z.to_nat max_retries - S k))%nat by lia.
  destruct (coding_attempts_skip k (S (Z.to_nat max_retries - S k)) None o
              calls Hfail) as (e & -> & _).
  cbn [OpenCoding.coding_attempts]. by rewrite Hpost.
Qed.

(** X15. When every round trip of the retry budget fails, the function
    returns the failure marker built from the last exception (from
    [None] when the budget is zero or negative, in which case no round
    trip is made), after exactly [max(0, max_retries)] round trips. *)
Theorem open_code_answer_all_fail (max_retries : Z) (o : St) (calls : nat) :
  (forall i, Z.of_nat i < max_retries ->
     is_Some (attempt_error (state_after i o))) ->
  exists e,
    open_code_answer question answer max_retries o calls
    = (state_after (Z.to_nat max_retries) o,
       (calls + Z.to_nat max_retries)%nat,
       failure_prefix ++ Module2.repr_last_err e ++ failure_suffix)
    /\ (max_retries <= 0 -> e = None)
    /\ (0 < max_retries ->
        e = attempt_error (state_after (Z.to_nat max_retries - 1) o)).
Proof.
  intros Hfail. unfold OpenCoding.open_code_answer.
  destruct (coding_attempts_skip (Z.to_nat max_retries) 0 None o calls)
    as (e & Hrun & He0 & He).
  { intros i Hi. apply Hfail. lia. }
  rewrite Nat.add_0_r in Hrun. exists e. split_and!.
  - by rewrite Hrun.
  - intros Hle. apply He0. lia.
  - intros Hlt. apply He. lia.
Qed.

(** *** The result carries no outer white space *)

Lemma rstrip_snoc_clean (s : pystr) (c : N) :
  isspace c = false -> rstrip (s ++ [c]) = s ++ [c].
Proof.
  intros Hc. unfold rstrip. rewrite rev_app_distr. simpl. rewrite Hc.
  simpl. by rewrite rev_involutive.
Qed.

Lemma strip_failure_marker (x : pystr) :
  strip (failure_prefix ++ x ++ failure_suffix)
  = failure_prefix ++ x ++ failure_suffix.
Proof.
  unfold strip. rewrite lstrip_clean by done.
  rewrite !app_assoc. by apply rstrip_snoc_clean.
Qed.

Lemma strip_code_of_text (t : pystr) :
  strip (code_of_text (strip t)) = code_of_text (strip t).
Proof.
  unfold OpenCoding.code_of_text.
  assert (Hfb : strip match search_open_code (strip t) with
                      | Some g => strip g
                      | None => strip t
                      end
                = match search_open_code (strip t) with
                  | Some g => strip g
                  | None => strip t
                  end)
    by (destruct (search_open_code (strip t)); apply strip_idem).
  destruct (Module1.safe_parse_json json_loads (PStr (strip t)));
    try exact Hfb.
  destruct (dict_get d key_open_code); [apply strip_idem | exact Hfb].
Qed.

Lemma strip_coding_attempts (k : nat) (last_err : option exn) (o o' : St)
    (calls n : nat) (code : pystr) :
  coding_attempts k question answer last_err o calls = (o', n, code) ->
  strip code = code /\ (calls <= n <= calls + k)%nat.
Proof.
  revert last_err o calls. induction k as [|k IH]; intros last_err o calls.
  - simpl. intros [= <- <- <-]. split; [apply strip_failure_marker | lia].
  - cbn [OpenCoding.coding_attempts].
    destruct (post o question answer) as [o1 [e | content]].
    + intros Hrun. apply IH in Hrun as [Hs Hc]. split; [done | lia].
    + destruct content as [| | | | t | |];
        try (intros Hrun; apply IH in Hrun as [Hs Hc]; split; [done | lia]).
      simpl. intros [= <- <- <-]. split; [apply strip_code_of_text | lia].
Qed.

Lemma open_code_answer_stripped_aux (max_retries : Z) (o o' : St)
    (calls n : nat) (code : pystr) :
  open_code_answer question answer max_retries o calls = (o', n, code) ->
  strip code = code
  /\ (calls <= n <= calls + Z.to_nat max_retries)%nat.
Proof. apply strip_coding_attempts. Qed.

(** X16. Whatever the remote model does, [open_code_answer] returns a
    text without leading or trailing white space (the reply text, the
    value of [open_code], the group of the pattern and the failure
    marker are all stripped), and it makes at most
    [max(0, max_retries)] round trips. *)
Theorem open_code_answer_stripped (max_retries : Z) (o o' : St)
    (calls n : nat) (code : pystr) :
  open_code_answer question answer max_retries o calls = (o', n, code) ->
  strip code = code
  /\ (calls <= n)%nat
  /\ Z.of_nat n <= Z.of_nat calls + Z.max 0 max_retries.
Proof.
  intros Hrun. apply strip_coding_attempts in Hrun as [Hs Hc].
  split_and!; [done | lia | lia].
Qed.

End CoderProperties.

(** *** The pattern fallback *)

Section PatternFallback.
Import OpenCoding.
Context `{PyBuiltins}.
Variable json_loads : pystr -> option pyval.

Lemma startswith_app (p s : pystr) : startswith p (p ++ s) = true.
Proof. induction p as [|c p IH]; [done |]. simpl. by rewrite N.eqb_refl. Qed.

Lemma span_unquoted_app (body rest : pystr) :
  quote ∉ body ->
  span_unquoted (body ++ quote :: rest) = (body, quote :: rest).
Proof.
  induction body as [|c body IH]; intros Hnot.
  - reflexivity.
  - cbn [app span_unquoted].
    rewrite (proj2 (N.eqb_neq c quote)) by (intros ->; apply Hnot; left).
    rewrite IH; [done |]. intros Hin. apply Hnot. by right.
Qed.

Lemma lstrip_white_then (ws : pystr) (c : N) (s : pystr) :
  white ws -> isspace c = false -> lstrip (ws ++ c :: s) = c :: s.
Proof.
  intros Hws Hc. rewrite lstrip_white_app by done. simpl. by rewrite Hc.
Qed.

(** The pattern matches where its parts stand one after the other. *)
Lemma match_open_code_at_hit (ws1 ws2 body rest : pystr) :
  white ws1 -> white ws2 -> body <> [] -> quote ∉ body ->
  match_open_code_at
    (quoted_key ++ ws1 ++ [colon] ++ ws2 ++ [quote] ++ body
     ++ [quote] ++ rest)
  = Some body.
Proof.
  intros H1 H2 Hne Hnot. unfold match_open_code_at.
  rewrite startswith_app, drop_app_length.
  cbn [app]. rewrite (lstrip_white_then ws1 colon) by done.
  rewrite N.eqb_refl.
  rewrite (lstrip_white_then ws2 quote) by done.
  rewrite N.eqb_refl, span_unquoted_app by done.
  destruct body; [done |]. by rewrite N.eqb_refl.
Qed.

(** No match starts in a text without a double quote. *)
Lemma search_open_code_skip (pre s : pystr) :
  quote ∉ pre -> search_open_code (pre ++ s) = search_open_code s.
Proof.
  induction pre as [|c pre IH]; intros Hnot; [done |].
  cbn [app search_open_code].
  assert (Hc : (quote =? c)%N = false)
    by (apply N.eqb_neq; intros <-; apply Hnot; left).
  unfold match_open_code_at at 1. unfold quoted_key at 1.
  cbn [startswith]. rewrite Hc. cbn [andb].
  apply IH. intros Hin. apply Hnot. by right.
Qed.

(** X17. The pattern recovers the code from a reply that is not JSON
    (a truncated object, say): when the extractor gives [None] and the
    text holds, after a part without double quote, the quoted key, a
    colon and a quoted non-empty text, with any white space around the
    colon, the [try] block returns that text, stripped. *)
Theorem code_of_text_recovers (pre ws1 ws2 body rest : pystr) :
  let raw_text :=
    pre ++ quoted_key ++ ws1 ++ [colon] ++ ws2 ++ [quote] ++ body
    ++ [quote] ++ rest in
  quote ∉ pre -> white ws1 -> white ws2 -> body <> [] -> quote ∉ body ->
  Module1.safe_parse_json json_loads (PStr raw_text) = PNone ->
  code_of_text json_loads raw_text = strip body.
Proof.
  intros raw_text Hpre H1 H2 Hne Hnot Hnone. unfold code_of_text.
  rewrite Hnone. subst raw_text.
  rewrite search_open_code_skip by done.
  destruct (quoted_key ++ ws1 ++ [colon] ++ ws2 ++ [quote] ++ body
            ++ [quote] ++ rest) as [|c r] eqn:Hs; [done |].
  cbn [search_open_code]. rewrite <- Hs.
  by rewrite match_open_code_at_hit.
Qed.

(** X18. A reply that parses to an object with the key [open_code]:
    the code is [str] of the value bound to the key, stripped, whatever
    the type of the value; a JSON [null] there yields the code
    [None] spelled out. *)
Theorem code_of_text_json (raw_text : pystr) (d : list (pystr * pyval))
    (v : pyval) :
  json_loads (Module1.strip_fences raw_text) = Some (PDict d) ->
  dict_get d key_open_code = Some v ->
  code_of_text json_loads raw_text = strip (py_str v)
  /\ (v = PNone -> code_of_text json_loads raw_text = U "None").
Proof.
  intros Hd Hv. unfold code_of_text.
  rewrite (safe_parse_json_direct json_loads raw_text (PDict d) Hd), Hv.
  split; [done |]. by intros ->.
Qed.

End PatternFallback.

(** *** The table of coded answers *)

Section CodedTable.
Import OpenCoding.
Context `{PyBuiltins} {St : Type}.
Variable json_loads : pystr -> option pyval.
Variable post : St -> pystr -> pystr -> St * (exn + pyval).

Lemma code_blocks_rows (qa_blocks : list Module1.QABlock) (idx : Z)
    (o o' : St) (calls n : nat) (rows : list row) :
  code_blocks json_loads post idx qa_blocks o calls = (o', n, rows) ->
  map row_id rows = seqZ idx (Z.of_nat (length qa_blocks))
  /\ map (fun r => Module1.mkQA (row_question r) (row_answer r)) rows
     = qa_blocks
  /\ Forall (fun r => strip (row_open_code r) = row_open_code r) rows
  /\ (calls <= n <= calls + 3 * length qa_blocks)%nat.
Proof.
  revert idx o calls o' n rows.
  induction qa_blocks as [|block rest IH]; intros idx o calls o' n rows.
  - simpl. intros [= <- <- <-].
    split; [done |]. split; [done |]. split; [constructor | lia].
  - cbn [code_blocks].
    destruct (open_code_answer json_loads post (Module1.question block)
                (Module1.answer block) 3 o calls) as [[o1 calls1] code]
      eqn:Hcode.
    destruct (code_blocks json_loads post (idx + 1) rest o1 calls1)
      as [[o2 calls2] rows'] eqn:Hrest.
    intros [= <- <- <-].
    apply IH in Hrest as (Hids & Hqa & Hstrip & Hcalls).
    apply open_code_answer_stripped_aux in Hcode as [Hs Hc].
    split; [| split; [| split]].
    + cbn [map row_id length]. rewrite Hids.
      rewrite (seqZ_cons idx) by lia. f_equal. f_equal; lia.
    + cbn [map row_question row_answer]. rewrite Hqa. by destruct block.
    + by constructor.
    + cbn [length]. lia.
Qed.

(** X19. The table of [run_open_coding_from_text] has one row per
    block of [parse_qa_blocks], in order, numbered [1, 2, ..]; each row
    repeats the question and the answer of its block (so its answer is
    not empty) and carries a code without outer white space; and at
    most three round trips are made per block. *)
Theorem run_open_coding_rows (text : pystr) (o o' : St) (n : nat)
    (rows : list row) :
  run_open_coding_from_text json_loads post text o = (o', n, rows) ->
  map row_id rows = seqZ 1 (Z.of_nat (length rows))
  /\ map (fun r => Module1.mkQA (row_question r) (row_answer r)) rows
     = Module1.parse_qa_blocks text
  /\ Forall (fun r => row_answer r <> []
                      /\ strip (row_open_code r) = row_open_code r) rows
  /\ (n <= 3 * length rows)%nat.
Proof.
  unfold run_open_coding_from_text. intros Hrun.
  apply code_blocks_rows in Hrun as (Hids & Hqa & Hstrip & Hcalls).
  assert (Hlen : length rows = length (Module1.parse_qa_blocks text))
    by (by rewrite <- Hqa, length_map).
  rewrite Hlen. split; [done |]. split; [done |]. split; [| lia].
  pose proof (parse_qa_blocks_answer_nonempty text) as Hne.
  apply Forall_forall. intros r Hr. split.
  - rewrite Forall_forall in Hne.
    apply (Hne (Module1.mkQA (row_question r) (row_answer r))).
    rewrite <- Hqa.
    apply (list_elem_of_fmap_2
             (fun r => Module1.mkQA (row_question r) (row_answer r))).
    exact Hr.
  - rewrite Forall_forall in Hstrip. by apply Hstrip.
Qed.

End CodedTable.

(** A remote model whose first round trip times out and that answers
    afterwards, one that never answers, and a parser that rejects every
    text. *)
Definition flaky_post (o : nat) (question answer : pystr)
    : nat * (exn + pyval) :=
  (S o,
   match o with
   | O => inl (CallError (U "timeout"))
   | S _ => inr (PStr (U " 压力大 "))
   end).

Definition dead_post (o : nat) (question answer : pystr)
    : nat * (exn + pyval) :=
  (S o, inl (CallError (U "timeout"))).

Definition json_loads_none (s : pystr) : option pyval := None.

Definition demo_question : pystr := U "工作怎么样".
Definition demo_answer : pystr := U "最近很忙".

Lemma open_code_answer_first_reply_witness :
  OpenCoding.open_code_answer (H := no_builtins) json_loads_none flaky_post
    demo_question demo_answer 3 0%nat 0%nat
  = (2%nat, S (0 + 1),
     OpenCoding.code_of_text (H := no_builtins) json_loads_none
       (strip (U " 压力大 "))).
Proof.
  apply (open_code_answer_first_reply (H := no_builtins) json_loads_none
           flaky_post demo_question demo_answer 3 1 0%nat 2%nat 0%nat
           (U " 压力大 ")).
  - lia.
  - intros [|i] Hi; [| lia]. vm_compute. eauto.
  - reflexivity.
Defined.

Lemma open_code_answer_all_fail_witness :
  exists e,
    OpenCoding.open_code_answer (H := no_builtins) json_loads_none dead_post
      demo_question demo_answer 3 0%nat 0%nat
    = (state_after dead_post demo_question demo_answer (Z.to_nat 3) 0%nat,
       (0 + Z.to_nat 3)%nat,
       OpenCoding.failure_prefix
       ++ Module2.repr_last_err (H := no_builtins) e
       ++ OpenCoding.failure_suffix).
Proof.
  destruct (open_code_answer_all_fail (H := no_builtins) json_loads_none
              dead_post demo_question demo_answer 3 0%nat 0%nat)
    as (e & Hrun & _).
  - intros i _. unfold attempt_error, dead_post. simpl. eauto.
  - exists e. exact Hrun.
Defined.

Lemma open_code_answer_stripped_witness :
  OpenCoding.open_code_answer (H := no_builtins) json_loads_none flaky_post
    demo_question demo_answer 3 0%nat 0%nat
  = (2%nat, 2%nat, U "压力大")
  /\ strip (U "压力大") = U "压力大".
Proof.
  assert (Hrun : OpenCoding.open_code_answer (H := no_builtins)
                   json_loads_none flaky_post demo_question demo_answer 3
                   0%nat 0%nat = (2%nat, 2%nat, U "压力大"))
    by (vm_compute; reflexivity).
  split; [exact Hrun |].
  exact (proj1 (open_code_answer_stripped (H := no_builtins) json_loads_none
                  flaky_post demo_question demo_answer 3 0%nat 2%nat 0%nat
                  2%nat (U "压力大") Hrun)).
Defined.

(** A reply cut off after the code. *)
Definition demo_cut_tail : pystr := U ", ".

Lemma code_of_text_recovers_witness :
  let raw_text :=
    [Module1.brace_open] ++ OpenCoding.quoted_key ++ [] ++ [OpenCoding.colon]
    ++ [32%N] ++ [OpenCoding.quote] ++ demo_answer ++ [OpenCoding.quote]
    ++ demo_cut_tail in
  Module1.safe_parse_json json_loads_none (PStr raw_text) = PNone
  /\ OpenCoding.code_of_text (H := no_builtins) json_loads_none raw_text
     = strip demo_answer.
Proof.
  intros raw_text.
  assert (Hnone : Module1.safe_parse_json json_loads_none (PStr raw_text)
                  = PNone) by (vm_compute; reflexivity).
  split; [exact Hnone |].
  apply (code_of_text_recovers (H := no_builtins) json_loads_none
           [Module1.brace_open] [] [32%N] demo_answer demo_cut_tail).
  - refine (bool_decide_unpack _ _). vm_compute. exact I.
  - apply Forall_nil_2.
  - apply Forall_cons_2; [reflexivity | apply Forall_nil_2].
  - vm_compute. discriminate.
  - refine (bool_decide_unpack _ _). vm_compute. exact I.
  - exact Hnone.
Defined.

(** A reply whose code is [null]. *)
Definition demo_null_reply : pystr :=
  [Module1.brace_open] ++ OpenCoding.quoted_key ++ U ": null"
  ++ [Module1.brace_close].

Definition json_loads_null (s : pystr) : option pyval :=
  if decide (s = demo_null_reply)
  then Some (PDict [(OpenCoding.key_open_code, PNone)]) else None.

Lemma code_of_text_json_witness :
  OpenCoding.code_of_text (H := no_builtins) json_loads_null demo_null_reply
  = U "None".
Proof.
  destruct (code_of_text_json (H := no_builtins) json_loads_null
              demo_null_reply [(OpenCoding.key_open_code, PNone)] PNone)
    as [_ Hnull].
  - vm_compute. reflexivity.
  - reflexivity.
  - exact (Hnull eq_refl).
Defined.

Definition demo_interview : pystr :=
  U "Q: 工作怎么样" ++ nl ++ U "A: 最近很忙" ++ nl
  ++ U "Q: 还有呢" ++ nl ++ U "A: 压力大".

Definition demo_rows : list OpenCoding.row :=
  [OpenCoding.mkRow 1 (U "工作怎么样") (U "最近很忙") (U "压力大");
   OpenCoding.mkRow 2 (U "还有呢") (U "压力大") (U "压力大")].

Lemma run_open_coding_rows_witness :
  OpenCoding.run_open_coding_from_text (H := no_builtins) json_loads_none
    flaky_post demo_interview 0%nat
  = (3%nat, 3%nat, demo_rows)
  /\ map OpenCoding.row_id demo_rows = seqZ 1 (Z.of_nat (length demo_rows))
  /\ (3 <= 3 * length demo_rows)%nat.
Proof.
  assert (Hrun : OpenCoding.run_open_coding_from_text (H := no_builtins)
                   json_loads_none flaky_post demo_interview 0%nat
                 = (3%nat, 3%nat, demo_rows)) by (vm_compute; reflexivity).
  split; [exact Hrun |].
  destruct (run_open_coding_rows (H := no_builtins) json_loads_none
              flaky_post demo_interview 0%nat 3%nat 3%nat demo_rows Hrun)
    as (Hids & _ & _ & Hcalls).
  split; [exact Hids | exact Hcalls].
Defined.

(** * Module2_filtering.py and run.py: the tables of the filtering stage *)

(** run.py, step 2: the codes handed to the filter are the stripped,
    non-empty strings of the [open_code] column, without repetition, in
    the order of their first occurrence. *)
Module Run.

Definition usable_code (c : pyval) : option pystr :=
  match c with
  | PStr s => match strip s with [] => None | t => Some t end
  | _ => None
  end.

Definition all_codes (column : list pyval) : list pystr :=
  omap usable_code column.

(** [list(dict.fromkeys(all_codes))] *)
Definition unique_codes (column : list pyval) : list pystr :=
  first_occurrences (all_codes column).

End Run.

Module FilterTables.

Definition default_reason : pystr := U "未返回该条结果".
Definition unknown_reason : pystr := U "open_code 未在 unique 集合中".
Definition column_retain : pystr := U "retain".

(** The one exception of the table library that the function can
    meet: a column that does not exist. *)
Inductive table_error := KeyError (column : pystr).

(** A row of [unique_df]. *)
Record unique_row := mkUnique {
  code_id : Z;
  open_code : pystr;
  retain : bool;
  exclude_reason : pystr
}.

(** The three columns added to a row of [open_df]; [code_id] is an id
    or the empty string. *)
Record row_columns := mkColumns {
  row_code_id : pyval;
  row_retain : bool;
  row_exclude_reason : pystr
}.

Section Tables.
Variable id2retain : gmap Z bool.
Variable id2reason : gmap Z pystr.
(** [id2code.items()], in the order of insertion. *)
Variable id2code : list (Z * pystr).

Definition unique_rows : list unique_row :=
  map (fun kv =>
         mkUnique kv.1 kv.2
           (default false (id2retain !! kv.1))
           (strip (default default_reason (id2reason !! kv.1))))
    id2code.

(** [{v: k for k, v in id2code.items()}] *)
Definition code2id : gmap pystr Z :=
  fold_left (fun m kv => <[kv.2 := kv.1]> m) id2code ∅.

Definition map_code_id (x : pyval) : pyval :=
  match x with
  | PStr s =>
    match code2id !! strip s with
    | Some cid => PInt cid
    | None => PStr []
    end
  | _ => PStr []
  end.

(** [bool(id2retain.get(cid, False)) if cid else False]: an id that
    is zero counts as absent. *)
Definition map_retain (x : pyval) : bool :=
  match x with
  | PStr s =>
    match code2id !! strip s with
    | Some cid => if cid =? 0 then false else default false (id2retain !! cid)
    | None => false
    end
  | _ => false
  end.

Definition map_reason (x : pyval) : pystr :=
  match x with
  | PStr s =>
    match code2id !! strip s with
    | Some cid =>
      if cid =? 0 then unknown_reason
      else default unknown_reason (id2reason !! cid)
    | None => unknown_reason
    end
  | _ => unknown_reason
  end.

(** [build_filter_outputs_from_open_df], on the [open_code] column of
    [open_df]: the columns added to the rows, [unique_df],
    [retain_unique_df] and [exclude_unique_df].  A table built from an
    empty list of rows has no column, so selecting ["retain"] from it
    raises [KeyError]. *)
Definition build_filter_outputs_from_open_df (open_codes : list pyval)
    : table_error
      + list row_columns * list unique_row * list unique_row
        * list unique_row :=
  match id2code with
  | [] => inl (KeyError column_retain)
  | _ :: _ =>
    inr (map (fun x => mkColumns (map_code_id x) (map_retain x) (map_reason x))
           open_codes,
         unique_rows,
         filter (fun u => retain u = true) unique_rows,
         filter (fun u => retain u = false) unique_rows)
  end.

End Tables.

End FilterTables.

(** ** Properties of the tables *)


Section TableProperties.
Import FilterTables.
Context `{PyBuiltins} {St : Type}.
Variable call : St -> list Module2.batch_item -> St * (exn + pyval).
Variable max_retries_each_batch : Z.







(** X21. A column without a usable code stops the stage: when no value
    of the [open_code] column is a string with content, run.py hands
    the filter an empty list, the filter returns empty dictionaries
    without a call, and [build_filter_outputs_from_open_df] raises
    [KeyError] on the column [retain] of its empty unique table. *)
Theorem no_usable_code_raises (column : list pyval) (batch_size : Z)
    (o : St) :
  1 <= batch_size ->
  Forall (fun x => Run.usable_code x = None) column ->
  Run.unique_codes column = []
  /\ Module2.filter_unique_codes_with_batching call
       (Run.unique_codes column) max_retries_each_batch batch_size o
     = Some (inr (Module2.mkState o 0 ∅ ∅, ∅))
  /\ build_filter_outputs_from_open_df ∅ ∅
       (Module2.id2code_items (Run.unique_codes column)) column
     = inl (KeyError column_retain).
Proof.
  intros HB Hblank.
  assert (Hnil : Run.unique_codes column = []).
  { unfold Run.unique_codes, Run.all_codes.
    induction Hblank as [|x l Hx _ IH]; [done |].
    cbn [omap list_omap]. by rewrite Hx. }
  rewrite Hnil. split; [done |]. split; [| done].
  unfold Module2.filter_unique_codes_with_batching, Module2.range_step.
  destruct (batch_size =? 0) eqn:E0; [lia |].
  destruct (batch_size <? 0) eqn:E1; [lia |].
  cbn [length]. replace ((Z.of_nat 0 + batch_size - 1) / batch_size) with 0
    by (symmetry; apply Z.div_small; lia).
  done.
Qed.

End TableProperties.



Lemma no_usable_code_raises_witness :
  Forall (fun x => Run.usable_code x = None) [PNone; PStr (U "  ")]
  /\ FilterTables.build_filter_outputs_from_open_df ∅ ∅
       (Module2.id2code_items (Run.unique_codes [PNone; PStr (U "  ")]))
       [PNone; PStr (U "  ")]
     = inl (FilterTables.KeyError FilterTables.column_retain).
Proof.
  assert (Hblank : Forall (fun x => Run.usable_code x = None)
                     [PNone; PStr (U "  ")]).
  { apply Forall_cons_2; [reflexivity |].
    apply Forall_cons_2; [reflexivity | apply Forall_nil_2]. }
  split; [exact Hblank |].
  destruct (no_usable_code_raises (H := no_builtins) failing_oracle 2
              [PNone; PStr (U "  ")] 2 0%nat ltac:(lia) Hblank)
    as (_ & _ & Hraise).
  exact Hraise.
Defined.

(** * Module4_selective_coding.py and run.py: the selective result *)

Module Selective.

Definition key_raw_text : pystr := U "_raw_text".

(** [d[k] = v]: a key already present keeps its place. *)
Fixpoint dict_set (d : list (pystr * pyval)) (k : pystr) (v : pyval)
    : list (pystr * pyval) :=
  match d with
  | [] => [(k, v)]
  | (k', v') :: r =>
    if decide (k' = k) then (k, v) :: r else (k', v') :: dict_set r k v
  end.

(** The dictionary after [d.pop(k, dflt)]. *)
Definition dict_pop (d : list (pystr * pyval)) (k : pystr)
    : list (pystr * pyval) :=
  filter (fun kv => kv.1 <> k) d.

Section SelectiveCoding.
Context `{PyBuiltins}.
(** [json.loads] of the module (each module of the repository carries
    its own copy of [safe_parse_json], with the same text). *)
Variable json_loads : pystr -> option pyval.

(** [deepseek_selective_coding] after the round trip, [reply] being
    the exception it raised or the value found at
    [choices[0].message.content]: [result = safe_parse_json(raw) or {}]
    and [result["_raw_text"] = raw], which raises [TypeError] on a
    result that is not a dictionary. *)
Definition deepseek_selective_coding (reply : exn + pyval)
    : exn + list (pystr * pyval) :=
  match reply with
  | inl e => inl e
  | inr raw =>
    let parsed := Module1.safe_parse_json json_loads raw in
    match (if py_bool parsed then parsed else PDict []) with
    | PDict d => inr (dict_set d key_raw_text raw)
    | _ => inl TypeError
    end
  end.

(** run.py, step 4: [selective_result.pop("_raw_text", "")], the
    write of the popped value to the raw file, which raises
    [TypeError] on a value that is not a string, then
    [validate_coverage(selective_result, axial_codes)]. *)
Definition coverage_of_result (selective_result : list (pystr * pyval))
    (axial_codes : list pystr)
    : exn + list pystr * list pystr * list pystr :=
  match default (PStr []) (dict_get selective_result key_raw_text) with
  | PStr _ =>
    Module4.validate_coverage
      (PDict (dict_pop selective_result key_raw_text)) axial_codes
  | _ => inl TypeError
  end.

End SelectiveCoding.

End Selective.

Section SelectiveProperties.
Import Selective.
Context `{PyBuiltins}.
Variable json_loads : pystr -> option pyval.

Lemma dict_get_set (d : list (pystr * pyval)) (k k' : pystr) (v : pyval) :
  dict_get (dict_set d k v) k'
  = if decide (k' = k) then Some v else dict_get d k'.
Proof.
  induction d as [|[k0 v0] d IH]; simpl.
  - repeat case_decide; congruence.
  - destruct (decide (k0 = k)) as [-> | Hne]; simpl;
      repeat case_decide; try congruence.
Qed.

Lemma dict_get_pop (d : list (pystr * pyval)) (k k' : pystr) :
  dict_get (dict_pop d k) k'
  = if decide (k' = k) then None else dict_get d k'.
Proof.
  unfold dict_pop. induction d as [|[k0 v0] d IH]; simpl.
  - by case_decide.
  - destruct (decide (k0 = k)) as [-> | Hne].
    + rewrite filter_cons_False by (simpl; intros Hk; by apply Hk).
      rewrite IH. repeat case_decide; congruence.
    + rewrite filter_cons_True by done. simpl. rewrite IH.
      repeat case_decide; congruence.
Qed.

(** The validator reads its first argument through one key only. *)
Lemma validate_coverage_get (d d' : list (pystr * pyval))
    (axial_codes : list pystr) :
  dict_get d Module4.key_aggregate_concepts
  = dict_get d' Module4.key_aggregate_concepts ->
  Module4.validate_coverage (PDict d) axial_codes
  = Module4.validate_coverage (PDict d') axial_codes.
Proof.
  intros Hget.
  unfold Module4.validate_coverage, Module4.covered_entries,
    Module4.iter_key, Module4.get_or_list.
  by rewrite Hget.
Qed.

(** X22. The bookkeeping key does not reach the validator: when the
    reply parses to an object, [deepseek_selective_coding] returns
    that object with the raw reply stored under ["_raw_text"], and
    after run.py has popped the key again, [validate_coverage] returns
    what it returns on the object of the model, even when that object
    had a key ["_raw_text"] of its own. *)
Theorem selective_result_coverage (raw : pyval) (d : list (pystr * pyval))
    (axial_codes : list pystr) :
  Module1.safe_parse_json json_loads raw = PDict d ->
  exists result,
    deepseek_selective_coding json_loads (inr raw) = inr result
    /\ dict_get result key_raw_text = Some raw
    /\ (forall k, k <> key_raw_text -> dict_get result k = dict_get d k)
    /\ coverage_of_result result axial_codes
       = Module4.validate_coverage (PDict d) axial_codes.
Proof.
  intros Hparse. exists (dict_set d key_raw_text raw).
  assert (Hres : deepseek_selective_coding json_loads (inr raw)
                 = inr (dict_set d key_raw_text raw)).
  { unfold deepseek_selective_coding. rewrite Hparse.
    by destruct d as [|kv d']. }
  assert (Hstr : exists t, raw = PStr t).
  { destruct raw as [| | | | t | |]; try discriminate. by exists t. }
  destruct Hstr as [t ->].
  split_and!; [done | | |].
  - rewrite dict_get_set. by rewrite decide_True.
  - intros k Hk. rewrite dict_get_set. by rewrite decide_False.
  - unfold coverage_of_result.
    rewrite dict_get_set, decide_True by done. cbn [default].
    apply validate_coverage_get.
    rewrite dict_get_pop, decide_False by done.
    rewrite dict_get_set. by rewrite decide_False.
Qed.


End SelectiveProperties.

(** A reply with an empty list of concepts, and a parser for it. *)
Definition demo_selective_reply : pystr :=
  [Module1.brace_open] ++ [OpenCoding.quote] ++ U "aggregate_concepts"
  ++ [OpenCoding.quote] ++ U ": []" ++ [Module1.brace_close].

Definition demo_selective_object : list (pystr * pyval) :=
  [(U "aggregate_concepts", PList [])].

Definition json_loads_selective (s : pystr) : option pyval :=
  if decide (s = demo_selective_reply)
  then Some (PDict demo_selective_object) else None.

Lemma selective_result_coverage_witness :
  Module1.safe_parse_json json_loads_selective (PStr demo_selective_reply)
  = PDict demo_selective_object
  /\ exists result,
       Selective.deepseek_selective_coding json_loads_selective
         (inr (PStr demo_selective_reply)) = inr result
       /\ Selective.coverage_of_result (H := no_builtins) result [U "a"]
          = Module4.validate_coverage (H := no_builtins)
              (PDict demo_selective_object) [U "a"].
Proof.
  assert (Hparse : Module1.safe_parse_json json_loads_selective
                     (PStr demo_selective_reply)
                   = PDict demo_selective_object)
    by (vm_compute; reflexivity).
  split; [exact Hparse |].
  destruct (selective_result_coverage (H := no_builtins)
              json_loads_selective (PStr demo_selective_reply)
              demo_selective_object [U "a"] Hparse)
    as (result & Hres & _ & _ & Hcov).
  exists result. split; [exact Hres | exact Hcov].
Defined.


(** * Module4_selective_coding.py: the request payload *)

Module Payload.

Definition key_axial_code : pystr := U "axial_code".
Definition key_member_open_codes : pystr := U "member_open_codes".
Definition key_excerpt : pystr := U "member_open_codes_excerpt".
Definition key_axial_items : pystr := U "axial_items".

(** [s.replace("\n", " ")] *)
Definition replace_newline (s : pystr) : pystr :=
  map (fun c => if (c =? 10)%N then 32%N else c) s.

Section Builder.
Context `{PyBuiltins}.
(** [json.dumps(.., ensure_ascii=False, separators=(",", ":"))] *)
Variable json_dumps : pyval -> pystr.

(** [row.get(k, "")] on a row of the table, given by its cells under
    distinct column names. *)
Definition row_get (row : list (pystr * pyval)) (k : pystr) : pyval :=
  default (PStr []) (dict_get row k).

(** Body of the loop over the rows: the appended item, if any. *)
Definition payload_item (example_char_limit : Z)
    (row : list (pystr * pyval)) : option (pystr * pystr) :=
  match strip (py_str (row_get row key_axial_code)) with
  | [] => None
  | axial_code =>
    let members := row_get row key_member_open_codes in
    let ex :=
      replace_newline
        (strip (py_str (if py_bool members then members else PStr []))) in
    Some (axial_code,
          if 0 <? example_char_limit
          then slice ex 0 example_char_limit else [])
  end.

Definition axial_items (rows : list (list (pystr * pyval)))
    (example_char_limit : Z) : list (pystr * pystr) :=
  omap (payload_item example_char_limit) rows.

Definition build_selective_payload (rows : list (list (pystr * pyval)))
    (example_char_limit : Z) : pystr :=
  json_dumps
    (PDict [(key_axial_items,
             PList (map (fun it => PDict [(key_axial_code, PStr it.1);
                                          (key_excerpt, PStr it.2)])
                      (axial_items rows example_char_limit)))]).

End Builder.

End Payload.

Section PayloadProperties.
Import Payload.
Context `{PyBuiltins}.

Lemma replace_newline_clean (s : pystr) : 10%N ∉ replace_newline s.
Proof.
  unfold replace_newline. intros Hin.
  apply list_elem_of_fmap in Hin as (c & Hc & _).
  destruct (c =? 10)%N eqn:E; [done |]. apply N.eqb_neq in E. congruence.
Qed.

Lemma payload_item_clean (limit : Z) (row : list (pystr * pyval))
    (it : pystr * pystr) :
  payload_item limit row = Some it ->
  it.1 = strip (py_str (row_get row key_axial_code))
  /\ it.1 <> []
  /\ Z.of_nat (length it.2) <= Z.max 0 limit
  /\ 10%N ∉ it.2.
Proof.
  unfold payload_item.
  destruct (strip (py_str (row_get row key_axial_code))) as [|c r] eqn:Hax;
    [done |].
  intros [= <-]. cbn [fst snd]. split; [done |]. split; [done |].
  destruct (0 <? limit) eqn:Hl; [| split; [simpl; lia | apply not_elem_of_nil]].
  set (ex := replace_newline _). split.
  - pose proof (length_slice ex 0 limit ltac:(lia) ltac:(lia)). lia.
  - intros Hin. apply (replace_newline_clean
        (strip (py_str (if py_bool (row_get row key_member_open_codes)
                        then row_get row key_member_open_codes
                        else PStr [])))).
    fold ex. unfold slice in Hin.
    apply elem_of_take in Hin as (i & Hi & _).
    rewrite lookup_drop in Hi. by apply list_elem_of_lookup_2 in Hi.
Qed.

(** X24. The items sent with the selective request: every item
    carries a non-empty axial code without outer white space, an
    excerpt of at most [max(0, example_char_limit)] characters that
    holds no line feed, and the codes of the items are, in order, the
    stripped codes of the rows, the blank ones left out. *)
Theorem axial_items_clean (rows : list (list (pystr * pyval)))
    (example_char_limit : Z) :
  Forall (fun it =>
            it.1 <> [] /\ strip it.1 = it.1
            /\ Z.of_nat (length it.2) <= Z.max 0 example_char_limit
            /\ 10%N ∉ it.2)
    (axial_items rows example_char_limit)
  /\ map fst (axial_items rows example_char_limit)
     = filter (fun c => c <> [])
         (map (fun row => strip (py_str (row_get row key_axial_code))) rows).
Proof.
  split.
  - apply Forall_forall. intros it Hit.
    apply list_elem_of_omap in Hit as (row & _ & Hrow).
    apply payload_item_clean in Hrow as (Hax & Hne & Hlen & Hnl).
    split_and!; try done. rewrite Hax. apply strip_idem.
  - unfold axial_items. induction rows as [|row rows IH]; [done |].
    cbn [omap list_omap map].
    destruct (payload_item example_char_limit row) as [it|] eqn:Hit.
    + apply payload_item_clean in Hit as (Hax & Hne & _).
      rewrite filter_cons_True by (by rewrite <- Hax).
      cbn [map]. fold (omap (payload_item example_char_limit) rows).
      by rewrite IH, Hax.
    + unfold payload_item in Hit.
      destruct (strip (py_str (row_get row key_axial_code))) eqn:Hax;
        [| done].
      rewrite filter_cons_False by (intros Hn; by apply Hn).
      apply IH.
Qed.

End PayloadProperties.

(** * Module2_filtering.py: the round trip of a batch *)

Module FilterCall.

Section Call.
(** [json.loads] of the module (the text of [safe_parse_json] is the
    same in every module of the repository). *)
Variable json_loads : pystr -> option pyval.

(** [_call_filter_batch] after the round trip, [reply] being the
    exception it raised or the value found at
    [choices[0].message.content]: it returns
    [safe_parse_json(raw_text) or {}]. *)
Definition _call_filter_batch (reply : exn + pyval) : exn + pyval :=
  match reply with
  | inl e => inl e
  | inr raw_text =>
    let parsed := Module1.safe_parse_json json_loads raw_text in
    inr (if py_bool parsed then parsed else PDict [])
  end.

End Call.

End FilterCall.

Section FilterCallProperties.
Import FilterCall.
Context `{PyBuiltins}.
Variable json_loads : pystr -> option pyval.

(** X25. When an attempt of the batch filter succeeds: for a batch of
    [n >= 1] codes, the reply of the model is usable exactly when the
    extractor makes of it an object that holds a list under
    ["filtering"]; every other reply (no string, no JSON, a list, a
    number, an object without the key or with another value there)
    makes the attempt fail, by an empty normalized list or by the
    [TypeError] of the normalizer. *)
Theorem call_filter_batch_usable (raw_text : pyval) (n : Z) :
  1 <= n ->
  ~ unusable_reply n (_call_filter_batch json_loads (inr raw_text))
  <-> exists d items,
        Module1.safe_parse_json json_loads raw_text = PDict d
        /\ dict_get d Module2.key_filtering = Some (PList items).
Proof.
  intros Hn. unfold _call_filter_batch, unusable_reply. split.
  - intros Hus.
    destruct (py_bool (Module1.safe_parse_json json_loads raw_text)) eqn:Hb;
      [| by destruct Hus].
    destruct (Module2._normalize_filtering_result
                (Module1.safe_parse_json json_loads raw_text) n)
      as [e | [|v out]] eqn:Hnorm; [by destruct Hus | by destruct Hus |].
    destruct (normalize_inv _ n (v :: out) Hnorm ltac:(done))
      as (d & items & Hd & Hget & _).
    by exists d, items.
  - intros (d & items & Hd & Hget). rewrite Hd.
    assert (Hd' : py_bool (PDict d) = true) by (by destruct d).
    rewrite Hd', (normalize_dict d items n Hget).
    pose proof (normalize_spec_nonempty n items Hn).
    destruct (normalize_spec n items); [done | tauto].
Qed.

End FilterCallProperties.

Lemma call_filter_batch_usable_witness :
  ~ unusable_reply (H := no_builtins) 1
      (FilterCall._call_filter_batch json_loads_array (inr (PStr demo_doc)))
  <-> exists d items,
        Module1.safe_parse_json json_loads_array (PStr demo_doc) = PDict d
        /\ dict_get d Module2.key_filtering = Some (PList items).
Proof.
  apply (call_filter_batch_usable (H := no_builtins) json_loads_array
           (PStr demo_doc) 1).
  lia.
Defined.
